(** * Crawl orchestration engine: a shallow embedding of
      [utils/manager.py], [utils/rate_limiter.py], [main.py] and the
      adapters [crawlers/base.py], [crawlers/met.py], [crawlers/louvre.py]

    The development follows the layout of the Python sources:
    - [Py]        : the few Python notions the code relies on (exception
                    classes, list slicing, floor division);
    - [Item]      : [CrawlerManager.save_artwork] and
                    [CrawlerManager.process_artwork] as computations that
                    return a result together with the trace of the
                    operations they performed;
    - [Pool]      : [CrawlerManager.worker] as a machine whose states are the
                    suspension points of the coroutine, a pool of such
                    workers sharing one queue, one stats dictionary and the
                    shutdown event;
    - [Controller]: [CrawlerManager.crawl_museum];
    - [Float]     : binary64 rounding, for the arithmetic of the limiter;
    - [Limiter]   : [RateLimiter.configure] and [RateLimiter.acquire] over a
                    monotonic clock, with the queue of each lock;
    - [Orchestra] : [run_crawlers] and its [asyncio.gather];
    - [Session], [Http], [Met], [Louvre] : the HTTP session of an adapter,
                    the retried requests and the two adapters.

    Coroutines are modelled by their suspension points and the scheduler is
    an explicit list of events.  The clock is a rational number of seconds;
    the limiter reads it and computes with it in binary64. *)

From Stdlib Require Import ZArith QArith Qround Qpower Qabs Lqa Lia Bool.
From stdpp Require Import base gmap strings list list_numbers.

Local Open Scope Z_scope.

(** ** Python notions *)
Module Py.

(** The exception classes that the crawler code distinguishes.
    [CancelledError] derives from [BaseException] only; every other class
    below derives from [Exception]. *)
Inductive exc : Type :=
| CancelledError
| TimeoutError
| DuplicateKeyError
| ZeroDivisionError
| OtherError (msg : string).

(** [except Exception] matches [e]. *)
Definition is_Exception (e : exc) : bool :=
  match e with
  | CancelledError => false
  | _ => true
  end.

(** [except DuplicateKeyError] matches [e]. *)
Definition is_DuplicateKeyError (e : exc) : bool :=
  match e with
  | DuplicateKeyError => true
  | _ => false
  end.

(** Outcome of evaluating an expression or awaiting a coroutine. *)
Inductive res (A : Type) : Type :=
| Ret (a : A)
| Raise (e : exc).
Arguments Ret {A} a.
Arguments Raise {A} e.

(** [l[:n]] for a Python integer [n]: the first [n] elements when [n] is not
    negative, all but the last [-n] elements otherwise. *)
Definition slice_to {A} (l : list A) (n : Z) : list A :=
  if 0 <=? n then take (Z.to_nat n) l
  else take (length l - Z.to_nat (- n)) l.

(** [a // b] on Python integers. *)
Definition floordiv (a b : Z) : res Z :=
  if b =? 0 then Raise ZeroDivisionError else Ret (a / b).

(** Truthiness of an [Optional[int]]: [None] and [0] are false. *)
Definition truthy (o : option Z) : bool :=
  match o with
  | None => false
  | Some n => negb (n =? 0)
  end.

End Py.
Import Py.

(** ** Item processing: [save_artwork] and [process_artwork] *)
Module Item.

(** What a processing call does, in program order. *)
Inductive event : Type :=
| SemAcquire                 (* [async with self.request_semaphore]: enter *)
| SemRelease                 (* [async with self.request_semaphore]: exit *)
| RateAcquire                (* [await self.rate_limiter.acquire(museum_name)] *)
| Fetch (artwork_id : string)(* [await crawler.get_artwork_data(artwork_id)] *)
| Transform                  (* [crawler.transform_data(raw_data)] *)
| UpdateOne                  (* [await self.db.artworks.update_one(...)] *)
| LogWarning                 (* [logger.warning] in [save_artwork] *)
| LogError                   (* [logger.error] in [save_artwork] *)
| Sleep (seconds : Z).       (* [await asyncio.sleep(2 ** attempt)] *)

#[global] Instance event_eq_dec : EqDecision event.
Proof. solve_decision. Defined.

(** A computation: the trace of what it did and how it ended. *)
Definition M (A : Type) : Type := list event * res A.

Definition ret {A} (a : A) : M A := ([], Ret a).
Definition raise {A} (e : exc) : M A := ([], Raise e).
Definition emit {A} (ev : event) (r : res A) : M A := ([ev], r).
Definition bind {A B} (c : M A) (k : A -> M B) : M B :=
  match c with
  | (tr, Ret a) => let '(tr', r) := k a in (tr ++ tr', r)
  | (tr, Raise e) => (tr, Raise e)
  end.

Notation "'let*' x ':=' c 'in' k" := (bind c (fun x => k))
  (at level 10, x name, c at level 100, k at level 200).

Section Processing.

(** Raw payloads and canonical records are opaque to the manager. *)
Context {Raw Data : Type}.

(** The collaborators of one [process_artwork] call.  Each awaited
    operation may answer differently on each attempt, so the asynchronous
    ones take the attempt index. *)
Record env : Type := {
  sem_enter        : res unit;                       (* semaphore acquire *)
  rate_acquire     : Z -> res unit;                  (* rate limiter *)
  get_artwork_data : string -> Z -> res (option Raw);(* adapter fetch *)
  transform_data   : Raw -> res (option Data);       (* adapter transform *)
  add_metadata     : Data -> Data;                   (* [data["_metadata"] = ...] *)
  update_one       : Data -> Z -> res unit;          (* sink upsert *)
  backoff_sleep    : Z -> res unit                   (* [asyncio.sleep] *)
}.

Variable E : env.
Variable max_retries : Z.

(** [CrawlerManager.save_artwork]. *)
Definition save_artwork (data : Data) (attempt : Z) : M unit :=
  match update_one E (add_metadata E data) attempt with
  | Ret _ => emit UpdateOne (Ret tt)
  | Raise e =>
      if is_DuplicateKeyError e then ([UpdateOne; LogWarning], Ret tt)
      else if is_Exception e then ([UpdateOne; LogError], Raise e)
      else emit UpdateOne (Raise e)
  end.

(** The body of the [try] of one attempt in [process_artwork]. *)
Definition try_body (artwork_id : string) (attempt : Z) : M bool :=
  let* _ := emit RateAcquire (rate_acquire E attempt) in
  let* raw_data :=
    emit (Fetch artwork_id) (get_artwork_data E artwork_id attempt) in
  match raw_data with
  | None => ret false
  | Some raw =>
      let* transformed_data := emit Transform (transform_data E raw) in
      match transformed_data with
      | None => ret false
      | Some data => let* _ := save_artwork data attempt in ret true
      end
  end.

(** [for attempt in range(self.max_retries): try: ... except Exception: ...].
    Falling off the end of the loop returns Python's [None]. *)
Fixpoint attempt_loop (artwork_id : string) (attempts : list Z)
  : M (option bool) :=
  match attempts with
  | [] => ret None
  | attempt :: rest =>
      match try_body artwork_id attempt with
      | (tr, Ret b) => (tr, Ret (Some b))
      | (tr, Raise e) =>
          if is_Exception e then
            if attempt =? max_retries - 1 then (tr, Raise e)
            else
              let* _ := (tr, Ret tt) in
              let* _ := emit (Sleep (2 ^ attempt)) (backoff_sleep E attempt) in
              attempt_loop artwork_id rest
          else (tr, Raise e)
      end
  end.

(** [CrawlerManager.process_artwork]: the retry loop inside
    [async with self.request_semaphore]. *)
Definition process_artwork (artwork_id : string) : M (option bool) :=
  match sem_enter E with
  | Raise e => raise e
  | Ret _ =>
      let '(tr, r) := attempt_loop artwork_id (seqZ 0 max_retries) in
      (SemAcquire :: tr ++ [SemRelease], r)
  end.

(** Attempt [attempt] raises something that [except Exception] catches. *)
Definition fails (artwork_id : string) (attempt : Z) : Prop :=
  exists e, snd (try_body artwork_id attempt) = Raise e /\ is_Exception e = true.

(** The trace of the attempts [a], [a+1], ..., [a+k-1] when each of them
    fails and is followed by its backoff sleep. *)
Definition retries (artwork_id : string) (a k : Z) : list event :=
  flat_map (fun j => fst (try_body artwork_id j) ++ [Sleep (2 ^ j)]) (seqZ a k).

End Processing.

Arguments env : clear implicits.

(** [self.max_retries] when the manager is built by [run_crawlers]. *)
Definition default_max_retries : Z := 3.

(** The durations of the backoff sleeps of a trace, in order. *)
Definition sleeps (tr : list event) : list Z :=
  flat_map (fun ev => match ev with Sleep d => [d] | _ => [] end) tr.

(** Number of attempts started: each starts with one rate-limiter call. *)
Definition attempts_started (tr : list event) : nat :=
  length (filter (fun ev => ev = RateAcquire) tr).

(** Does a backoff sleep occur in [tr] while the semaphore is held?
    [held] tells whether it is held when [tr] starts. *)
Fixpoint sleeps_while_held (held : bool) (tr : list event) : bool :=
  match tr with
  | [] => false
  | SemAcquire :: tr' => sleeps_while_held true tr'
  | SemRelease :: tr' => sleeps_while_held false tr'
  | Sleep _ :: tr' => held || sleeps_while_held held tr'
  | _ :: tr' => sleeps_while_held held tr'
  end.

(** Number of times the semaphore is taken in [tr]. *)
Definition sem_acquisitions (tr : list event) : nat :=
  length (filter (fun ev => ev = SemAcquire) tr).

End Item.

(** ** The worker pool of one museum: [worker] and [_shutdown] *)
Module Pool.

(** [self.stats[museum_name]]. *)
Record Stats : Type := {
  total_processed : Z;
  successful      : Z;
  failed          : Z;
  total_artworks  : Z
}.

(** Where a worker coroutine is suspended. *)
Inductive pc : Type :=
| Created                         (* task created, not started yet *)
| Dequeuing                       (* in [await asyncio.wait_for(queue.get(), 1.0)] *)
| Processing (artwork_id : string)(* in [await task] *)
| Exited.                         (* the coroutine has returned *)

#[global] Instance pc_eq_dec : EqDecision pc.
Proof. solve_decision. Defined.

(** A worker task: its suspension point and whether [Task.cancel()] has been
    requested and not delivered yet. *)
Record worker_task : Type := {
  w_pc     : pc;
  w_cancel : bool
}.

(** The part of the manager that the workers of one museum share. *)
Record pool : Type := {
  queue          : list (option string);  (* [work_queues[name]]; [None] is the sentinel *)
  stats          : Stats;
  shutdown_event : bool;
  workers        : list worker_task       (* this museum's [active_workers] *)
}.

(** What [await asyncio.wait_for(queue.get(), timeout=1.0)] resumes with.
    Up to Python 3.11 [wait_for] runs [queue.get()] in a task of its own; if
    that task has finished when the waiting worker is cancelled, [wait_for]
    returns its result and the cancellation is lost.  The task finishes as
    soon as the queue has an entry, so a cancelled worker still resumes with
    [Got] when the queue is not empty, and with [GetCancelled] only when it
    is (from Python 3.12 on a worker is not suspended at the dequeue while
    the queue has an entry, and only the second case occurs). *)
Inductive get_result : Type :=
| Got (x : option string)
| GetTimeout
| GetCancelled.

Section Worker.

(** [process_artwork], given with the pool: result and trace per identifier. *)
Variable process : string -> Item.M (option bool).

(** [while not self.shutdown_event.is_set()]: the test at the top of the loop. *)
Definition loop_head (shutdown : bool) : pc :=
  if shutdown then Exited else Dequeuing.

(** Resuming the worker at the dequeue. *)
Definition resume_get (shutdown : bool) (r : get_result) : pc :=
  match r with
  | Got None => Exited                  (* sentinel: [break] *)
  | Got (Some artwork_id) => Processing artwork_id
  | GetTimeout => loop_head shutdown    (* [continue] *)
  | GetCancelled => Exited              (* [except CancelledError: break] *)
  end.

Definition incr_successful (st : Stats) : Stats :=
  {| total_processed := total_processed st; successful := successful st + 1;
     failed := failed st; total_artworks := total_artworks st |}.

Definition incr_failed (st : Stats) : Stats :=
  {| total_processed := total_processed st; successful := successful st;
     failed := failed st + 1; total_artworks := total_artworks st |}.

Definition incr_total_processed (st : Stats) : Stats :=
  {| total_processed := total_processed st + 1; successful := successful st;
     failed := failed st; total_artworks := total_artworks st |}.

(** [_log_progress] divides by [total_artworks]. *)
Definition log_progress (st : Stats) : res unit :=
  if total_artworks st =? 0 then Raise ZeroDivisionError else Ret tt.

(** Resuming the worker at [await task] with the outcome [r] of the task:
    the [try / except Exception / finally] around it, then the periodic
    progress log, then back to the top of the loop. *)
Definition resume_task (shutdown : bool) (st : Stats) (r : res (option bool))
  : Stats * pc :=
  match r with
  | Ret _ =>
      let st' := incr_total_processed (incr_successful st) in
      if total_processed st' mod 100 =? 0 then
        match log_progress st' with
        | Ret _ => (st', loop_head shutdown)
        | Raise _ => (st', Exited)      (* outer [except Exception] *)
        end
      else (st', loop_head shutdown)
  | Raise e =>
      if is_Exception e then
        let st' := incr_total_processed (incr_failed st) in
        if total_processed st' mod 100 =? 0 then
          match log_progress st' with
          | Ret _ => (st', loop_head shutdown)
          | Raise _ => (st', Exited)
          end
        else (st', loop_head shutdown)
      else
        (* not caught by [except Exception]; [finally] runs, then
           [except asyncio.CancelledError: break] *)
        (incr_total_processed st, Exited)
  end.

Definition set_worker (i : nat) (w : worker_task) (s : pool) : pool :=
  {| queue := queue s; stats := stats s; shutdown_event := shutdown_event s;
     workers := <[i := w]> (workers s) |}.

Definition at_pc (p : pc) : worker_task := {| w_pc := p; w_cancel := false |}.

(** Worker [i] is scheduled and runs up to its next suspension point. *)
Definition worker (i : nat) (s : pool) : pool :=
  match workers s !! i with
  | None => s
  | Some w =>
      match w_pc w with
      | Exited => s
      | Created =>
          if w_cancel w then set_worker i (at_pc Exited) s
          else set_worker i (at_pc (loop_head (shutdown_event s))) s
      | Dequeuing =>
          if w_cancel w then
            match queue s with
            | [] =>
                set_worker i
                  (at_pc (resume_get (shutdown_event s) GetCancelled)) s
            | x :: q =>
                (* the entry is handed over, the cancellation is lost *)
                {| queue := q; stats := stats s;
                   shutdown_event := shutdown_event s;
                   workers :=
                     <[i := at_pc (resume_get (shutdown_event s) (Got x))]>
                       (workers s) |}
            end
          else
            match queue s with
            | [] =>
                set_worker i (at_pc (resume_get (shutdown_event s) GetTimeout)) s
            | x :: q =>
                {| queue := q; stats := stats s;
                   shutdown_event := shutdown_event s;
                   workers :=
                     <[i := at_pc (resume_get (shutdown_event s) (Got x))]>
                       (workers s) |}
            end
      | Processing artwork_id =>
          let r := if w_cancel w then Raise CancelledError
                   else snd (process artwork_id) in
          let '(st, p) := resume_task (shutdown_event s) (stats s) r in
          {| queue := queue s; stats := st;
             shutdown_event := shutdown_event s;
             workers := <[i := at_pc p]> (workers s) |}
      end
  end.

(** [worker.cancel()]: a no-op on a finished task. *)
Definition cancel (w : worker_task) : worker_task :=
  match w_pc w with
  | Exited => w
  | _ => {| w_pc := w_pc w; w_cancel := true |}
  end.

(** [_shutdown], up to its first [await]: return if already shutting down,
    else set the event and cancel every active worker. *)
Definition _shutdown (s : pool) : pool :=
  if shutdown_event s then s
  else {| queue := queue s; stats := stats s; shutdown_event := true;
          workers := cancel <$> workers s |}.

(** The scheduler's choices. *)
Inductive sched : Type :=
| Run (i : nat)
| Shutdown.

Definition step (ev : sched) (s : pool) : pool :=
  match ev with
  | Run i => worker i s
  | Shutdown => _shutdown s
  end.

Definition run (evs : list sched) (s : pool) : pool :=
  foldl (fun s ev => step ev s) s evs.

Definition exited (w : worker_task) : bool :=
  match w_pc w with Exited => true | _ => false end.

(** [asyncio.gather] over this museum's workers has returned. *)
Definition all_exited (s : pool) : bool := forallb exited (workers s).

End Worker.

(** *** Invariants of the pool *)

(** Workers that have not returned, and workers with an item in flight. *)
Definition live (ws : list worker_task) : nat :=
  sum_list_with (fun w => if exited w then 0 else 1)%nat ws.
Definition busy (ws : list worker_task) : nat :=
  sum_list_with
    (fun w => match w_pc w with Processing _ => 1 | _ => 0 end)%nat ws.

(** A bound on the number of steps the pool can still take: two per queue
    entry, plus what each worker needs to come back to the queue. *)
Definition weight (w : worker_task) : nat :=
  match w_pc w with
  | Created => 2
  | Dequeuing => 1
  | Processing _ => 2
  | Exited => 0
  end.
Definition measure (s : pool) : nat :=
  (2 * length (queue s) + sum_list_with weight (workers s))%nat.

(** Workers suspended at the dequeue, and workers that may still count an
    item as successful or failed: those at the dequeue and those whose item
    is in flight with no cancellation pending. *)
Definition pending (ws : list worker_task) : nat :=
  sum_list_with
    (fun w => match w_pc w with Dequeuing => 1 | _ => 0 end)%nat ws.
Definition owed (ws : list worker_task) : nat :=
  sum_list_with
    (fun w => match w_pc w with
              | Dequeuing => 1
              | Processing _ => if w_cancel w then 0 else 1
              | _ => 0
              end)%nat ws.

(** How many more times a worker can be scheduled before it has returned,
    once the shutdown event is set. *)
Definition rank (w : worker_task) : nat :=
  match w_pc w with
  | Exited => 0
  | Created => 1
  | Processing _ => 1
  | Dequeuing => 2
  end.

(** The number of times worker [i] is scheduled in [evs]. *)
Definition runs (i : nat) (evs : list sched) : nat :=
  sum_list_with
    (fun ev => match ev with
               | Run j => if decide (i = j) then 1 else 0
               | Shutdown => 0
               end)%nat evs.

(** Once the shutdown event is set, a worker suspended at the dequeue has
    its cancellation pending: it was there when the event was set. *)
Definition stopped (w : worker_task) : Prop :=
  w_pc w = Dequeuing -> w_cancel w = true.
Definition shutdown_inv (s : pool) : Prop :=
  shutdown_event s = true -> Forall stopped (workers s).

(** A run in which nothing is cancelled, started from [items] followed by
    one sentinel per worker: the identifiers not yet dequeued, those in
    flight and those processed add up to [items]; sentinels are only
    reached when no identifier is left. *)
Record run_inv (items : list string) (s : pool) : Prop := {
  inv_flag : shutdown_event s = false;
  inv_cancel : Forall (fun w => w_cancel w = false) (workers s);
  inv_queue :
    exists rest,
      queue s = (Some <$> rest) ++ replicate (live (workers s)) None
      /\ Z.of_nat (length rest) + Z.of_nat (busy (workers s))
          + total_processed (stats s) = Z.of_nat (length items)
      /\ ((live (workers s) < length (workers s))%nat -> rest = []);
  inv_sum : total_processed (stats s) = successful (stats s) + failed (stats s);
  inv_total : Z.of_nat (length items) <= total_artworks (stats s);
  inv_nonneg : 0 <= total_processed (stats s)
}.

End Pool.

(** ** The source crawl controller: [crawl_museum] *)
Module Controller.
Import Pool.

(** The manager fields that [crawl_museum] reads and writes. *)
Record Manager : Type := {
  max_concurrent_requests   : Z;
  max_artworks_per_museum   : option Z;
  active_museums            : Z;
  max_concurrent_per_museum : Z;
  shutting_down             : bool     (* [shutdown_event.is_set()] *)
}.

(** The adapter as the controller sees it. *)
Record Crawler : Type := {
  init_session    : res unit;
  get_artwork_ids : res (list string)
}.

(** What the controller does, in program order. *)
Inductive event : Type :=
| ConfigureRate
| InitSession
| Discover
| StartWorkers (n : nat)
| LogFinalCounts             (* the header and the three counter lines *)
| LogFinalProgress           (* the percentage line of the final report *)
| LogCancelled               (* [logger.info] in [except CancelledError] *)
| LogCrawlError              (* [logger.error] in [except Exception] *)
| CloseSession.

#[global] Instance event_eq_dec : EqDecision event.
Proof. solve_decision. Defined.

Definition set_active (a : Z) (m : Manager) : Manager :=
  {| max_concurrent_requests := max_concurrent_requests m;
     max_artworks_per_museum := max_artworks_per_museum m;
     active_museums := a;
     max_concurrent_per_museum := max_concurrent_per_museum m;
     shutting_down := shutting_down m |}.

Definition set_per_museum (k : Z) (m : Manager) : Manager :=
  {| max_concurrent_requests := max_concurrent_requests m;
     max_artworks_per_museum := max_artworks_per_museum m;
     active_museums := active_museums m;
     max_concurrent_per_museum := k;
     shutting_down := shutting_down m |}.

(** The first statements of [crawl_museum], which run without suspension:
    count this museum as active and size its worker pool.  Returns the
    manager and the local [num_workers]. *)
Definition crawl_enter (m : Manager) : Manager * res Z :=
  let m1 := set_active (active_museums m + 1) m in
  match floordiv (max_concurrent_requests m1) (active_museums m1) with
  | Raise e => (m1, Raise e)
  | Ret q =>
      let m2 := set_per_museum (Z.max 1 q) m1 in
      (m2, Ret (Z.min (max_concurrent_per_museum m2)
                      (max_concurrent_requests m2)))
  end.

(** The [finally] clause: [self.active_museums -= 1]. *)
Definition crawl_finally (m : Manager) : Manager :=
  set_active (active_museums m - 1) m.

(** [artwork_ids[:self.max_artworks_per_museum]] under
    [if self.max_artworks_per_museum:]. *)
Definition cap_ids (cap : option Z) (artwork_ids : list string) : list string :=
  match cap with
  | Some n => if truthy cap then slice_to artwork_ids n else artwork_ids
  | None => artwork_ids
  end.

(** The queue-filling loop.  [Queue.put] on an unbounded queue does not
    suspend, so the shutdown event has one value for the whole loop. *)
Definition enqueue_ids (shutdown : bool) (artwork_ids : list string)
  : list (option string) :=
  if shutdown then [] else Some <$> artwork_ids.

(** From queue creation to the sentinels: the pool that the workers start
    from, given the discovered identifiers. *)
Definition make_pool (m : Manager) (num_workers : Z) (artwork_ids : list string)
  : pool :=
  {| queue := enqueue_ids (shutting_down m)
                (cap_ids (max_artworks_per_museum m) artwork_ids)
              ++ replicate (Z.to_nat num_workers) None;
     stats := {| total_processed := 0; successful := 0; failed := 0;
                 total_artworks := Z.of_nat (length artwork_ids) |};
     shutdown_event := shutting_down m;
     workers := replicate (Z.to_nat num_workers) (at_pc Created) |}.

(** [_log_museum_stats]: the header and the counters are logged first; the
    last line divides by [total_artworks]. *)
Definition log_museum_stats (st : Stats) : list event * res unit :=
  if total_artworks st =? 0 then ([LogFinalCounts], Raise ZeroDivisionError)
  else ([LogFinalCounts; LogFinalProgress], Ret tt).

(** The [except] clauses of [crawl_museum]; both re-raise. *)
Definition handlers (e : exc) : list event :=
  match e with
  | CancelledError => [LogCancelled]
  | _ => [LogCrawlError]
  end.

Record outcome : Type := {
  o_trace   : list event;
  o_result  : res unit;
  o_pool    : option pool;     (* the worker pool, when one was started *)
  o_manager : Manager
}.

Definition sync_shutdown (b : bool) (m : Manager) : Manager :=
  {| max_concurrent_requests := max_concurrent_requests m;
     max_artworks_per_museum := max_artworks_per_museum m;
     active_museums := active_museums m;
     max_concurrent_per_museum := max_concurrent_per_museum m;
     shutting_down := b |}.

Section Crawl.

Variable process : string -> Item.M (option bool).

(** [crawl_museum] when the workers are scheduled by [evs].  [None]: under
    that schedule some worker has not returned, and the controller is still
    suspended in [asyncio.gather].  The [close_session] of the [finally]
    clause is one that returns (for a session whose close raises see
    [Session]), and no other controller touches the manager during the call
    (for several controllers on one manager see [life_step]). *)
Definition crawl_museum (m : Manager) (c : Crawler) (evs : list sched)
  : option outcome :=
  match crawl_enter m with
  | (m1, Raise e) =>
      Some {| o_trace := [ConfigureRate] ++ handlers e ++ [CloseSession];
              o_result := Raise e;
              o_pool := None; o_manager := crawl_finally m1 |}
  | (m1, Ret num_workers) =>
      match init_session c with
      | Raise e =>
          Some {| o_trace := [ConfigureRate; InitSession] ++ handlers e
                             ++ [CloseSession];
                  o_result := Raise e; o_pool := None;
                  o_manager := crawl_finally m1 |}
      | Ret _ =>
          match get_artwork_ids c with
          | Raise e =>
              Some {| o_trace := [ConfigureRate; InitSession; Discover]
                                 ++ handlers e ++ [CloseSession];
                      o_result := Raise e; o_pool := None;
                      o_manager := crawl_finally m1 |}
          | Ret artwork_ids =>
              let p := run process evs (make_pool m1 num_workers artwork_ids) in
              if all_exited p then
                let m2 := sync_shutdown (shutdown_event p) m1 in
                match log_museum_stats (stats p) with
                | (tr, Ret _) =>
                    Some {| o_trace := [ConfigureRate; InitSession; Discover;
                                        StartWorkers (Z.to_nat num_workers)]
                                       ++ tr ++ [CloseSession];
                            o_result := Ret tt; o_pool := Some p;
                            o_manager := crawl_finally m2 |}
                | (tr, Raise e) =>
                    Some {| o_trace := [ConfigureRate; InitSession; Discover;
                                        StartWorkers (Z.to_nat num_workers)]
                                       ++ tr ++ handlers e ++ [CloseSession];
                            o_result := Raise e; o_pool := Some p;
                            o_manager := crawl_finally m2 |}
                end
              else None
          end
      end
  end.

End Crawl.

(** Several controllers on one manager: each keeps its own local
    [num_workers]; entering and leaving are the only steps that touch
    [active_museums]. *)
Inductive life : Type :=
| Enter (museum_name : string)
| Leave (museum_name : string).

Definition life_step (ev : life) (s : Manager * gmap string Z)
  : Manager * gmap string Z :=
  match ev with
  | Enter name =>
      match crawl_enter (fst s) with
      | (m', Ret num_workers) => (m', <[name := num_workers]> (snd s))
      | (m', Raise _) => (crawl_finally m', snd s)
      end
  | Leave name => (crawl_finally (fst s), snd s)
  end.

Definition life_run (evs : list life) (s : Manager * gmap string Z)
  : Manager * gmap string Z :=
  foldl (fun s ev => life_step ev s) s evs.

End Controller.

(** ** Binary64 arithmetic: Python's [float] *)
Module Float.

Local Open Scope Q_scope.

(** [2 ^ e] for an integer exponent. *)
Definition pow2 (e : Z) : Q := 2 ^ e.

(** The integer part of the logarithm of [x] in base 2, for [0 < x]. *)
Definition ilog2 (x : Q) : Z :=
  let k := (Z.log2 (Qnum x) - Z.log2 (Zpos (Qden x)))%Z in
  if Qle_bool (pow2 k) x then k else (k - 1)%Z.

(** The nearest integer, ties to the even one. *)
Definition rnd (y : Q) : Z :=
  let f := Qfloor y in
  match Qcompare (y - inject_Z f) (1 # 2) with
  | Lt => f
  | Gt => (f + 1)%Z
  | Eq => if Z.even f then f else (f + 1)%Z
  end.

(** The exponent of the unit in the last place of [x]: 53 significant bits,
    and never below [2 ^ -1074] (gradual underflow). *)
Definition ulp_exp (x : Q) : Z := Z.max (ilog2 x - 52) (-1074).

Definition round_pos (x : Q) : Q :=
  let e := ulp_exp x in
  inject_Z (rnd (x / pow2 e)) * pow2 e.

(** The binary64 number nearest to the real number [x], ties to even.  The
    exponent is not bounded above: a result of magnitude [2 ^ 1024] or more
    stands for an overflow (see [overflows]). *)
Definition fl (x : Q) : Q :=
  Qred match Qnum x with
       | Z0 => 0
       | Zpos _ => round_pos x
       | Zneg _ => - round_pos (- x)
       end.

(** [x] is [fl y] for a [y] too large for a binary64 number. *)
Definition overflows (x : Q) : bool := Qle_bool (pow2 1024) (Qabs x).

(** [float(n)] for a Python integer, where it does not overflow. *)
Definition of_int (n : Z) : Q := fl (inject_Z n).

(** [x - y] and [x / y] on floats. *)
Definition sub (x y : Q) : Q := fl (x - y).
Definition div (x y : Q) : Q := fl (x / y).


End Float.

(** ** The rate limiter: [RateLimiter.configure] and [RateLimiter.acquire] *)
Module Limiter.

Local Open Scope Q_scope.

(** The three dictionaries of [RateLimiter]; a lock is [true] when held.
    The instants of [_last_check] are floats, or the integer [0] that
    [configure] writes. *)
Record RateLimiter : Type := {
  _locks      : gmap string bool;
  _last_check : gmap string Q;
  _rates      : gmap string (Z * Q)
}.

(** [RateLimiter.__init__]. *)
Definition empty : RateLimiter :=
  {| _locks := ∅; _last_check := ∅; _rates := ∅ |}.

(** [RateLimiter.configure]. *)
Definition configure (name : string) (calls : Z) (period : Q)
    (rl : RateLimiter) : RateLimiter :=
  {| _rates := <[name := (calls, period)]> (_rates rl);
     _locks := <[name := false]> (_locks rl);
     _last_check := <[name := 0]> (_last_check rl) |}.

(** Where a call of [acquire] is suspended. *)
Inductive pc : Type :=
| Called                          (* not started yet *)
| WaitLock (min_interval : Q)     (* in [async with self._locks[name]]: enter *)
| Sleeping (wake : Q)             (* in [await asyncio.sleep(...)], lock held *)
| Returned
| Raised (e : exc).

Record caller : Type := {
  c_name : string;
  c_pc   : pc
}.

(** The limiter, the monotonic clock (the real time, of which
    [time.monotonic()] returns the nearest float), the calls in flight, the
    instants written to [_last_check] so far, most recent first, and the
    calls queued on each lock, first come first ([asyncio.Lock._waiters]). *)
Record state : Type := {
  limiter   : RateLimiter;
  clock     : Q;
  callers   : list caller;
  completed : list (string * Q);
  waiters   : gmap string (list nat)
}.

(** [time.monotonic()] when the clock is at [t]. *)
Definition monotonic (t : Q) : Q := Float.fl t.

(** The calls queued on the lock of [name]. *)
Definition queue_of (name : string) (s : state) : list nat :=
  default [] (waiters s !! name).

Definition set_caller (i : nat) (p : pc) (name : string) (s : state) : state :=
  {| limiter := limiter s; clock := clock s;
     callers := <[i := {| c_name := name; c_pc := p |}]> (callers s);
     completed := completed s; waiters := waiters s |}.

(** [self._last_check[name] = time.monotonic()] and the release of the lock
    at the end of the [async with] block; the clock is at [clock s + late]
    when it is read. *)
Definition finish (i : nat) (name : string) (late : Q) (s : state) : state :=
  let t := clock s + late in
  {| limiter := {| _rates := _rates (limiter s);
                   _locks := <[name := false]> (_locks (limiter s));
                   _last_check := <[name := monotonic t]> (_last_check (limiter s)) |};
     clock := t;
     callers := <[i := {| c_name := name; c_pc := Returned |}]> (callers s);
     completed := (name, monotonic t) :: completed s;
     waiters := waiters s |}.

(** The body of [async with self._locks[name]], entered with the lock free.
    [asyncio.sleep(delay)] resumes the call no earlier than [delay] after it
    went to sleep. *)
Definition enter (i : nat) (name : string) (min_interval late : Q)
    (s : state) : state :=
  match _last_check (limiter s) !! name with
  | None => set_caller i (Raised (OtherError "KeyError")) name s
  | Some last =>
      let now := monotonic (clock s) in
      let time_passed := Float.sub now last in
      if Qle_bool min_interval time_passed then finish i name late s
      else
        {| limiter := {| _rates := _rates (limiter s);
                         _locks := <[name := true]> (_locks (limiter s));
                         _last_check := _last_check (limiter s) |};
           clock := clock s;
           callers := <[i := {| c_name := name;
                                c_pc := Sleeping (clock s + Float.sub min_interval time_passed) |}]>
                        (callers s);
           completed := completed s;
           waiters := waiters s |}
  end.

(** [async with self._locks[name]]: [Lock.acquire] takes the lock at once if
    it is free and no call is queued on it; otherwise the call joins the
    queue and waits. *)
Definition lock_then_enter (i : nat) (name : string) (min_interval late : Q)
    (s : state) : state :=
  match _locks (limiter s) !! name with
  | None => set_caller i (Raised (OtherError "KeyError")) name s
  | Some locked =>
      if negb locked && bool_decide (queue_of name s = [])
      then enter i name min_interval late s
      else
        {| limiter := limiter s; clock := clock s;
           callers := <[i := {| c_name := name; c_pc := WaitLock min_interval |}]>
                        (callers s);
           completed := completed s;
           waiters := <[name := queue_of name s ++ [i]]> (waiters s) |}
  end.

(** A queued call resumes: [Lock.release] wakes the first call of the queue
    only, so the call runs when the lock is free and it is the first; it
    leaves the queue and takes the lock.  Otherwise nothing happens. *)
Definition wake_then_enter (i : nat) (name : string) (min_interval late : Q)
    (s : state) : state :=
  match _locks (limiter s) !! name, queue_of name s with
  | Some false, j :: rest =>
      if bool_decide (j = i)
      then enter i name min_interval late
             {| limiter := limiter s; clock := clock s; callers := callers s;
                completed := completed s;
                waiters := <[name := rest]> (waiters s) |}
      else s
  | _, _ => s
  end.

(** Call [i] of [acquire] is scheduled and runs to its next suspension
    point; [late] is how far the clock has moved when it is read again.
    [period / calls] divides a float by an integer. *)
Definition acquire (i : nat) (late : Q) (s : state) : state :=
  match callers s !! i with
  | None => s
  | Some c =>
      let name := c_name c in
      match c_pc c with
      | Called =>
          match _rates (limiter s) !! name with
          | None => set_caller i Returned name s     (* not configured *)
          | Some (calls, period) =>
              if (calls =? 0)%Z then set_caller i (Raised ZeroDivisionError) name s
              else if Float.overflows (Float.of_int calls)
              then set_caller i (Raised (OtherError "OverflowError")) name s
              else lock_then_enter i name (Float.div period (Float.of_int calls))
                     late s
          end
      | WaitLock min_interval => wake_then_enter i name min_interval late s
      | Sleeping wake =>
          if Qle_bool wake (clock s) then finish i name late s else s
      | Returned => s
      | Raised _ => s
      end
  end.

(** The scheduler's choices: let time pass, or resume a call. *)
Inductive sched : Type :=
| Tick (dt : Q)
| Resume (i : nat) (late : Q).

(** Time only moves forward. *)
Definition valid (ev : sched) : Prop :=
  match ev with
  | Tick dt => 0 <= dt
  | Resume _ late => 0 <= late
  end.

Definition step (ev : sched) (s : state) : state :=
  match ev with
  | Tick dt => {| limiter := limiter s; clock := clock s + dt;
                  callers := callers s; completed := completed s;
                  waiters := waiters s |}
  | Resume i late => acquire i late s
  end.

Definition run (evs : list sched) (s : state) : state :=
  foldl (fun s ev => step ev s) s evs.

(** The instants at which acquisitions for [name] completed, latest first. *)
Definition instants (name : string) (log : list (string * Q)) : list Q :=
  snd <$> filter (fun e => fst e = name) log.



(** The limiter after [manager.rate_limiter.configure] has been called for
    each entry of [cfg] (last entry first). *)
Definition configured (cfg : list (string * Z * Q)) : RateLimiter :=
  foldr (fun '(name, calls, period) rl => configure name calls period rl)
        empty cfg.

(** A limiter [rl], the clock at [t0], one call of [acquire name] about to
    be made for each element of [names], nothing acquired yet and no call
    queued. *)
Definition start (rl : RateLimiter) (t0 : Q) (names : list string) : state :=
  {| limiter := rl;
     clock := t0;
     callers := (fun name => {| c_name := name; c_pc := Called |}) <$> names;
     completed := [];
     waiters := ∅ |}.

(** *** Invariants of the limiter for one source *)
Section Invariant.

Variable name : string.
Variable min_interval : Q.   (* what [acquire] computes for [name] *)

(** The lock of [name] is held exactly while one call sleeps on it. *)
Definition lock_inv (s : state) : Prop :=
  match _locks (limiter s) !! name with
  | Some false =>
      forall i c wake, callers s !! i = Some c -> c_name c = name ->
                       c_pc c <> Sleeping wake
  | Some true =>
      exists i wake,
        callers s !! i = Some {| c_name := name; c_pc := Sleeping wake |}
        /\ (forall j c w, callers s !! j = Some c -> c_name c = name ->
                          c_pc c = Sleeping w -> j = i)
  | None => False
  end.

Record shape (s : state) : Prop := {
  sh_wait : forall i c m, callers s !! i = Some c -> c_name c = name ->
                          c_pc c = WaitLock m -> m = min_interval;
  sh_lock : lock_inv s;
  sh_last : is_Some (_last_check (limiter s) !! name)
}.

(** The queue of the lock holds the calls that wait for it, once each. *)
Record queued (s : state) : Prop := {
  qu_nodup : NoDup (queue_of name s);
  qu_wait : forall j, j ∈ queue_of name s
                      <-> exists m, callers s !! j
                                    = Some {| c_name := name; c_pc := WaitLock m |}
}.

(** While the clock is within [t0, T]: the instants written are readings
    of the clock, a sleeping call wakes no earlier than [min_interval] after
    the last of them, less the rounding errors of [enter], and they are
    that far apart, less the rounding error of the reading. *)
Variable t0 T : Q.

Local Abbreviation ulp := ((1 # 9007199254740992) * (1 + T + Qabs min_interval)).


(** [s'] differs from [s] only in what belongs to other sources, and in the
    clock having advanced. *)
Record frame (s s' : state) : Prop := {
  fr_locks : _locks (limiter s') !! name = _locks (limiter s) !! name;
  fr_last : _last_check (limiter s') !! name = _last_check (limiter s) !! name;
  fr_log : instants name (completed s') = instants name (completed s);
  fr_queue : queue_of name s' = queue_of name s;
  fr_clock : clock s <= clock s';
  fr_back : forall j c, callers s' !! j = Some c -> c_name c = name ->
                        callers s !! j = Some c;
  fr_forth : forall j c, callers s !! j = Some c -> c_name c = name ->
                         callers s' !! j = Some c
}.

End Invariant.

(** The source [name] is configured with [(calls, period)], and its lock
    and the queue of its lock are in order. *)
Definition good (name : string) (calls : Z) (period : Q) (s : state) : Prop :=
  shape name (Float.div period (Float.of_int calls)) s
  /\ queued name s
  /\ _rates (limiter s) !! name = Some (calls, period).

(** How long to let the clock run for a call that sleeps until [wake]. *)
Definition until (wake : Q) (s : state) : Q :=
  if Qle_bool wake (clock s) then 0 else wake - clock s.

End Limiter.

(** ** The orchestrator: [run_crawlers] *)
Module Orchestra.
Import Pool Controller.

(** A source: its adapter and the schedule its workers get. *)
Record source : Type := {
  crawler  : Crawler;
  schedule : list Pool.sched
}.

Section Run.

Variable process : string -> Item.M (option bool).

(** The tasks are created in list order and each runs [crawl_enter] before
    it first suspends, so task [j] enters with [j] museums already active. *)
Definition task (m : Manager) (j : nat) (src : source) : option outcome :=
  crawl_museum process
    (set_active (active_museums m + Z.of_nat j) m) (crawler src) (schedule src).

Definition tasks (m : Manager) (srcs : list source) : list (option outcome) :=
  imap (task m) srcs.

(** [await asyncio.gather] over the tasks, without [return_exceptions]: the
    awaiting coroutine resumes with the first exception raised by a task, the
    other tasks are left running; it resumes with the results once every
    task has finished.  [order] lists the tasks in the order they finish,
    each at most once since a task finishes once; [seen] are those already
    finished.  [None]: still waiting. *)
Fixpoint gather (results : list (option outcome)) (order seen : list nat)
  : list nat * option (res unit) :=
  match order with
  | [] =>
      (seen, if decide (length seen = length results) then Some (Ret tt)
             else None)
  | i :: rest =>
      match results !! i with
      | Some (Some o) =>
          match o_result o with
          | Raise e => (seen ++ [i], Some (Raise e))
          | Ret _ => gather results rest (seen ++ [i])
          end
      | _ => gather results rest seen
      end
  end.

Record report : Type := {
  r_result   : res unit;     (* how [run_crawlers] ends *)
  r_finished : list nat;     (* tasks that had finished by then *)
  r_closed   : nat           (* [close_session] calls of the [finally] *)
}.

(** [run_crawlers]: gather the tasks, swallow [CancelledError], and in the
    [finally] close every crawler's session: the loop of the [finally]
    makes one [close_session] call for each element of [crawlers]. *)
Definition run_crawlers (m : Manager) (srcs : list source) (order : list nat)
  : option report :=
  match gather (tasks m srcs) order [] with
  | (_, None) => None
  | (seen, Some r) =>
      Some {| r_result := match r with
                          | Raise CancelledError => Ret tt
                          | _ => r
                          end;
              r_finished := seen;
              r_closed := length srcs |}
  end.

End Run.

End Orchestra.

(** ** Concrete collaborators used in the examples *)
Module Examples.
Import Item Pool Controller.

(** [CrawlerManager.__init__] with the given limit and cap. *)
Definition manager (limit : Z) (cap : option Z) : Manager :=
  {| max_concurrent_requests := limit;
     max_artworks_per_museum := cap;
     active_museums := 0;
     max_concurrent_per_museum := 0;
     shutting_down := false |}.

(** Everything succeeds at once. *)
Definition env_ok : env unit unit :=
  {| sem_enter := Ret tt;
     rate_acquire := fun _ => Ret tt;
     get_artwork_data := fun _ _ => Ret (Some tt);
     transform_data := fun _ => Ret (Some tt);
     add_metadata := fun d => d;
     update_one := fun _ _ => Ret tt;
     backoff_sleep := fun _ => Ret tt |}.

(** The fetch fails on the first two attempts, then succeeds. *)
Definition env_flaky : env unit unit :=
  {| sem_enter := Ret tt;
     rate_acquire := fun _ => Ret tt;
     get_artwork_data := fun _ attempt =>
       if attempt <? 2 then Raise (OtherError "timeout") else Ret (Some tt);
     transform_data := fun _ => Ret (Some tt);
     add_metadata := fun d => d;
     update_one := fun _ _ => Ret tt;
     backoff_sleep := fun _ => Ret tt |}.

(** The fetch always fails. *)
Definition env_down : env unit unit :=
  {| sem_enter := Ret tt;
     rate_acquire := fun _ => Ret tt;
     get_artwork_data := fun _ _ => Raise (OtherError "timeout");
     transform_data := fun _ => Ret (Some tt);
     add_metadata := fun d => d;
     update_one := fun _ _ => Ret tt;
     backoff_sleep := fun _ => Ret tt |}.

(** The fetch answers "not found". *)
Definition env_missing : env unit unit :=
  {| sem_enter := Ret tt;
     rate_acquire := fun _ => Ret tt;
     get_artwork_data := fun _ _ => Ret None;
     transform_data := fun _ => Ret (Some tt);
     add_metadata := fun d => d;
     update_one := fun _ _ => Ret tt;
     backoff_sleep := fun _ => Ret tt |}.

(** The sink reports a duplicate key. *)
Definition env_duplicate : env unit unit :=
  {| sem_enter := Ret tt;
     rate_acquire := fun _ => Ret tt;
     get_artwork_data := fun _ _ => Ret (Some tt);
     transform_data := fun _ => Ret (Some tt);
     add_metadata := fun d => d;
     update_one := fun _ _ => Raise DuplicateKeyError;
     backoff_sleep := fun _ => Ret tt |}.

(** A source whose discovery fails, and one with a single artwork. *)
Definition failing_source : Orchestra.source :=
  {| Orchestra.crawler := {| init_session := Ret tt;
                   get_artwork_ids := Raise (OtherError "discovery") |};
     Orchestra.schedule := [] |}.

Definition small_source : Orchestra.source :=
  {| Orchestra.crawler := {| init_session := Ret tt; get_artwork_ids := Ret ["a"] |};
     Orchestra.schedule := [Run 0%nat; Run 0%nat; Run 0%nat; Run 0%nat;
                  Run 1%nat; Run 1%nat] |}.



End Examples.

(** ** The identifiers that go through a pool *)
Module Ledger.
Import Pool.

(** The identifiers held by a queue, sentinels left out. *)
Definition ids_in (q : list (option string)) : list string := omap id q.

(** The identifier that worker [i] takes from the queue when it is scheduled
    in [s], if it takes one. *)
Definition taken (i : nat) (s : pool) : list string :=
  match workers s !! i with
  | Some w =>
      match w_pc w with
      | Dequeuing =>
          match queue s with
          | Some artwork_id :: _ => [artwork_id]
          | _ => []
          end
      | _ => []
      end
  | None => []
  end.

Section Dequeued.

Variable process : string -> Item.M (option bool).

(** The identifiers taken from the queue along a schedule, in order. *)
Fixpoint dequeued (evs : list sched) (s : pool) : list string :=
  match evs with
  | [] => []
  | ev :: evs' =>
      match ev with
      | Run i => taken i s
      | Shutdown => []
      end ++ dequeued evs' (step process ev s)
  end.

End Dequeued.

End Ledger.

(** ** Counting the operations of a processing call *)
Module Tally.
Import Item.

(** Calls of the adapter's [get_artwork_data].  One call may send several
    HTTP requests: the adapters retry inside it (see [Http]). *)
Definition fetches (tr : list event) : nat :=
  sum_list_with (fun ev => match ev with Fetch _ => 1 | _ => 0 end)%nat tr.



End Tally.

(** ** The HTTP session of a crawler: [MuseumCrawler.init_session] and
       [MuseumCrawler.close_session] *)
Module Session.

(** What happens to [aiohttp.ClientSession] objects. *)
Inductive event : Type :=
| Created                    (* [aiohttp.ClientSession()] *)
| Closed                     (* [await self.session.close()] returned *)
| CloseFailed (e : exc).     (* [await self.session.close()] raised *)

(** [self.session]: [None], or the open session. *)
Inductive session : Type :=
| NoSession
| Open.

(** [init_session]: creates a session only when there is none. *)
Definition init_session (s : session) : session * list event :=
  match s with
  | NoSession => (Open, [Created])
  | Open => (Open, [])
  end.

(** [close_session]: closes the session if there is one and forgets it;
    [closing] is what [session.close()] does.  When that raises, the
    assignment [self.session = None] is not reached. *)
Definition close_session (closing : res unit) (s : session)
  : session * list event * res unit :=
  match s with
  | NoSession => (NoSession, [], Ret tt)
  | Open =>
      match closing with
      | Ret _ => (NoSession, [Closed], Ret tt)
      | Raise e => (Open, [CloseFailed e], Raise e)
      end
  end.

(** Calls made on one crawler, in order. *)
Inductive call : Type :=
| Init
| Close (closing : res unit).

Definition step (c : call) (s : session) : session * list event :=
  match c with
  | Init => init_session s
  | Close closing => fst (close_session closing s)
  end.

Fixpoint run (calls : list call) (s : session) : session * list event :=
  match calls with
  | [] => (s, [])
  | c :: calls' =>
      let '(s1, tr1) := step c s in
      let '(s2, tr2) := run calls' s1 in
      (s2, tr1 ++ tr2)
  end.

Definition created (tr : list event) : nat :=
  sum_list_with (fun ev => match ev with Created => 1 | _ => 0 end)%nat tr.
Definition closed (tr : list event) : nat :=
  sum_list_with (fun ev => match ev with Closed => 1 | _ => 0 end)%nat tr.

End Session.

(** ** More concrete collaborators *)
Module Scenarios.
Import Item Pool Controller.

(** The first attempt is cancelled while it waits for the rate limiter. *)
Definition env_cancelled : env unit unit :=
  {| sem_enter := Ret tt;
     rate_acquire := fun _ => Raise CancelledError;
     get_artwork_data := fun _ _ => Ret (Some tt);
     transform_data := fun _ => Ret (Some tt);
     add_metadata := fun d => d;
     update_one := fun _ _ => Ret tt;
     backoff_sleep := fun _ => Ret tt |}.

(** A source that discovers nothing. *)
Definition empty_crawler : Crawler :=
  {| init_session := Ret tt; get_artwork_ids := Ret [] |}.

(** A schedule that lets two workers take what they find, one after the
    other. *)
Definition two_workers : list sched :=
  [Run 0%nat; Run 1%nat; Run 0%nat; Run 1%nat; Run 0%nat; Run 0%nat].

(** Two sources limited to two calls per second. *)
Definition two_sources : Limiter.RateLimiter :=
  Limiter.configured [("MetCrawler", 2, 1%Q); ("LouvreCrawler", 2, 1%Q)].

End Scenarios.

(** ** Python [str] operations used by the adapters

    Strings are taken as the sequences of bytes of their UTF-8 encoding; the
    separators searched for below are ASCII, and searching for an ASCII
    string gives the same positions in the text and in its encoding. *)
Module Str.

Local Open Scope string_scope.

(** [needle in s]. *)
Fixpoint contains (needle s : string) : bool :=
  String.prefix needle s ||
  match s with
  | EmptyString => false
  | String _ s' => contains needle s'
  end.

(** [s.split(sep)[-1]] for a non-empty [sep]: the occurrences of [sep] are
    found from left to right without overlap, and the result is what follows
    the last of them (all of [s] if there is none).  [skip] counts the
    characters of the occurrence being passed over, [piece] is what has been
    read since the last occurrence. *)
Fixpoint split_last_from (sep : string) (skip : nat) (piece s : string)
  : string :=
  match s with
  | EmptyString => piece
  | String c s' =>
      match skip with
      | S k => split_last_from sep k piece s'
      | O =>
          if String.prefix sep s
          then split_last_from sep (String.length sep - 1) "" s'
          else split_last_from sep 0 (piece ++ String c "") s'
      end
  end.

Definition split_last (sep s : string) : string :=
  split_last_from sep 0 "" s.

(** [s.replace(old, new)] for a non-empty [old]: again the occurrences are
    found from left to right without overlap. *)
Fixpoint replace_from (old new : string) (skip : nat) (s : string) : string :=
  match s with
  | EmptyString => ""
  | String c s' =>
      match skip with
      | S k => replace_from old new k s'
      | O =>
          if String.prefix old s
          then new ++ replace_from old new (String.length old - 1) s'
          else String c (replace_from old new 0 s')
      end
  end.

Definition replace (old new s : string) : string :=
  replace_from old new 0 s.

End Str.

(** ** HTTP requests of the adapters: [_make_request] under
       [backoff.on_exception(backoff.expo, aiohttp.ClientError, max_tries=5)] *)
Module Http.

(** An exception as the decorator sees it: an [aiohttp.ClientError], which
    it retries, or anything else, which it lets through. *)
Inductive error : Type :=
| ClientError (msg : string)
| NotClientError (e : exc).

(** The same exception as the callers see it; [aiohttp.ClientError] derives
    from [Exception]. *)
Definition to_exc (x : error) : exc :=
  match x with
  | ClientError msg => OtherError msg
  | NotClientError e => e
  end.

Inductive result (A : Type) : Type :=
| Ok (a : A)
| Err (x : error).
Arguments Ok {A} a.
Arguments Err {A} x.

(** What happens to one [session.get(url)]: it raises before a response
    arrives, or a response arrives with a status, and reading its payload
    gives [body]. *)
Inductive exchange (B : Type) : Type :=
| NoResponse (x : error)
| Response (status : Z) (body : result B).
Arguments NoResponse {B} x.
Arguments Response {B} status body.

(** What a fetch does, in program order. *)
Inductive event : Type :=
| Get (url : string)         (* [self.session.get(url)] *)
| LogNotFound                (* [logger.warning] in [_make_request] *)
| Wait                       (* [asyncio.sleep] between two tries *)
| LogNoData                  (* [logger.warning] in [get_artwork_data] *)
| LogFetchError.             (* [logger.error] in the [except] clause *)

(** [response.raise_for_status()]. *)
Definition raise_for_status (status : Z) : result unit :=
  if 400 <=? status then Err (ClientError "ClientResponseError") else Ok tt.

Definition max_tries : nat := 5.

Section Backoff.

Context {A : Type}.

(** The decorated coroutine on its try number [tries] (from 0), and the
    sleep that follows that try when it is retried. *)
Variable target : nat -> list event * result A.
Variable sleep : nat -> res unit.

(** The retry loop of the decorator, with [remaining] further tries
    allowed. *)
Fixpoint retry (remaining tries : nat) : list event * result A :=
  let '(tr, r) := target tries in
  match r with
  | Ok a => (tr, Ok a)
  | Err (NotClientError e) => (tr, Err (NotClientError e))
  | Err (ClientError msg) =>
      match remaining with
      | O => (tr, Err (ClientError msg))
      | S remaining' =>
          match sleep tries with
          | Raise e => (tr ++ [Wait], Err (NotClientError e))
          | Ret _ =>
              let '(tr', r') := retry remaining' (S tries) in
              (tr ++ Wait :: tr', r')
          end
      end
  end.

Definition on_exception : list event * result A :=
  retry (max_tries - 1) 0.

End Backoff.

(** The [except Exception] clause of the fetching methods: log and
    re-raise. *)
Definition reraise {A} (tr : list event) (e : exc) : list event * res A :=
  if is_Exception e then (tr ++ [LogFetchError], Raise e) else (tr, Raise e).

Definition gets (tr : list event) : nat :=
  sum_list_with (fun ev => match ev with Get _ => 1 | _ => 0 end)%nat tr.
Definition waits (tr : list event) : nat :=
  sum_list_with (fun ev => match ev with Wait => 1 | _ => 0 end)%nat tr.

End Http.

(** ** The Met adapter: requests *)
Module Met.
Import Http.

Definition BASE_URL : string :=
  "https://collectionapi.metmuseum.org/public/collection/v1/".

Section Requests.

(** A decoded JSON payload other than [null]; [response.json()] gives
    [None] for the payload [null]. *)
Context {J : Type}.

Variable sleep : nat -> res unit.

(** The body of [MetCrawler._make_request]: one try. *)
Definition request (url : string) (x : exchange (option J))
  : list event * result (option J) :=
  match x with
  | NoResponse e => ([Get url], Err e)
  | Response status body =>
      if status =? 404 then ([Get url; LogNotFound], Ok None)
      else
        match raise_for_status status with
        | Err e => ([Get url], Err e)
        | Ok _ => ([Get url], body)
        end
  end.

(** [MetCrawler._make_request]: try number [k] is answered by
    [answers k]. *)
Definition _make_request (url : string) (answers : nat -> exchange (option J))
  : list event * result (option J) :=
  on_exception (fun tries => request url (answers tries)) sleep.

(** [MetCrawler.get_artwork_data]. *)
Definition get_artwork_data (artwork_id : string)
    (answers : nat -> exchange (option J)) : list event * res (option J) :=
  match _make_request (BASE_URL +:+ "objects/" +:+ artwork_id) answers with
  | (tr, Ok None) => (tr ++ [LogNoData], Ret None)
  | (tr, Ok (Some data)) => (tr, Ret (Some data))
  | (tr, Err x) => reraise tr (to_exc x)
  end.

(** The list comprehension over [response.get("objectIDs", [])] on a
    payload that is not [None]. *)
Variable object_ids : J -> res (list string).

(** [MetCrawler.get_artwork_ids]; [None] has no method [get]. *)
Definition get_artwork_ids (answers : nat -> exchange (option J))
  : list event * res (list string) :=
  match _make_request (BASE_URL +:+ "objects") answers with
  | (tr, Ok None) => reraise tr (OtherError "AttributeError")
  | (tr, Ok (Some response)) =>
      match object_ids response with
      | Ret ids => (tr, Ret ids)
      | Raise e => reraise tr e
      end
  | (tr, Err x) => reraise tr (to_exc x)
  end.

End Requests.

End Met.

(** ** The Louvre adapter: discovery through the sitemaps, requests *)
Module Louvre.

Definition SITEMAP_URL : string := "https://collections.louvre.fr/sitemap.xml".

(** The path segment that marks the address of an artwork. *)
Definition ark : string := "/ark:/53355/".

(** [url.text.split('/ark:/53355/')[-1].replace('.json', '')]. *)
Definition artwork_id_of (text : string) : string :=
  Str.replace ".json" "" (Str.split_last ark text).

(** The address that [get_artwork_data] requests for an identifier. *)
Definition artwork_url (artwork_id : string) : string :=
  "https://collections.louvre.fr/ark:/53355/" +:+ artwork_id +:+ ".json".

(** The inner loop of [get_artwork_ids] over the [loc] elements of one
    sitemap, appending to [artwork_ids].  The text of an empty element is
    [None], and [in] raises [TypeError] on it; what was appended before
    stays in the list. *)
Fixpoint scan (locs : list (option string)) (artwork_ids : list string)
  : list string * res unit :=
  match locs with
  | [] => (artwork_ids, Ret tt)
  | None :: _ => (artwork_ids, Raise (OtherError "TypeError"))
  | Some text :: rest =>
      if Str.contains ark text
      then scan rest (artwork_ids ++ [artwork_id_of text])
      else scan rest artwork_ids
  end.

(** What discovery logs. *)
Inductive event : Type :=
| Processing (sitemap_url : option string)   (* [logger.info], per sitemap *)
| LogError (sitemap_url : option string).    (* [logger.error] in [except] *)

Section Discovery.

(** [fetch k url]: what [_make_request(url)] followed by [ET.fromstring]
    and [findall('.//ns:loc')] gives when it is the [k]-th request of the
    discovery: the texts of the [loc] elements, or the exception raised on
    the way. *)
Variable fetch : nat -> option string -> res (list (option string)).

(** The loop over the sitemaps of the index; [k] numbers the request. *)
Fixpoint sitemaps (k : nat) (urls : list (option string))
    (artwork_ids : list string) : list event * res (list string) :=
  match urls with
  | [] => ([], Ret artwork_ids)
  | sitemap_url :: rest =>
      match fetch k sitemap_url with
      | Raise e =>
          if is_Exception e then
            let '(tr, r) := sitemaps (S k) rest artwork_ids in
            (Processing sitemap_url :: LogError sitemap_url :: tr, r)
          else ([Processing sitemap_url], Raise e)
      | Ret locs =>
          match scan locs artwork_ids with
          | (artwork_ids', Ret _) =>
              let '(tr, r) := sitemaps (S k) rest artwork_ids' in
              (Processing sitemap_url :: tr, r)
          | (artwork_ids', Raise e) =>
              if is_Exception e then
                let '(tr, r) := sitemaps (S k) rest artwork_ids' in
                (Processing sitemap_url :: LogError sitemap_url :: tr, r)
              else ([Processing sitemap_url], Raise e)
          end
      end
  end.

(** [LouvreCrawler.get_artwork_ids]. *)
Definition get_artwork_ids : list event * res (list string) :=
  match fetch 0 (Some SITEMAP_URL) with
  | Raise e => ([], Raise e)
  | Ret urls => sitemaps 1 urls []
  end.

(** The identifiers that the [k]-th request contributes. *)
Definition found (k : nat) (sitemap_url : option string) : list string :=
  match fetch k sitemap_url with
  | Ret locs => fst (scan locs [])
  | Raise _ => []
  end.

(** Does the [k]-th request end in an error that is logged? *)
Definition failed (k : nat) (sitemap_url : option string) : bool :=
  match fetch k sitemap_url with
  | Ret locs =>
      match snd (scan locs []) with
      | Ret _ => false
      | Raise _ => true
      end
  | Raise _ => true
  end.

End Discovery.

Section Requests.
Import Http.

Context {J : Type}.

Variable sleep : nat -> res unit.

(** The body of [LouvreCrawler._make_request]: one try. *)
Definition request (url : string) (x : exchange string)
  : list Http.event * result string :=
  match x with
  | NoResponse e => ([Get url], Err e)
  | Response status body =>
      match raise_for_status status with
      | Err e => ([Get url], Err e)
      | Ok _ => ([Get url], body)
      end
  end.

(** [LouvreCrawler._make_request]. *)
Definition _make_request (url : string) (answers : nat -> exchange string)
  : list Http.event * result string :=
  on_exception (fun tries => request url (answers tries)) sleep.

(** [json.loads]; it gives [None] for the text [null]. *)
Variable loads : string -> res (option J).

(** [LouvreCrawler.get_artwork_data]. *)
Definition get_artwork_data (artwork_id : string)
    (answers : nat -> exchange string) : list Http.event * res (option J) :=
  match _make_request (artwork_url artwork_id) answers with
  | (tr, Ok json_data) =>
      match loads json_data with
      | Ret data => (tr, Ret data)
      | Raise e => reraise tr e
      end
  | (tr, Err x) => reraise tr (to_exc x)
  end.

End Requests.

Definition errors (tr : list event) : nat :=
  sum_list_with (fun ev => match ev with LogError _ => 1 | _ => 0 end)%nat tr.

End Louvre.

(** ** Concrete servers used in the examples *)
Module Fixtures.
Import Item.

(** An index of three sitemaps: the first lists two artworks around an
    empty element, the second cannot be downloaded, the third lists a page
    that is no artwork and one artwork. *)
Definition sitemap_fetch (k : nat) (url : option string)
  : res (list (option string)) :=
  match k with
  | 0%nat => Ret [Some "https://collections.louvre.fr/sitemap1.xml";
                  Some "https://collections.louvre.fr/sitemap2.xml";
                  Some "https://collections.louvre.fr/sitemap3.xml"]
  | 1%nat => Ret [Some (Louvre.artwork_url "cl010062370"); None;
                  Some (Louvre.artwork_url "cl010065872")]
  | 2%nat => Raise (OtherError "ClientResponseError")
  | _ => Ret [Some "https://collections.louvre.fr/en/";
              Some "https://collections.louvre.fr/ark:/53355/cl010066723"]
  end.

(** The same index when the crawl is cancelled during the second
    sitemap. *)
Definition cancelled_fetch (k : nat) (url : option string)
  : res (list (option string)) :=
  match k with
  | 2%nat => Raise CancelledError
  | _ => sitemap_fetch k url
  end.

(** Sleeps that nothing interrupts. *)
Definition sleep_ok (tries : nat) : res unit := Ret tt.

(** A Met server that drops the first connection and answers the second. *)
Definition flaky_server (tries : nat) : Http.exchange (option unit) :=
  match tries with
  | 0%nat => Http.NoResponse (Http.ClientError "ServerDisconnectedError")
  | _ => Http.Response 200 (Http.Ok (Some tt))
  end.

(** A Met server that does not have what it is asked for. *)
Definition met_not_found (tries : nat) : Http.exchange (option unit) :=
  Http.Response 404 (Http.Ok None).

(** A Louvre server likewise, on every attempt. *)
Definition louvre_not_found (attempt : Z) (tries : nat)
  : Http.exchange string :=
  Http.Response 404 (Http.Ok "Not Found").

(** The collaborators of a processing call whose fetch goes to the Met
    adapter, and to the Louvre adapter. *)
Definition met_env : env unit unit :=
  {| sem_enter := Ret tt;
     rate_acquire := fun _ => Ret tt;
     get_artwork_data := fun artwork_id _ =>
       snd (Met.get_artwork_data sleep_ok artwork_id met_not_found);
     transform_data := fun _ => Ret (Some tt);
     add_metadata := fun d => d;
     update_one := fun _ _ => Ret tt;
     backoff_sleep := fun _ => Ret tt |}.

Definition louvre_env : env unit unit :=
  {| sem_enter := Ret tt;
     rate_acquire := fun _ => Ret tt;
     get_artwork_data := fun artwork_id attempt =>
       snd (Louvre.get_artwork_data sleep_ok (fun _ => Ret (Some tt))
              artwork_id (louvre_not_found attempt));
     transform_data := fun _ => Ret (Some tt);
     add_metadata := fun d => d;
     update_one := fun _ _ => Ret tt;
     backoff_sleep := fun _ => Ret tt |}.

(** The Met adapter as the controller sees it, on that server. *)
Definition met_crawler : Controller.Crawler :=
  {| Controller.init_session := Ret tt;
     Controller.get_artwork_ids :=
       snd (Met.get_artwork_ids sleep_ok (fun _ : unit => Ret [])
              met_not_found) |}.

(** Three calls of [acquire] made at the same instant. *)
Definition three_at_once : list Limiter.sched :=
  [Limiter.Resume 0 0; Limiter.Resume 1 0; Limiter.Resume 2 0].

End Fixtures.

(** * Properties *)

(** ** Item processing *)
Section ItemFacts.
Import Item.

Context {Raw Data : Type}.
Variable E : env Raw Data.
Variable max_retries : Z.
Variable artwork_id : string.

Local Abbreviation body := (try_body E artwork_id).
Local Abbreviation loop := (attempt_loop E max_retries artwork_id).
Local Abbreviation process := (process_artwork E max_retries artwork_id).

Lemma retries_nil a : retries E artwork_id a 0 = [].
Proof. unfold retries. by rewrite seqZ_nil. Qed.

Lemma retries_cons a k :
  0 < k ->
  retries E artwork_id a k
  = fst (body a) ++ [Sleep (2 ^ a)] ++ retries E artwork_id (Z.succ a) (Z.pred k).
Proof.
  intros Hk. unfold retries. rewrite seqZ_cons by done. simpl.
  by rewrite <- app_assoc.
Qed.

(** A returning attempt ends the loop. *)
Lemma loop_returns a rest b :
  snd (body a) = Ret b ->
  loop (a :: rest) = (fst (body a), Ret (Some b)).
Proof.
  intros H. simpl. destruct (body a) as [tr r]; simpl in *. by subst r.
Qed.

(** The last attempt re-raises. *)
Lemma loop_last_raises a rest e :
  snd (body a) = Raise e -> is_Exception e = true -> a = max_retries - 1 ->
  loop (a :: rest) = (fst (body a), Raise e).
Proof.
  intros H He Ha. simpl. destruct (body a) as [tr r]; simpl in *. subst r.
  rewrite He. by rewrite (proj2 (Z.eqb_eq _ _) Ha).
Qed.

(** What [except Exception] does not catch leaves the loop at once. *)
Lemma loop_escapes a rest e :
  snd (body a) = Raise e -> is_Exception e = false ->
  loop (a :: rest) = (fst (body a), Raise e).
Proof.
  intros H He. simpl. destruct (body a) as [tr r]; simpl in *. subst r.
  by rewrite He.
Qed.

(** A failing attempt that is not the last one sleeps and goes on. *)
Lemma loop_retries a rest :
  fails E artwork_id a -> a <> max_retries - 1 ->
  backoff_sleep E a = Ret tt ->
  loop (a :: rest)
  = (fst (body a) ++ [Sleep (2 ^ a)] ++ fst (loop rest), snd (loop rest)).
Proof.
  intros (e & H & He) Ha Hs. simpl.
  destruct (body a) as [tr r]; simpl in *. subst r.
  rewrite He. rewrite (proj2 (Z.eqb_neq _ _) Ha).
  unfold bind, emit. rewrite Hs.
  by destruct (attempt_loop E max_retries artwork_id rest).
Qed.

(** [k] failing attempts in a row, none of them the last. *)
Lemma loop_fail_prefix (k : nat) : forall a n,
  Z.of_nat k <= n ->
  (forall j, a <= j < a + Z.of_nat k ->
     fails E artwork_id j /\ j <> max_retries - 1 /\ backoff_sleep E j = Ret tt) ->
  loop (seqZ a n)
  = (retries E artwork_id a (Z.of_nat k)
       ++ fst (loop (seqZ (a + Z.of_nat k) (n - Z.of_nat k))),
     snd (loop (seqZ (a + Z.of_nat k) (n - Z.of_nat k)))).
Proof.
  induction k as [|k IH]; intros a n Hn Hf.
  - rewrite retries_nil. simpl. rewrite Z.add_0_r, Z.sub_0_r.
    by destruct (loop (seqZ a n)).
  - rewrite seqZ_cons by lia.
    destruct (Hf a) as (Hfa & Hla & Hsa); [lia|].
    rewrite loop_retries by done.
    rewrite (IH (Z.succ a) (Z.pred n)) by (try lia; intros; apply Hf; lia).
    rewrite (retries_cons a (Z.of_nat (S k))) by lia.
    replace (Z.pred (Z.of_nat (S k))) with (Z.of_nat k) by lia.
    replace (Z.succ a + Z.of_nat k) with (a + Z.of_nat (S k)) by lia.
    replace (Z.pred n - Z.of_nat k) with (n - Z.of_nat (S k)) by lia.
    simpl. by rewrite <- !app_assoc.
Qed.

Lemma sleeps_app tr1 tr2 : sleeps (tr1 ++ tr2) = sleeps tr1 ++ sleeps tr2.
Proof. unfold sleeps. by rewrite flat_map_app. Qed.

Lemma attempts_started_app tr1 tr2 :
  attempts_started (tr1 ++ tr2) = (attempts_started tr1 + attempts_started tr2)%nat.
Proof. unfold attempts_started. by rewrite filter_app, length_app. Qed.

(** One attempt: one rate-limiter call, no sleep, no semaphore operation. *)
Lemma body_shape a :
  sleeps (fst (body a)) = [] /\ attempts_started (fst (body a)) = 1%nat /\
  (forall ev, ev ∈ fst (body a) -> ev <> SemAcquire /\ ev <> SemRelease
                                   /\ forall d, ev <> Sleep d).
Proof.
  unfold try_body, save_artwork, bind, emit, ret.
  destruct (rate_acquire E a); simpl;
    [destruct (get_artwork_data E artwork_id a) as [[raw|]|]; simpl;
     [destruct (transform_data E raw) as [[data|]|]; simpl;
      [destruct (update_one E (add_metadata E data) a) as [|e]; simpl;
       [|destruct (is_DuplicateKeyError e);
         [|destruct (is_Exception e)]; simpl]| |]| |]|];
    (split; [done|split; [done|]]);
    intros ev Hev; repeat (apply elem_of_cons in Hev as [->|Hev]; [done|]);
    by apply elem_of_nil in Hev.
Qed.

Lemma retries_sleeps (k : nat) : forall a,
  sleeps (retries E artwork_id a (Z.of_nat k))
  = (fun j => 2 ^ j) <$> seqZ a (Z.of_nat k).
Proof.
  induction k as [|k IH]; intros a.
  - by rewrite retries_nil, seqZ_nil.
  - rewrite retries_cons, seqZ_cons by lia.
    replace (Z.pred (Z.of_nat (S k))) with (Z.of_nat k) by lia.
    rewrite !sleeps_app, (proj1 (body_shape a)), IH. done.
Qed.

(** The loop makes at most one attempt per element of its range. *)
Lemma loop_attempts_bounded l :
  (attempts_started (fst (loop l)) <= length l)%nat.
Proof.
  induction l as [|a l IH]; simpl; [done|].
  pose proof (body_shape a) as (_ & Hone & _).
  destruct (body a) as [tr [b|e]]; simpl in *; [lia|].
  destruct (is_Exception e); simpl; [|lia].
  destruct (a =? max_retries - 1); simpl; [lia|].
  unfold bind, emit.
  destruct (backoff_sleep E a); simpl.
  - destruct (attempt_loop E max_retries artwork_id l) as [tr' r']; simpl in *.
    rewrite !attempts_started_app, Hone.
    change (attempts_started (Sleep (2 ^ a) :: tr')) with (attempts_started tr').
    lia.
  - rewrite !attempts_started_app, Hone.
    change (attempts_started [Sleep (2 ^ a)]) with 0%nat. lia.
Qed.

Lemma process_attempts_bounded :
  Z.of_nat (attempts_started (fst process)) <= Z.max 0 max_retries.
Proof.
  unfold process_artwork. destruct (sem_enter E); simpl;
    [|change (attempts_started []) with 0%nat; lia].
  pose proof (loop_attempts_bounded (seqZ 0 max_retries)) as H.
  rewrite length_seqZ in H.
  destruct (attempt_loop E max_retries artwork_id (seqZ 0 max_retries))
    as [tr r]; simpl in *.
  change (SemAcquire :: tr ++ [SemRelease])
    with ([SemAcquire] ++ tr ++ [SemRelease]).
  rewrite !attempts_started_app.
  change (attempts_started [SemAcquire]) with 0%nat.
  change (attempts_started [SemRelease]) with 0%nat. lia.
Qed.

(** The loop never touches the semaphore. *)
Lemma loop_no_sem l ev :
  ev ∈ fst (loop l) -> ev <> SemAcquire /\ ev <> SemRelease.
Proof.
  induction l as [|a l IH]; simpl; [by intros ?%elem_of_nil|].
  pose proof (body_shape a) as (_ & _ & Hb).
  assert (forall ev', ev' ∈ fst (body a) ->
            ev' <> SemAcquire /\ ev' <> SemRelease) as Hb'
    by (intros ev' H'; destruct (Hb ev' H') as (? & ? & _); done).
  clear Hb.
  destruct (body a) as [tr [b|e]]; simpl in *; [by apply Hb'|].
  destruct (is_Exception e); simpl; [|by apply Hb'].
  destruct (a =? max_retries - 1); simpl; [by apply Hb'|].
  unfold bind, emit.
  destruct (backoff_sleep E a); simpl.
  - destruct (attempt_loop E max_retries artwork_id l) as [tr' r']; simpl in *.
    rewrite elem_of_app, elem_of_cons.
    intros [H|[->|H]]; [by apply Hb'|done|by apply IH].
  - rewrite elem_of_app, list_elem_of_singleton.
    intros [H| ->]; [by apply Hb'|done].
Qed.

Lemma retries_attempts (k : nat) : forall a,
  attempts_started (retries E artwork_id a (Z.of_nat k)) = k.
Proof.
  induction k as [|k IH]; intros a.
  - by rewrite retries_nil.
  - rewrite retries_cons by lia.
    replace (Z.pred (Z.of_nat (S k))) with (Z.of_nat k) by lia.
    rewrite !attempts_started_app, (proj1 (proj2 (body_shape a))), IH. done.
Qed.

(** After [k] failed attempts the call continues with attempt [k]. *)
Lemma process_prefix k :
  0 <= k < max_retries -> sem_enter E = Ret tt ->
  (forall j, 0 <= j < k -> fails E artwork_id j /\ backoff_sleep E j = Ret tt) ->
  process
  = (SemAcquire ::
       (retries E artwork_id 0 k
          ++ fst (loop (k :: seqZ (Z.succ k) (Z.pred (max_retries - k)))))
       ++ [SemRelease],
     snd (loop (k :: seqZ (Z.succ k) (Z.pred (max_retries - k))))).
Proof.
  intros Hk Hsem Hf. unfold process_artwork. rewrite Hsem.
  rewrite (loop_fail_prefix (Z.to_nat k) 0 max_retries); [|lia|].
  - rewrite Z2Nat.id by lia. simpl.
    rewrite (seqZ_cons k) by lia. done.
  - intros j Hj. destruct (Hf j) as [? ?]; [lia|]. repeat split; [done|lia|done].
Qed.

End ItemFacts.

Section ItemClaims.
Import Item.

Context {Raw Data : Type}.
Variable E : env Raw Data.
Variable max_retries : Z.
Variable artwork_id : string.

Local Abbreviation body := (try_body E artwork_id).
Local Abbreviation process := (process_artwork E max_retries artwork_id).
Local Abbreviation prefix_fails k :=
  (forall j, 0 <= j < k ->
     fails E artwork_id j /\ backoff_sleep E j = Ret tt).

(** The worker counts a returning task as successful, whatever it returns. *)
Lemma worker_counts_return shutdown st (b : option bool) :
  fst (Pool.resume_task shutdown st (Ret b))
  = Pool.incr_total_processed (Pool.incr_successful st).
Proof.
  unfold Pool.resume_task.
  destruct (_ =? 0); [destruct (Pool.log_progress _)|]; done.
Qed.

(** The worker counts a task that raised an [Exception] as failed. *)
Lemma worker_counts_exception shutdown st e :
  is_Exception e = true ->
  fst (Pool.resume_task shutdown st (@Raise (option bool) e))
  = Pool.incr_total_processed (Pool.incr_failed st).
Proof.
  intros He. unfold Pool.resume_task. rewrite He.
  destruct (_ =? 0); [destruct (Pool.log_progress _)|]; done.
Qed.

Lemma process_trace_sleeps k tr :
  0 <= k -> sleeps tr = [] ->
  sleeps (SemAcquire :: (retries E artwork_id 0 k ++ tr) ++ [SemRelease])
  = (fun j => 2 ^ j) <$> seqZ 0 k.
Proof.
  intros Hk Htr.
  change (SemAcquire :: (retries E artwork_id 0 k ++ tr) ++ [SemRelease])
    with ([SemAcquire] ++ (retries E artwork_id 0 k ++ tr) ++ [SemRelease]).
  rewrite !sleeps_app, Htr.
  rewrite <- (Z2Nat.id k) by done. rewrite retries_sleeps.
  change (sleeps [SemAcquire]) with (@nil Z).
  change (sleeps [SemRelease]) with (@nil Z).
  by rewrite !app_nil_r.
Qed.

(** C3: item processing makes at most [max_retries] attempts, hence at
    most 3 with the default.  When attempts [0 .. k-1] have failed, the call
    has slept [2^0, ..., 2^(k-1)] seconds, one sleep after each of them; if
    attempt [k] returns the call returns, and if attempt [k] is the last one
    and raises, that exception reaches the worker, which records the item as
    failed: [failed] and [total_processed] grow by one and [successful] is
    unchanged. *)
Theorem C3_retry_with_backoff (k : Z) :
  0 <= k < max_retries -> sem_enter E = Ret tt -> prefix_fails k ->
  let tr := SemAcquire :: (retries E artwork_id 0 k ++ fst (body k))
                       ++ [SemRelease] in
  Z.of_nat (attempts_started
              (fst (process_artwork E default_max_retries artwork_id))) <= 3
  /\ Z.of_nat (attempts_started (fst process)) <= max_retries
  /\ sleeps tr = (fun j => 2 ^ j) <$> seqZ 0 k
  /\ (forall b, snd (body k) = Ret b -> process = (tr, Ret (Some b)))
  /\ (forall e, snd (body k) = Raise e -> is_Exception e = true ->
        k = max_retries - 1 ->
        process = (tr, Raise e)
        /\ forall shutdown st,
             let st' := fst (Pool.resume_task shutdown st (snd process)) in
             Pool.failed st' = Pool.failed st + 1
             /\ Pool.successful st' = Pool.successful st
             /\ Pool.total_processed st' = Pool.total_processed st + 1).
Proof.
  intros Hk Hsem Hpre tr.
  split.
  { pose proof (process_attempts_bounded E default_max_retries artwork_id)
      as H. unfold default_max_retries in *. lia. }
  split.
  { pose proof (process_attempts_bounded E max_retries artwork_id). lia. }
  split.
  { apply process_trace_sleeps; [lia|]. apply body_shape. }
  pose proof (process_prefix E max_retries artwork_id k Hk Hsem Hpre) as Hp.
  split.
  - intros b Hb. rewrite Hp. by rewrite (loop_returns _ _ _ _ _ b).
  - intros e He Hexc Hlast.
    assert (process = (tr, Raise e)) as Heq.
    { rewrite Hp. by rewrite (loop_last_raises _ _ _ _ _ e). }
    split; [done|]. intros shutdown st st'. subst st'. rewrite Heq. cbn [snd].
    by rewrite worker_counts_exception.
Qed.

(** C2 (amended): when the fetch answers "not found", or the transform
    returns nothing, the call returns [False] at once: nothing is persisted
    in that attempt and no further attempt is made.  The worker does not
    look at the returned value: [failed] is unchanged and [successful] is
    incremented, as for a saved item. *)
Theorem C2_skip_counts_as_success (k : Z) :
  0 <= k < max_retries -> sem_enter E = Ret tt -> prefix_fails k ->
  rate_acquire E k = Ret tt ->
  (get_artwork_data E artwork_id k = Ret None
   \/ exists raw, get_artwork_data E artwork_id k = Ret (Some raw)
                  /\ transform_data E raw = Ret None) ->
  process = (SemAcquire :: (retries E artwork_id 0 k ++ fst (body k))
                        ++ [SemRelease], Ret (Some false))
  /\ (UpdateOne ∉ fst (body k))
  /\ attempts_started (fst process) = Z.to_nat (k + 1)
  /\ forall shutdown st,
       let st' := fst (Pool.resume_task shutdown st (snd process)) in
       Pool.failed st' = Pool.failed st
       /\ Pool.successful st' = Pool.successful st + 1
       /\ Pool.total_processed st' = Pool.total_processed st + 1.
Proof.
  intros Hk Hsem Hpre Hrate Hskip.
  assert (snd (body k) = Ret false /\ UpdateOne ∉ fst (body k)) as [Hb Hnp].
  { unfold try_body, bind, emit, ret. rewrite Hrate.
    destruct Hskip as [-> | (raw & -> & ->)]; simpl;
      (split; [done|]); intros H;
      repeat (apply elem_of_cons in H as [H|H]; [done|]);
      by apply elem_of_nil in H. }
  pose proof (process_prefix E max_retries artwork_id k Hk Hsem Hpre) as Hp.
  rewrite (loop_returns _ _ _ _ _ false) in Hp by done. simpl in Hp.
  split; [done|]. split; [done|]. split.
  - rewrite Hp. simpl.
    change (SemAcquire :: (retries E artwork_id 0 k ++ fst (body k))
              ++ [SemRelease])
      with ([SemAcquire] ++ (retries E artwork_id 0 k ++ fst (body k))
              ++ [SemRelease]).
    rewrite !attempts_started_app.
    rewrite <- (Z2Nat.id k) at 1 by lia. rewrite retries_attempts.
    rewrite (proj1 (proj2 (body_shape E artwork_id k))).
    change (attempts_started [SemAcquire]) with 0%nat.
    change (attempts_started [SemRelease]) with 0%nat. lia.
  - intros shutdown st st'. subst st'. rewrite Hp. cbn [snd].
    by rewrite worker_counts_return.
Qed.

(** C5 (amended): the semaphore is taken once, before the first
    rate-limiter call, and released once, when the call returns or raises;
    everything in between (every attempt and every backoff sleep) happens
    while it is held. *)
Theorem C5_semaphore_spans_call :
  sem_enter E = Ret tt ->
  exists inner,
    fst process = SemAcquire :: inner ++ [SemRelease]
    /\ (forall ev, ev ∈ inner -> ev <> SemAcquire /\ ev <> SemRelease)
    /\ sleeps inner = sleeps (fst process)
    /\ attempts_started inner = attempts_started (fst process).
Proof.
  intros Hsem. unfold process_artwork. rewrite Hsem.
  pose proof (loop_no_sem E max_retries artwork_id (seqZ 0 max_retries)) as H.
  destruct (attempt_loop E max_retries artwork_id (seqZ 0 max_retries))
    as [tr r]; simpl in *.
  exists tr. split; [done|]. split; [done|].
  change (SemAcquire :: tr ++ [SemRelease])
    with ([SemAcquire] ++ tr ++ [SemRelease]).
  rewrite !sleeps_app, !attempts_started_app. simpl.
  rewrite app_nil_r.
  change (attempts_started [SemRelease]) with 0%nat.
  change (attempts_started [SemAcquire]) with 0%nat.
  split; [done|lia].
Qed.

(** C9: a duplicate-key error from the upsert is caught by [save_artwork],
    which logs a warning and returns; the attempt then returns [True], no
    further attempt is made and the worker counts the item as successful:
    [successful] and [total_processed] grow by one and [failed] is
    unchanged.  Any other [Exception] from the upsert is logged and raised
    again, so that the attempt fails and the retry loop sees it. *)
Theorem C9_duplicate_key_is_success (k : Z) (raw : Raw) (data : Data) :
  0 <= k < max_retries -> sem_enter E = Ret tt -> prefix_fails k ->
  rate_acquire E k = Ret tt ->
  get_artwork_data E artwork_id k = Ret (Some raw) ->
  transform_data E raw = Ret (Some data) ->
  (update_one E (add_metadata E data) k = Raise DuplicateKeyError ->
     save_artwork E data k = ([UpdateOne; LogWarning], Ret tt)
     /\ process = (SemAcquire ::
                     (retries E artwork_id 0 k
                        ++ [RateAcquire; Fetch artwork_id; Transform;
                            UpdateOne; LogWarning])
                     ++ [SemRelease], Ret (Some true))
     /\ forall shutdown st,
          let st' := fst (Pool.resume_task shutdown st (snd process)) in
          Pool.successful st' = Pool.successful st + 1
          /\ Pool.failed st' = Pool.failed st
          /\ Pool.total_processed st' = Pool.total_processed st + 1)
  /\ (forall e, update_one E (add_metadata E data) k = Raise e ->
        is_Exception e = true -> e <> DuplicateKeyError ->
        save_artwork E data k = ([UpdateOne; LogError], Raise e)
        /\ body k = ([RateAcquire; Fetch artwork_id; Transform;
                      UpdateOne; LogError], Raise e)
        /\ fails E artwork_id k).
Proof.
  intros Hk Hsem Hpre Hrate Hget Htr. split.
  - intros Hdup.
    assert (save_artwork E data k = ([UpdateOne; LogWarning], Ret tt)) as Hs
      by (unfold save_artwork; by rewrite Hdup).
    assert (body k = ([RateAcquire; Fetch artwork_id; Transform;
                       UpdateOne; LogWarning], Ret true)) as Hb.
    { unfold try_body, bind, emit, ret. by rewrite Hrate, Hget, Htr, Hs. }
    pose proof (process_prefix E max_retries artwork_id k Hk Hsem Hpre) as Hp.
    rewrite (loop_returns _ _ _ _ _ true) in Hp by (by rewrite Hb).
    rewrite Hb in Hp. simpl in Hp.
    split; [done|]. split; [done|].
    intros shutdown st st'. subst st'. rewrite Hp. cbn [snd].
    by rewrite worker_counts_return.
  - intros e Hup He Hne.
    assert (save_artwork E data k = ([UpdateOne; LogError], Raise e)) as Hs.
    { unfold save_artwork. rewrite Hup, He. by destruct e. }
    assert (body k = ([RateAcquire; Fetch artwork_id; Transform;
                       UpdateOne; LogError], Raise e)) as Hb.
    { unfold try_body, bind, emit, ret. by rewrite Hrate, Hget, Htr, Hs. }
    split; [done|]. split; [done|].
    exists e. by rewrite Hb.
Qed.

End ItemClaims.

Section ItemExamples.
Import Item Examples.

Lemma flaky_prefix :
  forall j, 0 <= j < 2 ->
    fails env_flaky "a" j /\ backoff_sleep env_flaky j = Ret tt.
Proof.
  intros j Hj. assert (j = 0 \/ j = 1) as [-> | ->] by lia;
    (split; [eexists; split; reflexivity | reflexivity]).
Defined.

Lemma no_prefix {Raw Data} (E : env Raw Data) artwork_id :
  forall j, 0 <= j < 0 ->
    fails E artwork_id j /\ backoff_sleep E j = Ret tt.
Proof. intros j Hj. lia. Defined.

(** Two transient failures, then success: one success after sleeping 1 and
    then 2 seconds. *)
Lemma C3_retry_with_backoff_witness :
  process_artwork env_flaky 3 "a"
  = ([SemAcquire; RateAcquire; Fetch "a"; Sleep 1;
      RateAcquire; Fetch "a"; Sleep 2;
      RateAcquire; Fetch "a"; Transform; UpdateOne; SemRelease],
     Ret (Some true)).
Proof.
  destruct (C3_retry_with_backoff env_flaky 3 "a" 2)
    as (_ & _ & _ & Hret & _);
    [lia | reflexivity | exact flaky_prefix |].
  exact (Hret true eq_refl).
Defined.

(** Three failures in a row: the third one is raised, after sleeping 1 and
    then 2 seconds. *)
Example retries_exhausted :
  process_artwork env_down 3 "a"
  = ([SemAcquire; RateAcquire; Fetch "a"; Sleep 1;
      RateAcquire; Fetch "a"; Sleep 2;
      RateAcquire; Fetch "a"; SemRelease],
     Raise (OtherError "timeout")).
Proof. reflexivity. Qed.

Lemma C2_skip_counts_as_success_witness :
  process_artwork env_missing 3 "a"
  = ([SemAcquire; RateAcquire; Fetch "a"; SemRelease], Ret (Some false)).
Proof.
  destruct (C2_skip_counts_as_success env_missing 3 "a" 0) as (H & _);
    [lia | reflexivity | apply no_prefix | reflexivity
    | left; reflexivity |].
  exact H.
Defined.

(** The claim as stated fails: one worker, one identifier whose fetch
    answers "not found"; after the run [successful] is 1. *)
Lemma C2_skip_increments_successful :
  let p0 := Controller.make_pool (manager 1 None) 1 ["a"] in
  let p := Pool.run (process_artwork env_missing 3)
             [Pool.Run 0%nat; Pool.Run 0%nat; Pool.Run 0%nat; Pool.Run 0%nat]
             p0 in
  get_artwork_data env_missing "a" 0 = Ret None
  /\ Pool.all_exited p = true
  /\ Pool.successful (Pool.stats p) = 1
  /\ Pool.successful (Pool.stats p) <> Pool.successful (Pool.stats p0).
Proof. vm_compute. repeat split; discriminate. Qed.

Lemma C5_semaphore_spans_call_witness :
  exists inner,
    fst (process_artwork env_flaky 3 "a") = SemAcquire :: inner ++ [SemRelease]
    /\ (forall ev, ev ∈ inner -> ev <> SemAcquire /\ ev <> SemRelease)
    /\ sleeps inner = sleeps (fst (process_artwork env_flaky 3 "a"))
    /\ attempts_started inner
        = attempts_started (fst (process_artwork env_flaky 3 "a")).
Proof. apply (C5_semaphore_spans_call env_flaky 3 "a"). reflexivity. Defined.

(** The claim as stated fails: with two transient failures the semaphore is
    taken once for three attempts and both backoff sleeps happen while it is
    held. *)
Lemma C5_semaphore_held_across_sleeps :
  let tr := fst (process_artwork env_flaky 3 "a") in
  sleeps_while_held false tr = true
  /\ sem_acquisitions tr = 1%nat
  /\ attempts_started tr = 3%nat
  /\ sleeps tr = [1; 2].
Proof. vm_compute. done. Qed.

Lemma C9_duplicate_key_is_success_witness :
  process_artwork env_duplicate 3 "a"
  = ([SemAcquire; RateAcquire; Fetch "a"; Transform; UpdateOne; LogWarning;
      SemRelease], Ret (Some true)).
Proof.
  destruct (C9_duplicate_key_is_success env_duplicate 3 "a" 0 tt tt)
    as (H & _);
    [lia | reflexivity | apply no_prefix | reflexivity | reflexivity
    | reflexivity |].
  destruct (H eq_refl) as (_ & Hp & _). exact Hp.
Defined.

End ItemExamples.

(** ** The worker pool *)
Section PoolFacts.
Import Pool.

Variable process : string -> Item.M (option bool).


Lemma worker_flag i s :
  shutdown_event (worker process i s) = shutdown_event s.
Proof.
  unfold worker. destruct (workers s !! i) as [w|]; [|done].
  destruct (w_pc w); try done.
  - by destruct (w_cancel w).
  - destruct (w_cancel w); by destruct (queue s).
  - by destruct (resume_task _ _ _).
Qed.

Lemma worker_length i s :
  length (workers (worker process i s)) = length (workers s).
Proof.
  unfold worker. destruct (workers s !! i) as [w|]; [|done].
  destruct (w_pc w); try done.
  - destruct (w_cancel w); simpl; by rewrite length_insert.
  - destruct (w_cancel w); destruct (queue s); simpl;
      by rewrite length_insert.
  - destruct (resume_task _ _ _). simpl. by rewrite length_insert.
Qed.


Lemma sum_list_with_insert {A} (f : A -> nat) (l : list A) : forall i x y,
  l !! i = Some x ->
  (sum_list_with f (<[i:=y]> l) + f x = sum_list_with f l + f y)%nat.
Proof.
  induction l as [|a l IH]; intros [|i] x y Hi; simplify_eq/=; [lia|].
  specialize (IH _ _ y Hi). lia.
Qed.

Lemma sum_list_with_lookup {A} (f : A -> nat) (l : list A) i x :
  l !! i = Some x -> (f x <= sum_list_with f l)%nat.
Proof.
  revert i. induction l as [|a l IH]; intros [|i] Hi; simplify_eq/=; [lia|].
  specialize (IH _ Hi). lia.
Qed.

(** When nothing is cancelled and the museum has artworks, a finished task
    is counted once and the worker goes back to the queue. *)
Lemma resume_task_normal st r :
  total_artworks st <> 0 ->
  (forall e, r = Raise e -> is_Exception e = true) ->
  exists st',
    resume_task false st r = (st', Dequeuing)
    /\ total_processed st' = total_processed st + 1
    /\ successful st' + failed st' = successful st + failed st + 1
    /\ total_artworks st' = total_artworks st.
Proof.
  intros Htot Hr. unfold resume_task, log_progress.
  destruct r as [b|e].
  - exists (incr_total_processed (incr_successful st)). simpl.
    rewrite (proj2 (Z.eqb_neq _ _) Htot).
    split; [by destruct (_ =? 0)|]. lia.
  - rewrite (Hr e eq_refl).
    exists (incr_total_processed (incr_failed st)). simpl.
    rewrite (proj2 (Z.eqb_neq _ _) Htot).
    split; [by destruct (_ =? 0)|]. lia.
Qed.

Lemma live_insert ws i w :
  ws !! i = Some w -> forall w',
  (live (<[i:=w']> ws) + (if exited w then 0 else 1)
   = live ws + (if exited w' then 0 else 1))%nat.
Proof.
  intros H w'. unfold live.
  exact (sum_list_with_insert (fun w => if exited w then 0 else 1)%nat
           ws i w w' H).
Qed.

Lemma busy_insert ws i w :
  ws !! i = Some w -> forall w',
  (busy (<[i:=w']> ws) + match w_pc w with Processing _ => 1 | _ => 0 end
   = busy ws + match w_pc w' with Processing _ => 1 | _ => 0 end)%nat.
Proof.
  intros H w'. unfold busy.
  exact (sum_list_with_insert
           (fun w => match w_pc w with Processing _ => 1 | _ => 0 end)%nat
           ws i w w' H).
Qed.

Lemma pending_insert ws i w :
  ws !! i = Some w -> forall w',
  (pending (<[i:=w']> ws) + match w_pc w with Dequeuing => 1 | _ => 0 end
   = pending ws + match w_pc w' with Dequeuing => 1 | _ => 0 end)%nat.
Proof.
  intros H w'. unfold pending.
  exact (sum_list_with_insert
           (fun w => match w_pc w with Dequeuing => 1 | _ => 0 end)%nat
           ws i w w' H).
Qed.

(** With the event set, a finished task sends the worker out of its
    loop. *)
Lemma resume_task_stops st r : snd (resume_task true st r) = Exited.
Proof.
  unfold resume_task, loop_head.
  destruct r as [b|e]; [|destruct (is_Exception e)]; simpl;
    repeat match goal with
           | |- context [if ?c then _ else _] => destruct c; simpl
           | |- context [match ?c with Ret _ => _ | Raise _ => _ end] =>
               destruct c; simpl
           end; done.
Qed.

(** With the event set, a scheduled worker does not come to the dequeue;
    it takes an entry from the queue only if it was suspended at the
    dequeue, which it then leaves. *)
Lemma stopped_worker i s :
  shutdown_event s = true -> Forall stopped (workers s) ->
  let s' := worker process i s in
  Forall stopped (workers s')
  /\ (exists taken,
        queue s = taken ++ queue s'
        /\ (length taken + pending (workers s') <= pending (workers s))%nat)
  /\ (forall j w, workers s' !! j = Some w -> w_pc w = Dequeuing ->
                  workers s !! j = Some w).
Proof.
  intros Hflag Hall s'. subst s'. unfold worker.
  destruct (workers s !! i) as [w|] eqn:Hi;
    [|split; [done|split; [exists []; split; [done|simpl; lia]|done]]].
  assert (stopped w) as Hw
    by (eapply Forall_lookup_1; [exact Hall|exact Hi]).
  pose proof (pending_insert (workers s) i w Hi) as Hp.
  assert (forall p, p <> Dequeuing -> stopped (at_pc p)) as Hst
    by (intros p Hp' Hd; done).
  assert (forall p j w', p <> Dequeuing ->
            <[i:=at_pc p]> (workers s) !! j = Some w' ->
            w_pc w' = Dequeuing -> workers s !! j = Some w') as Hsame.
  { intros p j w' Hne Hj Hd.
    apply list_lookup_insert_Some in Hj as [(_ & <- & _)|[_ Hj]]; [|done].
    by destruct Hne. }
  destruct (w_pc w) eqn:Hpc.
  - (* not started: the loop test, or the cancellation, ends it *)
    rewrite Hflag. simpl.
    assert (set_worker i (at_pc Exited) s
            = (if w_cancel w then set_worker i (at_pc Exited) s
               else set_worker i (at_pc Exited) s)) as <-
      by (by destruct (w_cancel w)).
    specialize (Hp (at_pc Exited)). simpl in *.
    split; [by apply Forall_insert; [|apply Hst]|].
    split; [exists []; split; [done|simpl; lia]|].
    intros j w'. by apply Hsame.
  - (* at the dequeue, cancelled *)
    rewrite (Hw Hpc).
    destruct (queue s) as [|[artwork_id|] q] eqn:Hq; simpl.
    + specialize (Hp (at_pc Exited)). simpl in *.
      split; [by apply Forall_insert; [|apply Hst]|].
      split; [exists []; split; [done|simpl; lia]|].
      intros j w'. by apply Hsame.
    + specialize (Hp (at_pc (Processing artwork_id))). simpl in *.
      split; [by apply Forall_insert; [|apply Hst]|].
      split; [exists [Some artwork_id]; split; [done|simpl; lia]|].
      intros j w'. by apply Hsame.
    + specialize (Hp (at_pc Exited)). simpl in *.
      split; [by apply Forall_insert; [|apply Hst]|].
      split; [exists [None]; split; [done|simpl; lia]|].
      intros j w'. by apply Hsame.
  - (* an item in flight *)
    rewrite Hflag.
    set (r := if w_cancel w then _ else _).
    pose proof (resume_task_stops (stats s) r) as Hr.
    destruct (resume_task true (stats s) r) as [st p]. simpl in *. subst p.
    specialize (Hp (at_pc Exited)). simpl in *.
    split; [by apply Forall_insert; [|apply Hst]|].
    split; [exists []; split; [done|simpl; lia]|].
    intros j w'. by apply Hsame.
  - split; [done|]. split; [exists []; split; [done|simpl; lia]|done].
Qed.

Lemma pending_cancel ws : pending (cancel <$> ws) = pending ws.
Proof.
  induction ws as [|w ws IH]; [done|]. rewrite fmap_cons.
  change (pending (cancel w :: (cancel <$> ws)))
    with (match w_pc (cancel w) with Dequeuing => 1 | _ => 0 end
          + pending (cancel <$> ws))%nat.
  change (pending (w :: ws))
    with (match w_pc w with Dequeuing => 1 | _ => 0 end + pending ws)%nat.
  rewrite IH. f_equal. unfold cancel.
  destruct (w_pc w) eqn:Hpc; simpl; rewrite ?Hpc; done.
Qed.

Lemma shutdown_inv_step ev s : shutdown_inv s -> shutdown_inv (step process ev s).
Proof.
  intros Hinv. destruct ev as [i|]; simpl.
  - intros Hflag. rewrite worker_flag in Hflag.
    by apply stopped_worker; [|apply Hinv].
  - unfold _shutdown. destruct (shutdown_event s) eqn:Hflag; [done|].
    intros _. simpl. apply Forall_fmap, Forall_forall. intros w _.
    unfold stopped, cancel. simpl. destruct (w_pc w) eqn:Hpc; simpl;
      rewrite ?Hpc; done.
Qed.

Lemma shutdown_inv_run evs : forall s,
  shutdown_inv s -> shutdown_inv (run process evs s).
Proof.
  induction evs as [|ev evs IH]; intros s Hs; [done|].
  simpl. apply IH. by apply shutdown_inv_step.
Qed.

(** After the event is set: the queue only loses entries at its head, one
    for each worker that leaves the dequeue at most, and a worker found at
    the dequeue has been there, cancelled, ever since. *)
Lemma stopped_run evs : forall s,
  shutdown_event s = true -> shutdown_inv s ->
  shutdown_event (run process evs s) = true
  /\ (exists taken,
        queue s = taken ++ queue (run process evs s)
        /\ (length taken + pending (workers (run process evs s))
            <= pending (workers s))%nat)
  /\ (forall j w, workers (run process evs s) !! j = Some w ->
                  w_pc w = Dequeuing ->
                  w_cancel w = true /\ workers s !! j = Some w).
Proof.
  induction evs as [|ev evs IH]; intros s Hflag Hinv.
  { split; [done|]. split; [exists []; split; [done|simpl; lia]|].
    intros j w Hj Hpc. split; [|done].
    eapply Forall_lookup_1 in Hj; [|exact (Hinv Hflag)]. by apply Hj. }
  simpl.
  assert (shutdown_event (step process ev s) = true
          /\ (exists taken,
                queue s = taken ++ queue (step process ev s)
                /\ (length taken + pending (workers (step process ev s))
                    <= pending (workers s))%nat)
          /\ (forall j w, workers (step process ev s) !! j = Some w ->
                          w_pc w = Dequeuing -> workers s !! j = Some w))
    as (Hflag' & (t1 & Hq1 & Hp1) & Hsame1).
  { destruct ev as [i|]; simpl.
    - rewrite worker_flag. split; [done|].
      by apply stopped_worker; [|apply Hinv].
    - unfold _shutdown. rewrite Hflag.
      split; [done|]. split; [exists []; split; [done|simpl; lia]|done]. }
  destruct (IH (step process ev s) Hflag' (shutdown_inv_step ev s Hinv))
    as (Hflag2 & (t2 & Hq2 & Hp2) & Hsame2).
  split; [done|]. split.
  - exists (t1 ++ t2). rewrite <- app_assoc, <- Hq2, <- Hq1.
    split; [done|]. rewrite length_app. lia.
  - intros j w Hj Hpc. destruct (Hsame2 j w Hj Hpc) as [Hc Hj'].
    split; [done|]. by apply Hsame1.
Qed.

Lemma make_pool_shutdown_inv m n ids :
  shutdown_inv (Controller.make_pool m n ids).
Proof.
  intros _. simpl. apply Forall_replicate. intros Hd. discriminate.
Qed.

Lemma busy_cancel ws : busy (cancel <$> ws) = busy ws.
Proof.
  induction ws as [|w ws IH]; [done|]. rewrite fmap_cons.
  change (busy (cancel w :: (cancel <$> ws)))
    with (match w_pc (cancel w) with Processing _ => 1 | _ => 0 end
          + busy (cancel <$> ws))%nat.
  change (busy (w :: ws))
    with (match w_pc w with Processing _ => 1 | _ => 0 end + busy ws)%nat.
  rewrite IH. f_equal. unfold cancel.
  destruct (w_pc w) eqn:Hpc; simpl; rewrite ?Hpc; done.
Qed.

(** With the event set, scheduling a worker brings it closer to its
    return, and leaves the other workers alone. *)
Lemma rank_worker i s w :
  shutdown_event s = true -> Forall stopped (workers s) ->
  workers s !! i = Some w ->
  exists w', workers (worker process i s) !! i = Some w'
             /\ (rank w' <= rank w - 1)%nat.
Proof.
  intros Hflag Hall Hi.
  assert (stopped w) as Hw by (eapply Forall_lookup_1; [exact Hall|exact Hi]).
  assert (i < length (workers s))%nat as Hlen by (by eapply lookup_lt_Some).
  unfold worker. rewrite Hi. unfold rank at 2.
  destruct (w_pc w) eqn:Hpc.
  - rewrite Hflag. exists (at_pc Exited).
    destruct (w_cancel w); simpl;
      (split; [by rewrite list_lookup_insert_eq|unfold rank; simpl; lia]).
  - rewrite (Hw Hpc).
    destruct (queue s) as [|[artwork_id|] q]; simpl; eexists;
      (split; [by rewrite list_lookup_insert_eq|unfold rank; simpl; lia]).
  - rewrite Hflag.
    pose proof (resume_task_stops
                  (stats s)
                  (if w_cancel w then Raise CancelledError
                   else snd (process artwork_id))) as Hex.
    destruct (resume_task true (stats s) _) as [st p]. simpl in *. subst p.
    exists (at_pc Exited).
    split; [by rewrite list_lookup_insert_eq|unfold rank; simpl; lia].
  - exists w. split; [done|]. unfold rank. rewrite Hpc. lia.
Qed.

Lemma worker_other i j s :
  i <> j -> workers (worker process i s) !! j = workers s !! j.
Proof.
  intros Hne. unfold worker. destruct (workers s !! i) as [w|]; [|done].
  destruct (w_pc w); try done.
  - destruct (w_cancel w); simpl; by rewrite list_lookup_insert_ne.
  - destruct (w_cancel w); destruct (queue s); simpl;
      by rewrite list_lookup_insert_ne.
  - destruct (resume_task _ _ _). simpl. by rewrite list_lookup_insert_ne.
Qed.

Lemma runs_cons i ev evs :
  runs i (ev :: evs)
  = (match ev with
     | Run j => if decide (i = j) then 1 else 0
     | Shutdown => 0
     end + runs i evs)%nat.
Proof. reflexivity. Qed.

Lemma rank_run evs : forall s j w,
  shutdown_event s = true -> shutdown_inv s ->
  workers s !! j = Some w ->
  exists w', workers (run process evs s) !! j = Some w'
             /\ (rank w' <= rank w - runs j evs)%nat.
Proof.
  induction evs as [|ev evs IH]; intros s j w Hflag Hinv Hj.
  { exists w. split; [done|]. simpl. lia. }
  change (run process (ev :: evs) s)
    with (run process evs (step process ev s)).
  assert (shutdown_event (step process ev s) = true) as Hflag'.
  { destruct ev as [i|]; simpl; [by rewrite worker_flag|].
    unfold _shutdown. by rewrite Hflag. }
  pose proof (shutdown_inv_step ev s Hinv) as Hinv'.
  assert (exists w1, workers (step process ev s) !! j = Some w1
                     /\ (rank w1
                         <= rank w - match ev with
                                     | Run i => if decide (j = i) then 1 else 0
                                     | Shutdown => 0
                                     end)%nat) as (w1 & Hw1 & Hr1).
  { destruct ev as [i|]; simpl.
    - destruct (decide (j = i)) as [->|Hne].
      + by apply rank_worker; [|apply Hinv|].
      + exists w. rewrite worker_other by done. split; [done|lia].
    - exists w. unfold _shutdown. rewrite Hflag. split; [done|lia]. }
  destruct (IH (step process ev s) j w1 Hflag' Hinv' Hw1) as (w' & Hw' & Hr').
  exists w'. split; [done|]. rewrite runs_cons. lia.
Qed.





Hypothesis process_not_cancelled :
  forall artwork_id e,
    snd (process artwork_id) = Raise e -> is_Exception e = true.

Lemma run_inv_worker items i s :
  run_inv items s -> run_inv items (worker process i s).
Proof.
  intros Hinv.
  pose proof Hinv as [Hflag Hcancel (rest & Hq & Hcount & Hrest) Hsum Htot Hnn].
  unfold worker. destruct (workers s !! i) as [w|] eqn:Hi; [|done].
  assert (w_cancel w = false) as Hwc
    by (eapply Forall_lookup_1 in Hcancel; [exact Hcancel|exact Hi]).
  pose proof (live_insert (workers s) i w Hi) as Hlive.
  pose proof (busy_insert (workers s) i w Hi) as Hbusy.
  unfold exited in Hlive.
  destruct (w_pc w) eqn:Hpc; rewrite ?Hwc, ?Hflag; simpl.
  - (* first scheduling: to the top of the loop, then the dequeue *)
    specialize (Hlive (at_pc Dequeuing)). specialize (Hbusy (at_pc Dequeuing)).
    simpl in *. constructor; simpl; try done.
    + by apply Forall_insert.
    + exists rest. rewrite length_insert.
      replace (live (<[i:=at_pc Dequeuing]> (workers s)))
        with (live (workers s)) by lia.
      replace (busy (<[i:=at_pc Dequeuing]> (workers s)))
        with (busy (workers s)) by lia.
      done.
  - destruct (queue s) as [|x q] eqn:Hqueue; simpl.
    + (* timeout *)
      specialize (Hlive (at_pc Dequeuing)). specialize (Hbusy (at_pc Dequeuing)).
      simpl in *. constructor; simpl; try done.
      * by apply Forall_insert.
      * exists rest. rewrite length_insert, Hqueue.
        replace (live (<[i:=at_pc Dequeuing]> (workers s)))
          with (live (workers s)) by lia.
        replace (busy (<[i:=at_pc Dequeuing]> (workers s)))
          with (busy (workers s)) by lia.
        done.
    + destruct rest as [|r rest]; simpl in Hq.
      * (* a sentinel *)
        destruct (live (workers s)) as [|l] eqn:Hl; [done|].
        simpl in Hq. injection Hq as -> ->.
        specialize (Hlive (at_pc Exited)). specialize (Hbusy (at_pc Exited)).
        simpl in *. constructor; simpl; try done.
        -- by apply Forall_insert.
        -- exists []. rewrite length_insert.
           replace (live (<[i:=at_pc Exited]> (workers s))) with l by lia.
           replace (busy (<[i:=at_pc Exited]> (workers s)))
             with (busy (workers s)) by lia.
           done.
      * (* an identifier *)
        injection Hq as -> ->.
        specialize (Hlive (at_pc (Processing r))).
        specialize (Hbusy (at_pc (Processing r))).
        simpl in *. constructor; simpl; try done.
        -- by apply Forall_insert.
        -- exists rest. rewrite length_insert.
           replace (live (<[i:=at_pc (Processing r)]> (workers s)))
             with (live (workers s)) by lia.
           replace (busy (<[i:=at_pc (Processing r)]> (workers s)))
             with (S (busy (workers s))) by lia.
           split; [done|]. split; [lia|].
           intros Hlt. by specialize (Hrest Hlt).
  - (* the task has finished *)
    pose proof (sum_list_with_lookup
                  (fun w => match w_pc w with Processing _ => 1 | _ => 0 end)%nat
                  (workers s) i w Hi) as Hge.
    fold (busy (workers s)) in Hge. cbv beta in Hge. rewrite Hpc in Hge.
    destruct (resume_task_normal (stats s) (snd (process artwork_id)))
      as (st' & -> & Hp & Hsf & Hta);
      [lia|apply process_not_cancelled|].
    specialize (Hlive (at_pc Dequeuing)). specialize (Hbusy (at_pc Dequeuing)).
    simpl in *. constructor; simpl; try done; try lia.
    + by apply Forall_insert.
    + exists rest. rewrite length_insert.
      replace (live (<[i:=at_pc Dequeuing]> (workers s)))
        with (live (workers s)) by lia.
      split; [done|]. split; [lia|done].
  - done.
Qed.

(** Scheduling a worker that has not returned makes progress. *)
Lemma worker_decreases items i s w :
  run_inv items s -> workers s !! i = Some w -> exited w = false ->
  (measure (worker process i s) < measure s)%nat.
Proof.
  intros [Hflag Hcancel (rest & Hq & Hcount & Hrest) Hsum Htot Hnn] Hi Hex.
  assert (w_cancel w = false) as Hwc
    by (eapply Forall_lookup_1 in Hcancel; [exact Hcancel|exact Hi]).
  pose proof (sum_list_with_insert weight (workers s) i w) as Hwt.
  pose proof (sum_list_with_lookup
                (fun w => if exited w then 0 else 1)%nat (workers s) i w Hi)
    as Hlive.
  fold (live (workers s)) in Hlive. cbv beta in Hlive. rewrite Hex in Hlive.
  unfold worker, measure. rewrite Hi.
  unfold exited in Hex. unfold weight at 2 in Hwt.
  destruct (w_pc w) eqn:Hpc; [| | |done]; rewrite ?Hwc, ?Hflag; simpl.
  - specialize (Hwt (at_pc Dequeuing) Hi).
    change (weight (at_pc Dequeuing)) with 1%nat in Hwt. lia.
  - destruct (queue s) as [|x q] eqn:Hqueue; simpl.
    + apply (f_equal length) in Hq.
      rewrite length_app, length_replicate in Hq. simpl in Hq. lia.
    + destruct x as [r|]; simpl.
      * specialize (Hwt (at_pc (Processing r)) Hi).
        change (weight (at_pc (Processing r))) with 2%nat in Hwt. lia.
      * specialize (Hwt (at_pc Exited) Hi).
        change (weight (at_pc Exited)) with 0%nat in Hwt. lia.
  - pose proof (sum_list_with_lookup
                  (fun w => match w_pc w with Processing _ => 1 | _ => 0 end)%nat
                  (workers s) i w Hi) as Hge.
    fold (busy (workers s)) in Hge. cbv beta in Hge. rewrite Hpc in Hge.
    destruct (resume_task_normal (stats s) (snd (process artwork_id)))
      as (st' & -> & _); [lia|apply process_not_cancelled|].
    specialize (Hwt (at_pc Dequeuing) Hi).
    change (weight (at_pc Dequeuing)) with 1%nat in Hwt. simpl. lia.
Qed.

Lemma not_all_exited s :
  all_exited s = false ->
  exists i w, workers s !! i = Some w /\ exited w = false.
Proof.
  unfold all_exited. induction (workers s) as [|w ws IH]; simpl; [done|].
  destruct (exited w) eqn:Hw; simpl.
  - intros (i & w' & Hi & Hw')%IH. by exists (S i), w'.
  - intros _. by exists 0%nat, w.
Qed.

(** A run in which nothing is cancelled can always be completed: some
    schedule makes every worker return. *)
Lemma run_completes items n : forall s,
  (measure s <= n)%nat -> run_inv items s ->
  exists evs, Forall (fun ev => ev <> Shutdown) evs
              /\ all_exited (run process evs s) = true.
Proof.
  induction n as [|n IH]; intros s Hn Hinv.
  - exists []. split; [done|]. simpl.
    destruct (all_exited s) eqn:Hall; [done|].
    destruct (not_all_exited s Hall) as (i & w & Hi & Hw).
    pose proof (worker_decreases items i s w Hinv Hi Hw). lia.
  - destruct (all_exited s) eqn:Hall; [by exists []|].
    destruct (not_all_exited s Hall) as (i & w & Hi & Hw).
    pose proof (worker_decreases items i s w Hinv Hi Hw) as Hlt.
    destruct (IH (worker process i s)) as (evs & Hevs & Hdone);
      [lia|by apply run_inv_worker|].
    exists (Run i :: evs). split; [|done].
    apply Forall_cons. split; [done|done].
Qed.

Lemma run_inv_run items evs : forall s,
  Forall (fun ev => ev <> Shutdown) evs ->
  run_inv items s -> run_inv items (run process evs s).
Proof.
  induction evs as [|ev evs IH]; intros s Hevs Hs; [done|].
  apply Forall_cons in Hevs as [Hev Hevs]. simpl. apply IH; [done|].
  destruct ev as [i|]; [|done]. by apply run_inv_worker.
Qed.

Lemma live_replicate n w :
  live (replicate n w) = if exited w then 0%nat else n.
Proof.
  unfold live. induction n as [|n IH]; simpl; [by destruct (exited w)|].
  rewrite IH. destruct (exited w); lia.
Qed.

Lemma busy_replicate_created n : busy (replicate n (at_pc Created)) = 0%nat.
Proof. unfold busy. induction n as [|n IH]; simpl; [done|]. by rewrite IH. Qed.

Lemma all_exited_live s : all_exited s = true -> live (workers s) = 0%nat.
Proof.
  unfold all_exited, live. induction (workers s) as [|w ws IH]; simpl; [done|].
  intros [Hw Hws]%andb_prop. rewrite Hw. by apply IH.
Qed.

Lemma all_exited_busy s : all_exited s = true -> busy (workers s) = 0%nat.
Proof.
  unfold all_exited, busy, exited.
  induction (workers s) as [|w ws IH]; simpl; [done|].
  intros [Hw Hws]%andb_prop. rewrite (IH Hws). by destruct (w_pc w).
Qed.

(** What the invariant says once every worker has returned. *)
Lemma run_inv_final items s :
  run_inv items s -> all_exited s = true -> (0 < length (workers s))%nat ->
  total_processed (stats s) = successful (stats s) + failed (stats s)
  /\ total_processed (stats s) = Z.of_nat (length items).
Proof.
  intros [_ _ (rest & _ & Hcount & Hrest) Hsum _ _] Hall Hn.
  rewrite (all_exited_live s Hall) in Hrest.
  rewrite (all_exited_busy s Hall) in Hcount.
  rewrite (Hrest Hn) in Hcount. simpl in Hcount. split; [done|lia].
Qed.

End PoolFacts.

(** ** The controller *)
Section ControllerFacts.
Import Pool Controller.

Lemma crawl_enter_ok m :
  0 <= active_museums m ->
  let L := max_concurrent_requests m in
  let a := active_museums m + 1 in
  crawl_enter m
  = (set_per_museum (Z.max 1 (L / a)) (set_active a m),
     Ret (Z.min (Z.max 1 (L / a)) L)).
Proof.
  intros Ha L a. unfold crawl_enter, floordiv. simpl.
  by rewrite (proj2 (Z.eqb_neq (active_museums m + 1) 0)) by lia.
Qed.

Lemma num_workers_positive L a :
  1 <= L -> 1 <= Z.min (Z.max 1 (L / a)) L.
Proof. lia. Qed.

Lemma slice_to_length {A} (l : list A) n :
  Z.of_nat (length (slice_to l n))
  = if 0 <=? n then Z.min (Z.of_nat (length l)) n
    else Z.max 0 (Z.of_nat (length l) + n).
Proof.
  unfold slice_to. destruct (0 <=? n) eqn:Hn; rewrite length_take.
  - apply Z.leb_le in Hn. lia.
  - apply Z.leb_gt in Hn. lia.
Qed.

(** How many identifiers are enqueued, by the configured cap. *)
Lemma cap_ids_length cap ids :
  Z.of_nat (length (cap_ids cap ids))
  = match cap with
    | None => Z.of_nat (length ids)
    | Some n =>
        if n =? 0 then Z.of_nat (length ids)
        else if 0 <? n then Z.min (Z.of_nat (length ids)) n
        else Z.max 0 (Z.of_nat (length ids) + n)
    end.
Proof.
  destruct cap as [n|]; [|done]. simpl.
  destruct (n =? 0) eqn:H0; simpl; [done|].
  rewrite slice_to_length. apply Z.eqb_neq in H0.
  destruct (0 <=? n) eqn:H1, (0 <? n) eqn:H2; try done.
  - apply Z.leb_le in H1. apply Z.ltb_ge in H2. lia.
  - apply Z.leb_gt in H1. apply Z.ltb_lt in H2. lia.
Qed.

Lemma cap_ids_le cap (ids : list string) :
  (length (cap_ids cap ids) <= length ids)%nat.
Proof.
  destruct cap as [n|]; [|done]. simpl.
  destruct (negb (n =? 0)); [|done].
  unfold slice_to. destruct (0 <=? n); rewrite length_take; lia.
Qed.

Lemma make_pool_run_inv m n ids :
  shutting_down m = false ->
  run_inv (cap_ids (max_artworks_per_museum m) ids) (make_pool m n ids).
Proof.
  intros Hflag. constructor; simpl; try done.
  - apply Forall_replicate. done.
  - exists (cap_ids (max_artworks_per_museum m) ids).
    rewrite Hflag, live_replicate, busy_replicate_created, length_replicate.
    simpl. split; [done|]. split; [lia|lia].
  - pose proof (cap_ids_le (max_artworks_per_museum m) ids). lia.
Qed.

Lemma run_length process evs : forall s,
  length (workers (run process evs s)) = length (workers s).
Proof.
  induction evs as [|ev evs IH]; intros s; [done|].
  simpl. rewrite IH. destruct ev as [i|]; simpl.
  - apply worker_length.
  - unfold _shutdown. destruct (shutdown_event s); [done|].
    simpl. by rewrite length_fmap.
Qed.

(** Without cancellation the controller can always be run to completion. *)
Lemma crawl_museum_completes process m c ids :
  (forall artwork_id e,
     snd (process artwork_id) = Raise e -> is_Exception e = true) ->
  shutting_down m = false -> 0 <= active_museums m ->
  init_session c = Ret tt -> get_artwork_ids c = Ret ids ->
  exists evs o,
    Forall (fun ev => ev <> Shutdown) evs
    /\ crawl_museum process m c evs = Some o.
Proof.
  intros Hproc Hflag Ha Hinit Hids. unfold crawl_museum.
  rewrite (crawl_enter_ok m Ha), Hinit, Hids.
  set (nw := Z.min _ _). set (m1 := set_per_museum _ _).
  destruct (run_completes process Hproc
              (cap_ids (max_artworks_per_museum m) ids)
              (measure (make_pool m1 nw ids)) (make_pool m1 nw ids))
    as (evs & Hevs & Hall); [done|by apply (make_pool_run_inv m1)|].
  exists evs. rewrite Hall.
  destruct (log_museum_stats _) as [tr [[]|e]];
    eexists; (split; [done|reflexivity]).
Qed.

(** C1 (amended): when a source run completes with nothing cancelled and
    at least one worker (a concurrency limit of at least 1), the final
    statistics satisfy [total_processed = successful + failed], and
    [total_processed] is the number of identifiers enqueued: all those
    discovered when no cap or a cap of 0 is configured, and
    [min(discovered, cap)] for a positive cap. *)
Theorem C1_final_stats process m c evs ids o :
  (forall artwork_id e,
     snd (process artwork_id) = Raise e -> is_Exception e = true) ->
  Forall (fun ev => ev <> Shutdown) evs ->
  shutting_down m = false ->
  1 <= max_concurrent_requests m -> 0 <= active_museums m ->
  init_session c = Ret tt -> get_artwork_ids c = Ret ids ->
  crawl_museum process m c evs = Some o ->
  exists p,
    o_pool o = Some p
    /\ total_processed (stats p) = successful (stats p) + failed (stats p)
    /\ total_processed (stats p)
       = Z.of_nat (length (cap_ids (max_artworks_per_museum m) ids))
    /\ match max_artworks_per_museum m with
       | None => total_processed (stats p) = Z.of_nat (length ids)
       | Some n =>
           (n = 0 -> total_processed (stats p) = Z.of_nat (length ids))
           /\ (0 < n ->
               total_processed (stats p) = Z.min (Z.of_nat (length ids)) n)
       end.
Proof.
  intros Hproc Hevs Hflag HL Ha Hinit Hids Hcrawl.
  unfold crawl_museum in Hcrawl.
  rewrite (crawl_enter_ok m Ha), Hinit, Hids in Hcrawl.
  set (nw := Z.min (Z.max 1 (max_concurrent_requests m / (active_museums m + 1)))
                   (max_concurrent_requests m)) in *.
  set (m1 := set_per_museum _ _) in *.
  set (p := run process evs (make_pool m1 nw ids)) in *.
  assert (run_inv (cap_ids (max_artworks_per_museum m) ids) p) as Hinv.
  { apply run_inv_run; [done|done|]. by apply (make_pool_run_inv m1). }
  destruct (all_exited p) eqn:Hall; [|done].
  assert (0 < length (workers p))%nat as Hn.
  { unfold p. rewrite run_length. simpl. rewrite length_replicate.
    pose proof (num_workers_positive (max_concurrent_requests m)
                  (active_museums m + 1) HL). fold nw in H. lia. }
  destruct (run_inv_final _ p Hinv Hall Hn) as [Hsum Htotal].
  assert (o_pool o = Some p) as Hpool.
  { destruct (log_museum_stats (stats p)) as [tr [[]|e]];
      by injection Hcrawl as <-. }
  exists p. split; [done|]. split; [done|]. split; [done|].
  rewrite Htotal, cap_ids_length.
  destruct (max_artworks_per_museum m) as [n|]; [|done].
  split.
  - intros ->. done.
  - intros Hpos. rewrite (proj2 (Z.eqb_neq n 0)) by lia.
    by rewrite (proj2 (Z.ltb_lt 0 n)).
Qed.

Lemma crawl_enter_limit m :
  max_concurrent_requests (fst (crawl_enter m)) = max_concurrent_requests m.
Proof.
  unfold crawl_enter. by destruct (floordiv _ _).
Qed.

Lemma life_step_limit ev s :
  max_concurrent_requests (fst (life_step ev s))
  = max_concurrent_requests (fst s).
Proof.
  destruct ev as [name|name]; simpl; [|done].
  pose proof (crawl_enter_limit (fst s)) as H.
  by destruct (crawl_enter (fst s)) as [m' [n|e]].
Qed.

Lemma life_run_limit evs : forall s,
  max_concurrent_requests (fst (life_run evs s))
  = max_concurrent_requests (fst s).
Proof.
  induction evs as [|ev evs IH]; intros s; [done|].
  simpl. by rewrite IH, life_step_limit.
Qed.

Lemma life_run_app evs1 evs2 s :
  life_run (evs1 ++ evs2) s = life_run evs2 (life_run evs1 s).
Proof. unfold life_run. by rewrite foldl_app. Qed.

(** Only a controller's own start writes its [num_workers]. *)
Lemma life_run_keeps name evs : forall s,
  Forall (fun ev => ev <> Enter name) evs ->
  snd (life_run evs s) !! name = snd s !! name.
Proof.
  induction evs as [|ev evs IH]; intros s Hevs; [done|].
  apply Forall_cons in Hevs as [Hev Hevs]. simpl. rewrite (IH _ Hevs).
  destruct ev as [name'|name']; simpl; [|done].
  destruct (crawl_enter (fst s)) as [m' [n|e]]; simpl; [|done].
  apply lookup_insert_ne. congruence.
Qed.

(** C6 (amended): the worker count of a controller is computed once, when
    it starts, from the number of sources active at that moment (itself
    included), as [min(max(1, limit // active), limit)]; for a limit of at
    least 1 this is [max(1, limit // active)].  Later starts and finishes of
    other controllers do not change it. *)
Theorem C6_worker_count m locals evs1 evs2 name :
  let s1 := life_run evs1 (m, locals) in
  let limit := max_concurrent_requests m in
  let active := active_museums (fst s1) + 1 in
  0 <= active_museums (fst s1) ->
  Forall (fun ev => ev <> Enter name) evs2 ->
  snd (life_run (evs1 ++ Enter name :: evs2) (m, locals)) !! name
  = Some (Z.min (Z.max 1 (limit / active)) limit)
  /\ (1 <= limit ->
      Z.min (Z.max 1 (limit / active)) limit = Z.max 1 (limit / active)).
Proof.
  intros s1 limit active Ha Hevs2. split.
  2:{ intros Hl. assert (limit / active <= limit)
        by (apply Z.div_le_upper_bound; nia). lia. }
  rewrite life_run_app. fold s1. simpl.
  rewrite (life_run_keeps name evs2) by done.
  unfold life_step. rewrite (crawl_enter_ok (fst s1) Ha). simpl.
  rewrite lookup_insert_eq. unfold s1. by rewrite life_run_limit.
Qed.

End ControllerFacts.

Section ControllerExamples.
Import Item Pool Controller Examples.

(** A completed run: two identifiers, a cap of one, two workers. *)
Lemma C1_final_stats_witness :
  exists o p,
    crawl_museum (process_artwork env_ok 3) (manager 2 (Some 1))
      {| init_session := Ret tt; get_artwork_ids := Ret ["a"; "b"] |}
      [Run 0%nat; Run 1%nat; Run 0%nat; Run 1%nat; Run 0%nat; Run 0%nat]
    = Some o
    /\ o_pool o = Some p
    /\ total_processed (stats p) = successful (stats p) + failed (stats p)
    /\ total_processed (stats p) = Z.min 2 1.
Proof.
  eexists.
  edestruct (C1_final_stats (process_artwork env_ok 3) (manager 2 (Some 1))
              {| init_session := Ret tt; get_artwork_ids := Ret ["a"; "b"] |}
              [Run 0%nat; Run 1%nat; Run 0%nat; Run 1%nat; Run 0%nat; Run 0%nat]
              ["a"; "b"])
    as (p & Hp & Hsum & _ & _ & Hmin);
    [ intros artwork_id e H; vm_compute in H; discriminate
    | repeat constructor; discriminate
    | reflexivity | simpl; lia | simpl; lia | reflexivity | reflexivity
    | vm_compute; reflexivity | ].
  exists p. split; [reflexivity|]. split; [exact Hp|].
  split; [exact Hsum|]. apply Hmin. lia.
Defined.

(** The claim as stated fails: with a cap of 0 nothing is truncated, the
    one discovered identifier is processed, while [min(1, 0) = 0]. *)
Lemma C1_cap_zero_is_no_cap :
  exists o p,
    crawl_museum (process_artwork env_ok 3) (manager 1 (Some 0))
      {| init_session := Ret tt; get_artwork_ids := Ret ["a"] |}
      [Run 0%nat; Run 0%nat; Run 0%nat; Run 0%nat]
    = Some o
    /\ o_result o = Ret tt
    /\ o_pool o = Some p
    /\ total_processed (stats p) = 1
    /\ total_processed (stats p) <> Z.min 1 0.
Proof.
  eexists. eexists. vm_compute. repeat split. discriminate.
Qed.

Lemma C6_worker_count_witness :
  snd (life_run [Enter "MetCrawler"; Enter "LouvreCrawler";
                 Leave "MetCrawler"]
         (manager 50 None, ∅)) !! "LouvreCrawler"
  = Some 25.
Proof.
  destruct (C6_worker_count (manager 50 None) ∅
              [Enter "MetCrawler"] [Leave "MetCrawler"] "LouvreCrawler")
    as [H _];
    [ vm_compute; discriminate | repeat constructor; discriminate | ].
  exact H.
Defined.

(** The claim as stated fails: with a limit of 0 the controller starts no
    worker, while [max(1, 0 // 1) = 1]. *)
Lemma C6_limit_zero_no_worker :
  snd (crawl_enter (manager 0 None)) = Ret 0
  /\ Z.max 1 (0 / 1) = 1.
Proof. vm_compute. done. Qed.

End ControllerExamples.

Section PoolExamples.
Import Item Pool Controller Examples.




End PoolExamples.

(** ** The orchestrator *)
Section OrchestraFacts.
Import Pool Controller Orchestra.

Variable process : string -> Item.M (option bool).

(** A controller whose discovery raises: the error is logged, no worker is
    started, the session is closed and the error is raised again. *)
Lemma crawl_museum_discovery_fails m c evs e :
  0 <= active_museums m -> init_session c = Ret tt ->
  get_artwork_ids c = Raise e -> is_Exception e = true ->
  exists o,
    crawl_museum process m c evs = Some o
    /\ o_trace o = [ConfigureRate; InitSession; Discover; LogCrawlError;
                    CloseSession]
    /\ o_result o = Raise e
    /\ o_pool o = None
    /\ active_museums (o_manager o) = active_museums m.
Proof.
  intros Ha Hinit Hids He. unfold crawl_museum.
  rewrite (crawl_enter_ok m Ha), Hinit, Hids.
  eexists. split; [done|]. simpl.
  repeat split; [|lia]. by destruct e.
Qed.

Lemma tasks_lookup m srcs i src :
  srcs !! i = Some src -> tasks process m srcs !! i = Some (task process m i src).
Proof. intros H. unfold tasks. by rewrite list_lookup_imap, H. Qed.

(** [gather] passes over the tasks that returned and stops at the first
    one that raised. *)
Lemma gather_first_raise results before : forall seen i after o e,
  (forall j, j ∈ before ->
     exists o', results !! j = Some (Some o') /\ o_result o' = Ret tt) ->
  results !! i = Some (Some o) -> o_result o = Raise e ->
  gather results (before ++ i :: after) seen
  = (seen ++ before ++ [i], Some (Raise e)).
Proof.
  induction before as [|j before IH]; intros seen i after o e Hb Hi He; simpl.
  - by rewrite Hi, He.
  - destruct (Hb j) as (o' & -> & ->); [by left|].
    rewrite (IH (seen ++ [j]) i after o e); [|by intros; apply Hb; right|done..].
    by rewrite <- app_assoc.
Qed.

(** C8 (amended): a failure of a source's discovery step is logged by its
    controller, which starts no worker, closes its session and raises the
    error again.  The orchestrator's [gather] hands that error to
    [run_crawlers] as soon as it occurs: [run_crawlers] closes every
    crawler's session and ends with the error, without waiting for the
    sources that are still running. *)
Theorem C8_discovery_failure m srcs i src e :
  srcs !! i = Some src -> 0 <= active_museums m ->
  init_session (crawler src) = Ret tt ->
  get_artwork_ids (crawler src) = Raise e -> is_Exception e = true ->
  (exists o,
     task process m i src = Some o
     /\ o_trace o = [ConfigureRate; InitSession; Discover; LogCrawlError;
                     CloseSession]
     /\ o_result o = Raise e
     /\ o_pool o = None)
  /\ forall before after,
       (forall j, j ∈ before ->
          exists o', tasks process m srcs !! j = Some (Some o')
                     /\ o_result o' = Ret tt) ->
       run_crawlers process m srcs (before ++ i :: after)
       = Some {| r_result := Raise e; r_finished := before ++ [i];
                 r_closed := length srcs |}.
Proof.
  intros Hi Ha Hinit Hids He.
  destruct (crawl_museum_discovery_fails
              (set_active (active_museums m + Z.of_nat i) m)
              (crawler src) (schedule src) e)
    as (o & Ho & Htr & Hres & Hpool & _); [simpl; lia|done..|].
  split; [by exists o|].
  intros before after Hb. unfold run_crawlers.
  rewrite (gather_first_raise _ before [] i after o e); [|done| |done].
  - simpl. by destruct e.
  - rewrite (tasks_lookup m srcs i src Hi). by rewrite <- Ho.
Qed.

End OrchestraFacts.

Section OrchestraExamples.
Import Item Pool Controller Orchestra Examples.

Lemma C8_discovery_failure_witness :
  run_crawlers (process_artwork env_ok 3) (manager 2 None)
    [small_source; failing_source] [0%nat; 1%nat]
  = Some {| r_result := Raise (OtherError "discovery");
            r_finished := [0%nat; 1%nat]; r_closed := 2 |}.
Proof.
  destruct (C8_discovery_failure (process_artwork env_ok 3) (manager 2 None)
              [small_source; failing_source] 1%nat failing_source
              (OtherError "discovery"))
    as [_ H]; [reflexivity | simpl; lia | reflexivity | reflexivity
              | reflexivity |].
  apply (H [0%nat] []).
  intros j Hj. apply list_elem_of_singleton in Hj as ->.
  eexists. split; [vm_compute; reflexivity | reflexivity].
Defined.

(** The claim as stated fails: the second source would complete on its
    own, but when the first one fails discovery [run_crawlers] ends with
    that error while the second source has not finished. *)
Lemma C8_sibling_not_awaited :
  exists o rep,
    task (process_artwork env_ok 3) (manager 2 None) 1%nat small_source = Some o
    /\ o_result o = Ret tt
    /\ run_crawlers (process_artwork env_ok 3) (manager 2 None)
         [failing_source; small_source] [0%nat; 1%nat] = Some rep
    /\ r_result rep = Raise (OtherError "discovery")
    /\ r_finished rep = [0%nat]
    /\ 1%nat ∉ r_finished rep.
Proof.
  eexists. eexists. vm_compute. repeat split.
  intros H. apply list_elem_of_singleton in H. discriminate.
Qed.

End OrchestraExamples.

(** ** Binary64 rounding *)
Section FloatFacts.
Import Float.
Local Open Scope Q_scope.

(** Powers of two. *)
Lemma pow2_pos e : 0 < pow2 e.
Proof. apply Qpower_0_lt. reflexivity. Qed.

Lemma pow2_plus a b : pow2 (a + b) == pow2 a * pow2 b.
Proof. apply Qpower_plus. discriminate. Qed.

Lemma pow2_inject (a : Z) : (0 <= a)%Z -> pow2 a == inject_Z (2 ^ a).
Proof. intros H. unfold pow2. rewrite Zpower_Qpower by done. reflexivity. Qed.


Lemma ilog2_lt x : 0 < x -> x < pow2 (ilog2 x + 1).
Proof.
  intros Hx. unfold ilog2.
  set (a := Z.log2 (Qnum x)). set (b := Z.log2 (Z.pos (Qden x))).
  destruct (Qle_bool (pow2 (a - b)) x) eqn:H.
  - destruct x as [n d]. cbn [Qnum Qden] in a, b.
    assert (0 < n)%Z as Hn by (unfold Qlt in Hx; simpl in Hx; lia).
    destruct (Z.log2_spec n Hn) as [_ Hhi]. fold a in Hhi.
    destruct (Z.log2_spec (Z.pos d) eq_refl) as [Hlo _]. fold b in Hlo.
    assert (0 <= a)%Z as Ha by apply Z.log2_nonneg.
    assert (0 <= b)%Z as Hb by apply Z.log2_nonneg.
    rewrite (Qmake_Qdiv n d).
    apply Qlt_shift_div_r; [reflexivity|].
    assert (pow2 (a - b + 1) * pow2 b == pow2 (a + 1)) as Heq.
    { rewrite <- pow2_plus. replace (a - b + 1 + b)%Z with (a + 1)%Z by lia.
      reflexivity. }
    assert (pow2 b <= inject_Z (Z.pos d)) as Hd.
    { rewrite pow2_inject by lia. by rewrite <- Zle_Qle. }
    assert (inject_Z n < pow2 (a + 1)) as Hna.
    { rewrite pow2_inject by lia. rewrite <- Zlt_Qlt.
      replace (a + 1)%Z with (Z.succ a) by lia. lia. }
    pose proof (pow2_pos (a - b + 1)) as Hp.
    apply Qlt_le_trans with (pow2 (a - b + 1) * pow2 b).
    + rewrite Heq. done.
    + apply Qmult_le_l; done.
  - replace (a - b - 1 + 1)%Z with (a - b)%Z by lia.
    apply Qnot_le_lt. intros Hle. apply Qle_bool_iff in Hle. congruence.
Qed.










Lemma rnd_range y : (Qfloor y <= rnd y <= Qfloor y + 1)%Z.
Proof.
  unfold rnd. destruct (Qcompare _ _); [destruct (Z.even _)|..]; lia.
Qed.

Lemma round_pos_format x :
  0 < x ->
  exists m e, round_pos x = inject_Z m * pow2 e
              /\ (0 <= m <= 2 ^ 53)%Z /\ (-1074 <= e)%Z.
Proof.
  intros Hx. unfold round_pos. set (e := ulp_exp x).
  exists (rnd (x / pow2 e)), e. split; [done|].
  assert (-1074 <= e)%Z as He by (unfold e, ulp_exp; lia).
  split; [|done].
  pose proof (pow2_pos e) as Hp.
  assert (0 <= x / pow2 e) as H0.
  { apply Qle_shift_div_l; [done|]. lra. }
  assert (x / pow2 e < pow2 53) as H1.
  { apply Qlt_shift_div_r; [done|].
    apply Qlt_le_trans with (pow2 (ilog2 x + 1)); [by apply ilog2_lt|].
    rewrite <- pow2_plus. apply Qpower_le_compat_l; [|discriminate].
    unfold e, ulp_exp. lia. }
  pose proof (rnd_range (x / pow2 e)) as [Hr1 Hr2].
  assert (0 <= Qfloor (x / pow2 e))%Z as Hf0.
  { change 0%Z with (Qfloor 0). by apply Qfloor_resp_le. }
  assert (Qfloor (x / pow2 e) < 2 ^ 53)%Z as Hf1.
  { rewrite Zlt_Qlt. apply Qle_lt_trans with (x / pow2 e); [apply Qfloor_le|].
    exact H1. }
  lia.
Qed.

(** [fl x] is a binary64 number: an integer of at most 53 bits times a
    power of two that is at least [2 ^ -1074]. *)
Lemma fl_format x :
  exists m e, fl x == inject_Z m * pow2 e
              /\ (Z.abs m <= 2 ^ 53)%Z /\ (-1074 <= e)%Z.
Proof.
  unfold fl. destruct x as [n d]. cbn [Qnum]. destruct n as [|n|n].
  - exists 0%Z, 0%Z. split; [reflexivity|]. split; lia.
  - destruct (round_pos_format (Z.pos n # d)) as (m & e & Hm & Hr & He);
      [reflexivity|].
    exists m, e. rewrite Qred_correct, Hm. split; [reflexivity|].
    split; [lia|done].
  - destruct (round_pos_format (- (Z.neg n # d))) as (m & e & Hm & Hr & He);
      [reflexivity|].
    exists (- m)%Z, e. rewrite Qred_correct, Hm. split.
    + rewrite inject_Z_opp. ring.
    + split; [lia|done].
Qed.


End FloatFacts.

(** ** The rate limiter *)
Section LimiterFacts.
Import Limiter.
Local Open Scope Q_scope.

Variable name : string.

Lemma instants_cons n t log :
  instants name ((n, t) :: log)
  = if decide (n = name) then t :: instants name log else instants name log.
Proof.
  unfold instants. rewrite filter_cons. simpl. by destruct (decide (n = name)).
Qed.

Lemma queue_of_insert n q s l c k w :
  queue_of name {| limiter := l; clock := c; callers := k; completed := w;
                   waiters := <[n := q]> (waiters s) |}
  = if decide (n = name) then q else queue_of name s.
Proof.
  unfold queue_of. simpl. destruct (decide (n = name)) as [->|Hne].
  - by rewrite lookup_insert_eq.
  - by rewrite lookup_insert_ne.
Qed.

Lemma frame_refl s : frame name s s.
Proof. constructor; try done. apply Qle_refl. Qed.

Lemma frame_trans s1 s2 s3 :
  frame name s1 s2 -> frame name s2 s3 -> frame name s1 s3.
Proof.
  intros [A1 A2 A3 A4 A5 A6 A7] [B1 B2 B3 B4 B5 B6 B7].
  constructor; try congruence; [lra|eauto..].
Qed.

(** Steps of a call for another source. *)
Lemma frame_set_caller i p n c s :
  callers s !! i = Some c -> c_name c = n -> n <> name ->
  frame name s (set_caller i p n s).
Proof.
  intros Hi Hc Hn. constructor; simpl; try done; try apply Qle_refl.
  - intros j c' Hj Hn'.
    apply list_lookup_insert_Some in Hj as [(-> & <- & _)|[_ Hj]]; [done|done].
  - intros j c' Hj Hn'. rewrite list_lookup_insert_ne; [done|].
    intros ->. congruence.
Qed.

Lemma frame_finish i n late c s :
  0 <= late -> callers s !! i = Some c -> c_name c = n -> n <> name ->
  frame name s (finish i n late s).
Proof.
  intros Hlate Hi Hc Hn. constructor; simpl; try done.
  - by apply lookup_insert_ne.
  - by apply lookup_insert_ne.
  - rewrite instants_cons. by destruct (decide (n = name)).
  - lra.
  - intros j c' Hj Hn'.
    apply list_lookup_insert_Some in Hj as [(-> & <- & _)|[_ Hj]]; [done|done].
  - intros j c' Hj Hn'. rewrite list_lookup_insert_ne; [done|].
    intros ->. congruence.
Qed.

Lemma frame_enter i n m late c s :
  0 <= late -> callers s !! i = Some c -> c_name c = n -> n <> name ->
  frame name s (enter i n m late s).
Proof.
  intros Hlate Hi Hc Hn. unfold enter.
  destruct (_last_check (limiter s) !! n) as [last|];
    [|by eapply frame_set_caller].
  destruct (Qle_bool m _); [by eapply frame_finish|].
  constructor; simpl; try done; try apply Qle_refl.
  - by apply lookup_insert_ne.
  - intros j c' Hj Hn'.
    apply list_lookup_insert_Some in Hj as [(-> & <- & _)|[_ Hj]]; [done|done].
  - intros j c' Hj Hn'. rewrite list_lookup_insert_ne; [done|].
    intros ->. congruence.
Qed.

Lemma frame_lock_then_enter i n m late c s :
  0 <= late -> callers s !! i = Some c -> c_name c = n -> n <> name ->
  frame name s (lock_then_enter i n m late s).
Proof.
  intros Hlate Hi Hc Hn. unfold lock_then_enter.
  destruct (_locks (limiter s) !! n) as [locked|];
    [|by eapply frame_set_caller].
  destruct (negb locked && bool_decide (queue_of n s = []));
    [by eapply frame_enter|].
  constructor; simpl; try done; try apply Qle_refl.
  - rewrite queue_of_insert. by rewrite decide_False.
  - intros j c' Hj Hn'.
    apply list_lookup_insert_Some in Hj as [(-> & <- & _)|[_ Hj]]; [done|done].
  - intros j c' Hj Hn'. rewrite list_lookup_insert_ne; [done|].
    intros ->. congruence.
Qed.

Lemma frame_wake_then_enter i n m late c s :
  0 <= late -> callers s !! i = Some c -> c_name c = n -> n <> name ->
  frame name s (wake_then_enter i n m late s).
Proof.
  intros Hlate Hi Hc Hn. unfold wake_then_enter.
  destruct (_locks (limiter s) !! n) as [[|]|]; try apply frame_refl.
  destruct (queue_of n s) as [|j rest]; [apply frame_refl|].
  case_bool_decide; [|apply frame_refl].
  eapply frame_trans; [|by eapply frame_enter].
  constructor; simpl; try done; try apply Qle_refl.
  rewrite queue_of_insert. by rewrite decide_False.
Qed.

Lemma frame_acquire i late c s :
  0 <= late -> callers s !! i = Some c -> c_name c <> name ->
  frame name s (acquire i late s).
Proof.
  intros Hlate Hi Hn. unfold acquire. rewrite Hi.
  destruct (c_pc c) as [|m|wake| |e].
  - destruct (_rates (limiter s) !! c_name c) as [[calls period]|];
      [|by eapply frame_set_caller].
    destruct (calls =? 0)%Z; [by eapply frame_set_caller|].
    destruct (Float.overflows _);
      [by eapply frame_set_caller|by eapply frame_lock_then_enter].
  - by eapply frame_wake_then_enter.
  - destruct (Qle_bool wake (clock s));
      [by eapply frame_finish|apply frame_refl].
  - apply frame_refl.
  - apply frame_refl.
Qed.

Lemma step_rates ev s : _rates (limiter (step ev s)) = _rates (limiter s).
Proof.
  assert (forall i n late s, _rates (limiter (finish i n late s))
                             = _rates (limiter s)) as Hfin by done.
  assert (forall i n m late s, _rates (limiter (enter i n m late s))
                               = _rates (limiter s)) as Hent.
  { intros. unfold enter. destruct (_last_check _ !! _); [|done].
    by destruct (Qle_bool _ _). }
  destruct ev as [dt|i late]; simpl; [done|].
  unfold acquire. destruct (callers s !! i) as [c|]; [|done].
  destruct (c_pc c) as [|m|wake| |e].
  - destruct (_rates (limiter s) !! c_name c) as [[calls period]|]; [|done].
    destruct (calls =? 0)%Z; [done|]. destruct (Float.overflows _); [done|].
    unfold lock_then_enter. destruct (_locks _ !! _) as [locked|]; [|done].
    destruct (negb locked && _); [apply Hent|done].
  - unfold wake_then_enter. destruct (_locks _ !! _) as [[|]|]; try done.
    destruct (queue_of _ _); [done|]. case_bool_decide; [|done].
    by rewrite Hent.
  - by destruct (Qle_bool _ _).
  - done.
  - done.
Qed.

Lemma run_rates evs : forall s, _rates (limiter (run evs s)) = _rates (limiter s).
Proof.
  induction evs as [|ev evs IH]; intros s; [done|].
  simpl. by rewrite IH, step_rates.
Qed.

End LimiterFacts.

Section LimiterClock.
Import Limiter.
Local Open Scope Q_scope.



End LimiterClock.

(** *** The lock is held exactly while a call sleeps *)
Section ShapeFacts.
Import Limiter.
Local Open Scope Q_scope.

Variable name : string.
Variable mi : Q.

Lemma frame_shape s s' : frame name s s' -> shape name mi s -> shape name mi s'.
Proof.
  intros [Hlk Hla Hlog Hq Hclk Hback Hforth] [Hw Hl Hlast].
  constructor.
  - intros i c m Hi Hn Hp. eapply Hw; [by apply Hback|done..].
  - unfold lock_inv in *. rewrite Hlk.
    destruct (_locks (limiter s) !! name) as [[|]|]; [|..|done].
    + destruct Hl as (i & wake & Hi & Huniq).
      exists i, wake. split; [by apply Hforth|].
      intros j c w Hj Hn Hp. eapply Huniq; [by apply Hback|done..].
    + intros i c wake Hi Hn. eapply Hl; [by apply Hback|done].
  - by rewrite Hla.
Qed.

(** A call that neither waits nor sleeps any more. *)
Lemma set_caller_shape i p s c :
  shape name mi s -> callers s !! i = Some c ->
  (forall w, c_pc c <> Sleeping w) ->
  (forall m, p <> WaitLock m) -> (forall w, p <> Sleeping w) ->
  shape name mi (set_caller i p name s).
Proof.
  intros [Hw Hl Hlast] Hi Hns Hpw Hps. constructor; simpl; [| |done].
  - intros j c' m Hj Hn Hp.
    apply list_lookup_insert_Some in Hj as [(-> & <- & _)|[_ Hj]];
      [by destruct (Hpw m)|by eapply Hw].
  - unfold lock_inv in *. simpl.
    destruct (_locks (limiter s) !! name) as [[|]|]; [| |done].
    + destruct Hl as (i0 & wake & Hi0 & Huniq).
      assert (i0 <> i) as Hne.
      { intros ->. rewrite Hi in Hi0. injection Hi0 as ->. by eapply Hns. }
      exists i0, wake. split; [by rewrite list_lookup_insert_ne|].
      intros j c' w Hj Hn Hp.
      apply list_lookup_insert_Some in Hj as [(-> & <- & _)|[_ Hj]];
        [by destruct (Hps w)|by eapply Huniq].
    + intros j c' w Hj Hn.
      apply list_lookup_insert_Some in Hj as [(-> & <- & _)|[_ Hj]];
        [apply Hps|by eapply Hl].
Qed.

(** Writing the new instant and releasing the lock. *)
Lemma finish_shape i late s c :
  shape name mi s -> callers s !! i = Some c ->
  (forall j c' w, j <> i -> callers s !! j = Some c' -> c_name c' = name ->
                  c_pc c' <> Sleeping w) ->
  shape name mi (finish i name late s).
Proof.
  intros [Hw Hl Hlast] Hi Hothers. constructor; simpl.
  - intros j c' m Hj Hn Hp.
    apply list_lookup_insert_Some in Hj as [(-> & <- & _)|[_ Hj]];
      [done|by eapply Hw].
  - unfold lock_inv. simpl. rewrite lookup_insert_eq.
    intros j c' wake Hj Hn.
    apply list_lookup_insert_Some in Hj as [(-> & <- & _)|[Hne Hj]];
      [done|by eapply Hothers].
  - rewrite lookup_insert_eq. eauto.
Qed.

(** Entering the critical section with the lock free. *)
Lemma enter_shape i late s c :
  shape name mi s -> callers s !! i = Some c ->
  _locks (limiter s) !! name = Some false ->
  shape name mi (enter i name mi late s).
Proof.
  intros Hsh Hi Hlock. pose proof Hsh as [Hw Hl Hlast].
  assert (i < length (callers s))%nat as Hlen by (by eapply lookup_lt_Some).
  unfold lock_inv in Hl. rewrite Hlock in Hl.
  unfold enter. destruct Hlast as [last Hla]. rewrite Hla.
  destruct (Qle_bool mi _).
  - eapply finish_shape; [done..|].
    intros j c' w _ Hj Hn'. by eapply Hl.
  - constructor; simpl; [| |by eexists].
    + intros j c' m Hj Hn' Hp.
      apply list_lookup_insert_Some in Hj as [(-> & <- & _)|[_ Hj]];
        [done|by eapply Hw].
    + unfold lock_inv. simpl. rewrite lookup_insert_eq.
      eexists i, _. split; [by apply list_lookup_insert_eq|].
      intros j c' w Hj Hn' Hp.
      apply list_lookup_insert_Some in Hj as [(-> & _)|[_ Hj]]; [done|].
      exfalso. by eapply Hl.
Qed.

(** A change of the queue changes nothing else. *)
Lemma requeue_shape s q n :
  shape name mi s ->
  shape name mi {| limiter := limiter s; clock := clock s;
                   callers := callers s; completed := completed s;
                   waiters := <[n := q]> (waiters s) |}.
Proof. intros [Hw Hl Hlast]. by constructor. Qed.

Lemma lock_then_enter_shape i late s c :
  shape name mi s -> callers s !! i = Some c ->
  (forall w, c_pc c <> Sleeping w) ->
  shape name mi (lock_then_enter i name mi late s).
Proof.
  intros Hsh Hi Hns. pose proof Hsh as [Hw Hl Hlast].
  unfold lock_then_enter. unfold lock_inv in Hl.
  destruct (_locks (limiter s) !! name) as [locked|] eqn:Hlock; [|done].
  destruct (negb locked && _) eqn:Hfree.
  - apply andb_true_iff in Hfree as [Hfree _].
    destruct locked; [done|]. by eapply enter_shape.
  - (* the call joins the queue *)
    constructor; simpl; [| |done].
    + intros j c' m Hj Hn' Hp.
      apply list_lookup_insert_Some in Hj as [(-> & <- & _)|[_ Hj]];
        [by injection Hp as <-|by eapply Hw].
    + unfold lock_inv. simpl. rewrite Hlock. destruct locked.
      * destruct Hl as (i0 & wake & Hi0 & Huniq).
        assert (i0 <> i) as Hne.
        { intros ->. rewrite Hi in Hi0. injection Hi0 as ->. by eapply Hns. }
        exists i0, wake. split; [by rewrite list_lookup_insert_ne|].
        intros j c' w Hj Hn' Hp.
        apply list_lookup_insert_Some in Hj as [(-> & <- & _)|[_ Hj]];
          [done|by eapply Huniq].
      * intros j c' w Hj Hn'.
        apply list_lookup_insert_Some in Hj as [(-> & <- & _)|[_ Hj]];
          [done|by eapply Hl].
Qed.

Lemma wake_then_enter_shape i late s c :
  shape name mi s -> callers s !! i = Some c ->
  shape name mi (wake_then_enter i name mi late s).
Proof.
  intros Hsh Hi. unfold wake_then_enter.
  destruct (_locks (limiter s) !! name) as [[|]|] eqn:Hlock; try done.
  destruct (queue_of name s) as [|j rest]; [done|].
  case_bool_decide; [|done].
  eapply enter_shape; [by apply requeue_shape|done|done].
Qed.

Lemma acquire_same_shape i late s c calls period :
  shape name mi s ->
  callers s !! i = Some c -> c_name c = name ->
  _rates (limiter s) !! name = Some (calls, period) ->
  calls <> 0%Z -> mi = Float.div period (Float.of_int calls) ->
  shape name mi (acquire i late s).
Proof.
  intros Hsh Hi Hn Hrate Hcalls Hmi.
  unfold acquire. rewrite Hi, Hn.
  destruct (c_pc c) as [|m|wake| |e] eqn:Hpc; [| | |done|done].
  - rewrite Hrate, (proj2 (Z.eqb_neq calls 0) Hcalls), <- Hmi.
    destruct (Float.overflows _).
    + eapply set_caller_shape; [done..| | |]; try done.
      intros w. by rewrite Hpc.
    + eapply lock_then_enter_shape; [done..|]. intros w. by rewrite Hpc.
  - rewrite (sh_wait _ _ _ Hsh i c m Hi Hn Hpc).
    by eapply wake_then_enter_shape.
  - destruct (Qle_bool wake (clock s)); [|done].
    pose proof (sh_lock _ _ _ Hsh) as Hl. unfold lock_inv in Hl.
    destruct (_locks (limiter s) !! name) as [[|]|]; [| |done].
    + destruct Hl as (i0 & wake0 & Hi0 & Huniq).
      assert (i = i0) as <- by (by eapply Huniq).
      eapply finish_shape; [done..|].
      intros j c' w Hne Hj Hn' Hp. apply Hne. by eapply Huniq.
    + exfalso. by eapply Hl.
Qed.

Lemma step_shape ev s calls period :
  valid ev -> _rates (limiter s) !! name = Some (calls, period) ->
  calls <> 0%Z -> mi = Float.div period (Float.of_int calls) ->
  shape name mi s -> shape name mi (step ev s).
Proof.
  intros Hev Hrate Hcalls Hmi Hsh. destruct ev as [dt|i late]; simpl in *.
  - destruct Hsh as [Hw Hl Hlast]. by constructor.
  - destruct (callers s !! i) as [c|] eqn:Hi;
      [|by unfold acquire; rewrite Hi].
    destruct (decide (c_name c = name)) as [Hn|Hn].
    + by eapply acquire_same_shape.
    + eapply frame_shape; [|exact Hsh]. by eapply frame_acquire.
Qed.

Lemma run_shape evs calls period : forall s,
  Forall valid evs -> _rates (limiter s) !! name = Some (calls, period) ->
  calls <> 0%Z -> mi = Float.div period (Float.of_int calls) ->
  shape name mi s -> shape name mi (run evs s).
Proof.
  induction evs as [|ev evs IH]; intros s Hevs Hrate Hcalls Hmi Hsh; [done|].
  apply Forall_cons in Hevs as [Hev Hevs]. simpl.
  apply IH; [done| |done..|by eapply step_shape].
  by rewrite step_rates.
Qed.

Lemma start_shape rl t0 names :
  _locks rl !! name = Some false -> is_Some (_last_check rl !! name) ->
  shape name mi (start rl t0 names).
Proof.
  intros Hlock Hlast. constructor; simpl; try done.
  - intros i c m Hi _ Hp. rewrite list_lookup_fmap in Hi.
    destruct (names !! i); simplify_eq/=.
  - unfold lock_inv. simpl. rewrite Hlock. intros i c wake Hi _ Hp.
    rewrite list_lookup_fmap in Hi. destruct (names !! i); simplify_eq/=.
Qed.

End ShapeFacts.

(** *** The instants written are spaced, up to rounding *)
Section TimingFacts.
Import Limiter.
Local Open Scope Q_scope.

Variable name : string.
Variable mi : Q.
Variable t0 T : Q.
Hypothesis t0_nonneg : 0 <= t0.

Local Abbreviation ulp := ((1 # 9007199254740992) * (1 + T + Qabs mi)).












End TimingFacts.

Section LimiterClaims.
Import Limiter.
Local Open Scope Q_scope.

(** Configuring a source leaves its lock free and its last instant at 0. *)
Lemma configured_lookup cfg name :
  is_Some (_rates (configured cfg) !! name) ->
  _locks (configured cfg) !! name = Some false
  /\ _last_check (configured cfg) !! name = Some 0.
Proof.
  induction cfg as [|[[n c] p] cfg IH]; simpl.
  - rewrite lookup_empty. by intros [? ?].
  - destruct (decide (n = name)) as [->|Hne].
    + intros _. by rewrite !lookup_insert_eq.
    + rewrite !lookup_insert_ne by done. apply IH.
Qed.







End LimiterClaims.

Section LimiterExamples.
Import Limiter Examples.
Local Open Scope Q_scope.



End LimiterExamples.

(** * Further properties *)

(** ** What goes through a pool *)
Section LedgerFacts.
Import Pool Controller Ledger.

Variable process : string -> Item.M (option bool).

(** Counting a finished task: one more processed, at most one more
    successful or failed, and the worker does not keep the item. *)
Lemma resume_task_counts flag st r :
  let st' := fst (resume_task flag st r) in
  total_processed st' = total_processed st + 1
  /\ total_artworks st' = total_artworks st
  /\ successful st <= successful st' /\ failed st <= failed st'
  /\ successful st' + failed st' <= successful st + failed st + 1
  /\ forall artwork_id, snd (resume_task flag st r) <> Processing artwork_id.
Proof.
  unfold resume_task, loop_head, log_progress.
  destruct r as [b|e]; [|destruct (is_Exception e)]; simpl;
    repeat match goal with
           | |- context [if ?c then _ else _] => destruct c; simpl
           end;
    repeat split; try lia; done.
Qed.


Lemma busy_set ws i w p :
  ws !! i = Some w ->
  (busy (<[i:=at_pc p]> ws)
   + match w_pc w with Processing _ => 1 | _ => 0 end
   = busy ws + match p with Processing _ => 1 | _ => 0 end)%nat.
Proof.
  intros Hi. unfold busy.
  exact (sum_list_with_insert
           (fun w => match w_pc w with Processing _ => 1 | _ => 0 end)%nat
           ws i w (at_pc p) Hi).
Qed.

(** What one scheduling of a worker does to the books. *)
Lemma worker_ledger i s :
  let s' := worker process i s in
  total_artworks (stats s') = total_artworks (stats s)
  /\ successful (stats s) <= successful (stats s')
  /\ failed (stats s) <= failed (stats s')
  /\ successful (stats s') + failed (stats s') - total_processed (stats s')
     <= successful (stats s) + failed (stats s) - total_processed (stats s)
  /\ total_processed (stats s') + Z.of_nat (length (ids_in (queue s')))
       + Z.of_nat (busy (workers s'))
     = total_processed (stats s) + Z.of_nat (length (ids_in (queue s)))
       + Z.of_nat (busy (workers s))
  /\ total_processed (stats s) <= total_processed (stats s').
Proof.
  unfold worker. destruct (workers s !! i) as [w|] eqn:Hi; simpl; [|lia].
  pose proof (busy_set (workers s) i w) as Hb.
  destruct (w_pc w) eqn:Hpc; simpl.
  - destruct (w_cancel w); simpl;
      [specialize (Hb Exited Hi)
      |specialize (Hb (loop_head (shutdown_event s)) Hi)];
      unfold loop_head in *; destruct (shutdown_event s); simpl in *; lia.
  - destruct (w_cancel w); simpl.
    + destruct (queue s) as [|[r|] q] eqn:Hq; simpl.
      * specialize (Hb Exited Hi). simpl in Hb. rewrite Hq. simpl. lia.
      * specialize (Hb (Processing r) Hi). simpl in Hb. lia.
      * specialize (Hb Exited Hi). simpl in Hb. lia.
    + destruct (queue s) as [|[r|] q] eqn:Hq; simpl.
      * specialize (Hb (loop_head (shutdown_event s)) Hi).
        unfold loop_head in *. rewrite Hq.
        destruct (shutdown_event s); simpl in *; lia.
      * specialize (Hb (Processing r) Hi). simpl in Hb. lia.
      * specialize (Hb Exited Hi). simpl in Hb. lia.
  - set (r := if w_cancel w then _ else _).
    pose proof (resume_task_counts (shutdown_event s) (stats s) r)
      as (Ht & Ha & Hs & Hf & Hsf & Hp).
    destruct (resume_task (shutdown_event s) (stats s) r) as [st' p] eqn:Hr.
    simpl in *. specialize (Hb p Hi).
    assert (match p with Processing _ => 1 | _ => 0 end = 0)%nat as Hp0
      by (destruct p; try done; by destruct (Hp artwork_id0)).
    rewrite Hp0 in Hb. lia.
  - lia.
Qed.

Lemma step_ledger ev s :
  let s' := step process ev s in
  total_artworks (stats s') = total_artworks (stats s)
  /\ successful (stats s) <= successful (stats s')
  /\ failed (stats s) <= failed (stats s')
  /\ successful (stats s') + failed (stats s') - total_processed (stats s')
     <= successful (stats s) + failed (stats s) - total_processed (stats s)
  /\ total_processed (stats s') + Z.of_nat (length (ids_in (queue s')))
       + Z.of_nat (busy (workers s'))
     = total_processed (stats s) + Z.of_nat (length (ids_in (queue s)))
       + Z.of_nat (busy (workers s))
  /\ total_processed (stats s) <= total_processed (stats s').
Proof.
  destruct ev as [i|]; simpl; [apply worker_ledger|].
  unfold _shutdown. destruct (shutdown_event s); simpl;
    rewrite ?busy_cancel; lia.
Qed.

Lemma run_ledger evs : forall s,
  let s' := run process evs s in
  total_artworks (stats s') = total_artworks (stats s)
  /\ successful (stats s) <= successful (stats s')
  /\ failed (stats s) <= failed (stats s')
  /\ successful (stats s') + failed (stats s') - total_processed (stats s')
     <= successful (stats s) + failed (stats s) - total_processed (stats s)
  /\ total_processed (stats s') + Z.of_nat (length (ids_in (queue s')))
       + Z.of_nat (busy (workers s'))
     = total_processed (stats s) + Z.of_nat (length (ids_in (queue s)))
       + Z.of_nat (busy (workers s))
  /\ total_processed (stats s) <= total_processed (stats s').
Proof.
  induction evs as [|ev evs IH]; intros s; simpl; [lia|].
  specialize (IH (step process ev s)). simpl in IH.
  pose proof (step_ledger ev s) as H. simpl in H. lia.
Qed.

Lemma ids_in_sentinels n : ids_in (replicate n None) = [].
Proof. unfold ids_in. induction n as [|n IH]; [done|]. simpl. exact IH. Qed.

Lemma ids_in_some (l : list string) : ids_in (Some <$> l) = l.
Proof.
  unfold ids_in. induction l as [|x l IH]; [done|].
  rewrite fmap_cons. simpl. by f_equal.
Qed.

Lemma ids_in_app q1 q2 : ids_in (q1 ++ q2) = ids_in q1 ++ ids_in q2.
Proof. unfold ids_in. apply omap_app. Qed.

(** What [crawl_museum] puts in the queue. *)
Lemma make_pool_ids m n ids :
  ids_in (queue (make_pool m n ids))
  = if shutting_down m then []
    else cap_ids (max_artworks_per_museum m) ids.
Proof.
  simpl. rewrite ids_in_app, ids_in_sentinels, app_nil_r.
  unfold enqueue_ids. destruct (shutting_down m); [done|apply ids_in_some].
Qed.

Lemma taken_worker i s :
  taken i s ++ ids_in (queue (worker process i s)) = ids_in (queue s).
Proof.
  unfold taken, worker. destruct (workers s !! i) as [w|]; [|done].
  destruct (w_pc w); try done.
  - by destruct (w_cancel w).
  - destruct (w_cancel w);
      destruct (queue s) as [|[r|] q] eqn:Hq; simpl; rewrite ?Hq; done.
  - by destruct (resume_task _ _ _).
Qed.

Lemma dequeued_split evs : forall s,
  dequeued process evs s ++ ids_in (queue (run process evs s))
  = ids_in (queue s).
Proof.
  induction evs as [|ev evs IH]; intros s; [done|].
  simpl. rewrite <- app_assoc, IH. destruct ev as [i|]; simpl.
  - apply taken_worker.
  - unfold _shutdown. by destruct (shutdown_event s).
Qed.

(** X1: under every schedule, with or without a shutdown and whatever the
    processing of an item does, the statistics of a pool started by
    [crawl_museum] stay consistent: [successful + failed] never exceeds
    [total_processed]; the items processed, in flight and still queued add
    up to the items enqueued; [total_processed] never exceeds the number of
    identifiers discovered, which [total_artworks] keeps. *)
Theorem X1_accounting_under_any_schedule m n ids evs :
  let s0 := make_pool m n ids in
  let s := run process evs s0 in
  0 <= successful (stats s) /\ 0 <= failed (stats s)
  /\ successful (stats s) + failed (stats s) <= total_processed (stats s)
  /\ total_processed (stats s) + Z.of_nat (length (ids_in (queue s)))
       + Z.of_nat (busy (workers s))
     = Z.of_nat (length (ids_in (queue s0)))
  /\ total_processed (stats s) <= Z.of_nat (length ids)
  /\ total_artworks (stats s) = Z.of_nat (length ids).
Proof.
  intros s0 s.
  pose proof (run_ledger evs s0) as (Ha & Hs & Hf & Hsf & Hsum & Ht).
  fold s in Ha, Hs, Hf, Hsf, Hsum, Ht.
  assert (busy (workers s0) = 0%nat) as Hb0
    by (simpl; apply busy_replicate_created).
  rewrite Hb0 in Hsum.
  pose proof (make_pool_ids m n ids) as Hids. fold s0 in Hids.
  pose proof (cap_ids_le (max_artworks_per_museum m) ids) as Hcap.
  assert (length (ids_in (queue s0)) <= length ids)%nat as Hle
    by (rewrite Hids; destruct (shutting_down m); simpl; lia).
  simpl in *. repeat split; lia.
Qed.

(** X3: when a run completes with nothing cancelled, the queue is empty
    (every identifier and every sentinel has been consumed) and the
    identifiers dequeued are exactly the enqueued ones, in order. *)
Theorem X3_completed_run_drains_queue m n ids evs :
  (forall artwork_id e,
     snd (process artwork_id) = Raise e -> is_Exception e = true) ->
  Forall (fun ev => ev <> Shutdown) evs ->
  shutting_down m = false -> 0 < n ->
  let s := run process evs (make_pool m n ids) in
  all_exited s = true ->
  queue s = []
  /\ dequeued process evs (make_pool m n ids)
     = cap_ids (max_artworks_per_museum m) ids.
Proof.
  intros Hproc Hevs Hflag Hn s Hall.
  assert (run_inv (cap_ids (max_artworks_per_museum m) ids) s) as Hinv.
  { apply run_inv_run; [done|done|]. by apply make_pool_run_inv. }
  destruct Hinv as [_ _ (rest & Hq & _ & Hrest) _ _ _].
  rewrite (all_exited_live s Hall) in Hq, Hrest.
  assert (rest = []) as ->.
  { apply Hrest. unfold s. rewrite run_length. simpl.
    rewrite length_replicate. lia. }
  simpl in Hq. split; [done|].
  pose proof (dequeued_split evs (make_pool m n ids)) as Hd.
  fold s in Hd. rewrite Hq, make_pool_ids, Hflag in Hd.
  simpl in Hd. by rewrite app_nil_r in Hd.
Qed.

(** *** After the shutdown event *)

Lemma owed_insert ws i w :
  ws !! i = Some w -> forall w',
  (owed (<[i:=w']> ws)
   + match w_pc w with
     | Dequeuing => 1
     | Processing _ => if w_cancel w then 0 else 1
     | _ => 0
     end
   = owed ws
     + match w_pc w' with
       | Dequeuing => 1
       | Processing _ => if w_cancel w' then 0 else 1
       | _ => 0
       end)%nat.
Proof.
  intros H w'. unfold owed.
  exact (sum_list_with_insert
           (fun w => match w_pc w with
                     | Dequeuing => 1
                     | Processing _ => if w_cancel w then 0 else 1
                     | _ => 0
                     end)%nat ws i w w' H).
Qed.

(** With the event set, an item is only counted successful or failed by a
    worker that was owed one. *)
Lemma owed_worker i s :
  shutdown_event s = true ->
  successful (stats (worker process i s)) + failed (stats (worker process i s))
    + Z.of_nat (owed (workers (worker process i s)))
  <= successful (stats s) + failed (stats s) + Z.of_nat (owed (workers s)).
Proof.
  intros Hflag. unfold worker.
  destruct (workers s !! i) as [w|] eqn:Hi; [|lia].
  pose proof (owed_insert (workers s) i w Hi) as Ho.
  destruct (w_pc w) eqn:Hpc.
  - rewrite Hflag. simpl.
    specialize (Ho (at_pc Exited)). simpl in Ho.
    destruct (w_cancel w); simpl; lia.
  - destruct (w_cancel w);
      destruct (queue s) as [|[artwork_id|] q]; simpl.
    + specialize (Ho (at_pc Exited)). simpl in Ho. lia.
    + specialize (Ho (at_pc (Processing artwork_id))). simpl in Ho. lia.
    + specialize (Ho (at_pc Exited)). simpl in Ho. lia.
    + rewrite Hflag. simpl. specialize (Ho (at_pc Exited)). simpl in Ho. lia.
    + specialize (Ho (at_pc (Processing artwork_id))). simpl in Ho. lia.
    + specialize (Ho (at_pc Exited)). simpl in Ho. lia.
  - rewrite Hflag.
    pose proof (resume_task_stops
                  (stats s)
                  (if w_cancel w then Raise CancelledError
                   else snd (process artwork_id))) as Hex.
    pose proof (resume_task_counts true (stats s)
                  (if w_cancel w then Raise CancelledError
                   else snd (process artwork_id)))
      as (_ & _ & _ & _ & Hsf & _).
    destruct (w_cancel w) eqn:Hc.
    + (* cancelled in flight: counted as processed only *)
      simpl. specialize (Ho (at_pc Exited)). simpl in Ho.
      unfold at_pc in *. lia.
    + destruct (resume_task true (stats s) (snd (process artwork_id)))
        as [st p]. simpl in *. subst p.
      specialize (Ho (at_pc Exited)). simpl in Ho. lia.
  - lia.
Qed.

Lemma owed_run evs : forall s,
  shutdown_event s = true ->
  successful (stats (run process evs s)) + failed (stats (run process evs s))
    + Z.of_nat (owed (workers (run process evs s)))
  <= successful (stats s) + failed (stats s) + Z.of_nat (owed (workers s)).
Proof.
  induction evs as [|ev evs IH]; intros s Hflag; [simpl; lia|].
  simpl.
  assert (shutdown_event (step process ev s) = true) as Hflag'.
  { destruct ev as [i|]; simpl; [by rewrite worker_flag|].
    unfold _shutdown. by rewrite Hflag. }
  specialize (IH (step process ev s) Hflag').
  assert (successful (stats (step process ev s))
            + failed (stats (step process ev s))
            + Z.of_nat (owed (workers (step process ev s)))
          <= successful (stats s) + failed (stats s)
             + Z.of_nat (owed (workers s))) as Hstep.
  { destruct ev as [i|]; simpl; [by apply owed_worker|].
    unfold _shutdown. rewrite Hflag. lia. }
  lia.
Qed.

Lemma ids_in_length q : (length (ids_in q) <= length q)%nat.
Proof.
  induction q as [|[x|] q IH]; [done| |].
  - change (ids_in (Some x :: q)) with (x :: ids_in q). simpl. lia.
  - change (ids_in (None :: q)) with (ids_in q). simpl. lia.
Qed.




(** X4: the shutdown event is set at most once and never unset: once
    [_shutdown] has run, the event stays set under every schedule, and a
    repeated [_shutdown] changes nothing. *)
Theorem X4_shutdown_is_idempotent evs s :
  shutdown_event (run process evs (_shutdown s)) = true
  /\ _shutdown (run process evs (_shutdown s)) = run process evs (_shutdown s)
  /\ _shutdown (_shutdown s) = _shutdown s.
Proof.
  assert (shutdown_event (_shutdown s) = true) as H0
    by (unfold _shutdown; by destruct (shutdown_event s) eqn:H).
  assert (forall evs s, shutdown_event s = true ->
            shutdown_event (run process evs s) = true) as Hmono.
  { clear. intros evs. induction evs as [|ev evs IH]; intros s Hs; [done|].
    simpl. apply IH. destruct ev as [i|]; simpl.
    - by rewrite worker_flag.
    - unfold _shutdown. by rewrite Hs. }
  split; [by apply Hmono|].
  split; unfold _shutdown at 1.
  - by rewrite Hmono.
  - by rewrite H0.
Qed.

(** X5: after the shutdown event the counters can only move within what
    was under way when it was set.  [successful] and [failed] never
    decrease, and together they grow by at most the number of workers that
    were owed an item: those suspended at the dequeue, and those whose item
    was in flight with no cancellation pending.  [total_processed] grows by
    at most the items in flight plus one for each worker suspended at the
    dequeue, and at most that many identifiers leave the queue. *)
Theorem X5_counters_bounded_after_shutdown m n ids evs1 evs2 :
  let s1 := run process evs1 (make_pool m n ids) in
  let s2 := run process evs2 s1 in
  shutdown_event s1 = true ->
  successful (stats s1) <= successful (stats s2)
  /\ failed (stats s1) <= failed (stats s2)
  /\ successful (stats s2) + failed (stats s2)
     <= successful (stats s1) + failed (stats s1)
        + Z.of_nat (owed (workers s1))
  /\ total_processed (stats s1) <= total_processed (stats s2)
     <= total_processed (stats s1) + Z.of_nat (busy (workers s1))
        + Z.of_nat (pending (workers s1))
  /\ (length (ids_in (queue s1))
      <= length (ids_in (queue s2)) + pending (workers s1))%nat.
Proof.
  intros s1 s2 Hflag.
  assert (shutdown_inv s1) as Hinv
    by apply shutdown_inv_run, make_pool_shutdown_inv.
  destruct (stopped_run process evs2 s1 Hflag Hinv)
    as (_ & (taken & Hq & Hp) & _).
  pose proof (owed_run evs2 s1 Hflag) as Ho.
  pose proof (run_ledger evs2 s1) as (_ & Hs & Hf & _ & Hsum & Ht).
  fold s2 in Hq, Hp, Ho, Hs, Hf, Hsum, Ht.
  assert (length (ids_in (queue s1))
          <= length (ids_in (queue s2)) + pending (workers s1))%nat as Hids.
  { rewrite Hq, ids_in_app, length_app.
    pose proof (ids_in_length taken). lia. }
  repeat split; lia.
Qed.

(** X6: after the shutdown event every worker returns within two
    schedulings: a worker that was not started, or whose item was in flight,
    returns the next time it is scheduled; a worker suspended at the
    dequeue returns then, or is handed an entry and returns the time
    after.  Once each worker has been scheduled twice, the controller's
    [gather] over its workers is complete. *)
Theorem X6_workers_return_after_shutdown m n ids evs1 evs2 :
  let s1 := run process evs1 (make_pool m n ids) in
  shutdown_event s1 = true ->
  (forall i, (i < length (workers s1))%nat -> (2 <= runs i evs2)%nat) ->
  all_exited (run process evs2 s1) = true.
Proof.
  intros s1 Hflag Hcover.
  assert (shutdown_inv s1) as Hinv
    by apply shutdown_inv_run, make_pool_shutdown_inv.
  unfold all_exited. apply forallb_forall. intros w' Hin.
  apply list_elem_of_In, list_elem_of_lookup_1 in Hin as [i Hi].
  assert (i < length (workers s1))%nat as Hlen.
  { rewrite <- (run_length process evs2 s1). by eapply lookup_lt_Some. }
  destruct (lookup_lt_is_Some_2 _ _ Hlen) as [w Hw].
  destruct (rank_run process evs2 s1 i w Hflag Hinv Hw) as (w'' & Hw'' & Hr).
  rewrite Hi in Hw''. injection Hw'' as <-.
  specialize (Hcover i Hlen).
  assert (rank w' = 0)%nat as H0.
  { assert (rank w <= 2)%nat by (unfold rank; destruct (w_pc w); lia). lia. }
  unfold rank in H0. unfold exited. by destruct (w_pc w').
Qed.

(** X7: the periodic progress log of a worker never divides by zero:
    whenever an item is in flight in a pool started by [crawl_museum],
    [total_artworks] is positive, so [_log_progress] returns whatever the
    outcome of the item. *)
Theorem X7_progress_log_never_raises m n ids evs i w artwork_id r :
  let s := run process evs (make_pool m n ids) in
  workers s !! i = Some w -> w_pc w = Processing artwork_id ->
  0 < total_artworks (stats s)
  /\ log_progress (fst (resume_task (shutdown_event s) (stats s) r)) = Ret tt.
Proof.
  intros s Hi Hpc.
  pose proof (run_ledger evs (make_pool m n ids)) as (Ha & _ & _ & _ & Hsum & Ht).
  fold s in Ha, Hsum, Ht.
  pose proof (sum_list_with_lookup
                (fun w => match w_pc w with Processing _ => 1 | _ => 0 end)%nat
                (workers s) i w Hi) as Hge.
  fold (busy (workers s)) in Hge. cbv beta in Hge. rewrite Hpc in Hge.
  pose proof (make_pool_ids m n ids) as Hids.
  pose proof (cap_ids_le (max_artworks_per_museum m) ids) as Hcap.
  assert (length (ids_in (queue (make_pool m n ids))) <= length ids)%nat as Hle
    by (rewrite Hids; destruct (shutting_down m); simpl; lia).
  assert (busy (workers (make_pool m n ids)) = 0%nat) as Hb0
    by (simpl; apply busy_replicate_created).
  rewrite Hb0 in Hsum.
  assert (0 < total_artworks (stats s)) as Hpos by (simpl in *; lia).
  split; [done|].
  pose proof (resume_task_counts (shutdown_event s) (stats s) r)
    as (_ & Hta & _).
  unfold log_progress. rewrite Hta.
  by rewrite (proj2 (Z.eqb_neq _ 0)) by lia.
Qed.

End LedgerFacts.

(** ** More on item processing *)
Section TallyFacts.
Import Item Tally.

Context {Raw Data : Type}.
Variable E : env Raw Data.
Variable max_retries : Z.
Variable artwork_id : string.

Local Abbreviation body := (try_body E artwork_id).
Local Abbreviation loop := (attempt_loop E max_retries artwork_id).
Local Abbreviation process := (process_artwork E max_retries artwork_id).


Lemma fetches_app tr1 tr2 :
  fetches (tr1 ++ tr2) = (fetches tr1 + fetches tr2)%nat.
Proof. apply sum_list_with_app. Qed.



(** X9: with [max_retries] at most 0 the retry loop is empty: nothing is
    requested, transformed or persisted, the call returns [None], and the
    worker counts the item as successful: [successful] and
    [total_processed] grow by one and [failed] is unchanged. *)
Theorem X9_no_attempt_counts_as_success :
  max_retries <= 0 -> sem_enter E = Ret tt ->
  process = ([SemAcquire; SemRelease], Ret None)
  /\ forall flag st,
       let st' := fst (Pool.resume_task flag st (snd process)) in
       Pool.successful st' = Pool.successful st + 1
       /\ Pool.failed st' = Pool.failed st
       /\ Pool.total_processed st' = Pool.total_processed st + 1.
Proof.
  intros Hmr Hsem.
  assert (process = ([SemAcquire; SemRelease], Ret None)) as Hp.
  { unfold process_artwork. rewrite Hsem, seqZ_nil by done. done. }
  split; [done|]. intros flag st st'. subst st'. rewrite Hp. cbn [snd].
  by rewrite worker_counts_return.
Qed.

(** A failing attempt whose backoff sleep is interrupted. *)
Lemma loop_sleep_raises a rest e e' :
  snd (body a) = Raise e -> is_Exception e = true -> a <> max_retries - 1 ->
  backoff_sleep E a = Raise e' ->
  loop (a :: rest) = (fst (body a) ++ [Sleep (2 ^ a)], Raise e').
Proof.
  intros H He Ha Hs. simpl. destruct (body a) as [tr r]; simpl in *. subst r.
  rewrite He, (proj2 (Z.eqb_neq _ _) Ha). unfold bind, emit. by rewrite Hs.
Qed.

(** X10: a cancellation is never retried.  If an attempt raises
    [CancelledError], or if the backoff sleep after a failed attempt does,
    the call ends at once with that exception, having released the
    semaphore; the worker then counts the item as processed only
    ([total_processed] grows by one, [successful] and [failed] are
    unchanged) and leaves its loop. *)
Theorem X10_cancellation_is_not_retried (k : Z) :
  0 <= k < max_retries -> sem_enter E = Ret tt ->
  (forall j, 0 <= j < k ->
     fails E artwork_id j /\ backoff_sleep E j = Ret tt) ->
  let processed_only :=
    forall flag st,
      let st' := fst (Pool.resume_task flag st (snd process)) in
      Pool.total_processed st' = Pool.total_processed st + 1
      /\ Pool.successful st' = Pool.successful st
      /\ Pool.failed st' = Pool.failed st
      /\ snd (Pool.resume_task flag st (snd process)) = Pool.Exited in
  (forall e, snd (body k) = Raise e -> is_Exception e = false ->
     process = (SemAcquire :: (retries E artwork_id 0 k ++ fst (body k))
                           ++ [SemRelease], Raise e)
     /\ processed_only)
  /\ (forall e e', snd (body k) = Raise e -> is_Exception e = true ->
        k <> max_retries - 1 -> backoff_sleep E k = Raise e' ->
        process = (SemAcquire ::
                     (retries E artwork_id 0 k
                        ++ fst (body k) ++ [Sleep (2 ^ k)])
                     ++ [SemRelease], Raise e')
        /\ (is_Exception e' = false -> processed_only)).
Proof.
  intros Hk Hsem Hpre processed_only. subst processed_only.
  pose proof (process_prefix E max_retries artwork_id k Hk Hsem Hpre) as Hp.
  assert (forall e flag st,
            is_Exception e = false ->
            Pool.resume_task flag st (@Raise (option bool) e)
            = (Pool.incr_total_processed st, Pool.Exited)) as Hw.
  { intros e flag st He. unfold Pool.resume_task. by rewrite He. }
  split.
  - intros e He Hexc.
    assert (process
            = (SemAcquire :: (retries E artwork_id 0 k ++ fst (body k))
                 ++ [SemRelease], Raise e)) as Heq.
    { rewrite Hp. by rewrite (loop_escapes _ _ _ _ _ e). }
    split; [done|]. intros flag st st'. subst st'.
    rewrite Heq. cbn [snd]. by rewrite Hw.
  - intros e e' He Hexc Hlast Hs.
    assert (process
            = (SemAcquire ::
                 (retries E artwork_id 0 k ++ fst (body k) ++ [Sleep (2 ^ k)])
                 ++ [SemRelease], Raise e')) as Heq.
    { rewrite Hp. by rewrite (loop_sleep_raises _ _ e e'). }
    split; [done|]. intros He' flag st st'. subst st'.
    rewrite Heq. cbn [snd]. by rewrite Hw.
Qed.

End TallyFacts.

(** ** More on the controller and the orchestrator *)
Section ControllerMore.
Import Pool Controller Orchestra Ledger.

Variable process : string -> Item.M (option bool).

(** X11: when discovery returns no identifier, the workers are started and
    return, and the final report logs its header and counters and then
    divides by [total_artworks = 0]: the percentage line is never logged,
    the controller logs an error, closes the session and ends with
    [ZeroDivisionError].  With at least one identifier discovered a
    completed run logs the whole report and ends normally. *)
Theorem X11_empty_discovery_raises m c evs ids o :
  0 <= active_museums m ->
  init_session c = Ret tt -> get_artwork_ids c = Ret ids ->
  crawl_museum process m c evs = Some o ->
  o_result o = match ids with
               | [] => Raise ZeroDivisionError
               | _ :: _ => Ret tt
               end
  /\ exists n,
       o_trace o
       = [ConfigureRate; InitSession; Discover; StartWorkers n;
          LogFinalCounts]
         ++ match ids with
            | [] => [LogCrawlError]
            | _ :: _ => [LogFinalProgress]
            end
         ++ [CloseSession].
Proof.
  intros Ha Hinit Hids Hcrawl. unfold crawl_museum in Hcrawl.
  rewrite (crawl_enter_ok m Ha), Hinit, Hids in Hcrawl.
  set (nw := Z.min _ _) in *. set (m1 := set_per_museum _ _) in *.
  set (p := run process evs (make_pool m1 nw ids)) in *.
  destruct (all_exited p); [|done].
  pose proof (run_ledger process evs (make_pool m1 nw ids)) as (Hta & _).
  fold p in Hta. simpl in Hta.
  unfold log_museum_stats in Hcrawl. rewrite Hta in Hcrawl.
  destruct ids as [|x ids]; simpl in Hcrawl; injection Hcrawl as <-; simpl;
    (split; [done|by exists (Z.to_nat nw)]).
Qed.

Lemma life_enter_all names : forall m locals,
  0 <= active_museums m ->
  active_museums (fst (life_run (Enter <$> names) (m, locals)))
  = active_museums m + Z.of_nat (length names)
  /\ forall k name,
       NoDup names -> names !! k = Some name ->
       snd (life_run (Enter <$> names) (m, locals)) !! name
       = Some (Z.min (Z.max 1 (max_concurrent_requests m
                               / (active_museums m + Z.of_nat k + 1)))
                     (max_concurrent_requests m)).
Proof.
  induction names as [|n0 names IH]; intros m locals Ha.
  { split; [simpl; lia|]. by intros k name _ ?. }
  set (nw := Z.min (Z.max 1 (max_concurrent_requests m
                             / (active_museums m + 1)))
                   (max_concurrent_requests m)).
  set (m' := set_per_museum
               (Z.max 1 (max_concurrent_requests m / (active_museums m + 1)))
               (set_active (active_museums m + 1) m)).
  assert (life_step (Enter n0) (m, locals) = (m', <[n0 := nw]> locals)) as Hstep.
  { unfold life_step. cbn [fst snd]. by rewrite (crawl_enter_ok m Ha). }
  change (life_run (Enter <$> n0 :: names) (m, locals))
    with (life_run (Enter <$> names) (life_step (Enter n0) (m, locals))).
  rewrite Hstep.
  destruct (IH m' (<[n0 := nw]> locals)) as [Hact Hall]; [simpl; lia|].
  split; [rewrite Hact; simpl; lia|].
  intros [|k] name Hnd Hk; simpl in Hk.
  - injection Hk as ->. apply NoDup_cons in Hnd as [Hnotin _].
    rewrite (life_run_keeps name (Enter <$> names)).
    + cbn [snd]. rewrite lookup_insert_eq. unfold nw.
      by replace (active_museums m + Z.of_nat 0 + 1)
        with (active_museums m + 1) by lia.
    + apply Forall_fmap, Forall_forall. intros x Hx. simpl. congruence.
  - apply NoDup_cons in Hnd as [_ Hnd].
    rewrite (Hall k name Hnd Hk). cbn [m' set_per_museum set_active
      max_concurrent_requests active_museums].
    by replace (active_museums m + 1 + Z.of_nat k + 1)
      with (active_museums m + Z.of_nat (S k) + 1) by lia.
Qed.

(** X13: sources started together get decreasing worker counts: with a
    concurrency limit [L >= 1] and no source active before, the [k]-th
    source started (counting from 0) gets [max(1, L // (k + 1))] workers, so
    the first one alone already gets [L] of them; afterwards all of them
    are counted active. *)
Theorem X13_workers_of_sources_started_together m names k name :
  active_museums m = 0 -> 1 <= max_concurrent_requests m ->
  NoDup names -> names !! k = Some name ->
  let s := life_run (Enter <$> names) (m, ∅) in
  snd s !! name
  = Some (Z.max 1 (max_concurrent_requests m / (Z.of_nat k + 1)))
  /\ active_museums (fst s) = Z.of_nat (length names).
Proof.
  intros Ha HL Hnd Hk s.
  destruct (life_enter_all names m ∅) as [Hact Hall]; [lia|].
  fold s in Hact, Hall. split; [|lia].
  rewrite (Hall k name Hnd Hk), Ha. f_equal.
  assert (max_concurrent_requests m / (0 + Z.of_nat k + 1)
          <= max_concurrent_requests m)
    by (apply Z.div_le_upper_bound; nia).
  replace (0 + Z.of_nat k + 1) with (Z.of_nat k + 1) in * by lia. lia.
Qed.

Lemma gather_all_return results order : forall seen,
  (forall j, j ∈ order ->
     exists o, results !! j = Some (Some o) /\ o_result o = Ret tt) ->
  gather results order seen
  = (seen ++ order,
     if decide (length (seen ++ order) = length results) then Some (Ret tt)
     else None).
Proof.
  induction order as [|j order IH]; intros seen Hall; simpl.
  - by rewrite app_nil_r.
  - destruct (Hall j) as (o & -> & ->); [by left|].
    rewrite IH by (intros; apply Hall; by right).
    by rewrite <- app_assoc.
Qed.

(** X14: when every source's controller returns normally, [run_crawlers]
    returns normally once all of them have finished, in whatever order they
    finish; and a [CancelledError] coming out of a controller is swallowed:
    [run_crawlers] then returns normally as well, without waiting for the
    controllers that are still running. *)
Theorem X14_run_crawlers_returns_normally m srcs :
  (forall order,
     NoDup order ->
     (forall j, j ∈ order <-> (j < length srcs)%nat) ->
     (forall j, j ∈ order ->
        exists o, tasks process m srcs !! j = Some (Some o)
                  /\ o_result o = Ret tt) ->
     exists rep,
       run_crawlers process m srcs order = Some rep
       /\ r_result rep = Ret tt /\ r_finished rep = order)
  /\ (forall before i after o,
        (forall j, j ∈ before ->
           exists o', tasks process m srcs !! j = Some (Some o')
                      /\ o_result o' = Ret tt) ->
        tasks process m srcs !! i = Some (Some o) ->
        o_result o = Raise CancelledError ->
        exists rep,
          run_crawlers process m srcs (before ++ i :: after) = Some rep
          /\ r_result rep = Ret tt /\ r_finished rep = before ++ [i]).
Proof.
  split.
  - intros order Hnd Hall Hret. unfold run_crawlers.
    rewrite gather_all_return by done. simpl.
    assert (length order = length srcs) as Hlen.
    { transitivity (length (seq 0 (length srcs))); [|apply length_seq].
      apply Permutation_length, NoDup_Permutation;
        [done|apply NoDup_seq|].
      intros j. rewrite Hall, elem_of_seq. lia. }
    unfold tasks. rewrite length_imap.
    rewrite decide_True by done. by eexists.
  - intros before i after o Hb Hi Ho. unfold run_crawlers.
    rewrite (gather_first_raise _ before [] i after o CancelledError)
      by done.
    by eexists.
Qed.

End ControllerMore.

(** ** The HTTP session *)
Section SessionFacts.
Import Session.

Lemma created_app tr1 tr2 :
  created (tr1 ++ tr2) = (created tr1 + created tr2)%nat.
Proof. apply sum_list_with_app. Qed.
Lemma closed_app tr1 tr2 :
  closed (tr1 ++ tr2) = (closed tr1 + closed tr2)%nat.
Proof. apply sum_list_with_app. Qed.

(** X15: whatever sequence of [init_session] and [close_session] calls is
    made on a crawler, at most one session is open at any time and none is
    lost: the sessions created are those closed, plus the open one if there
    is one.  In particular a repeated [init_session] creates nothing and a
    repeated [close_session] closes nothing. *)
Theorem X15_sessions_are_balanced calls s :
  let '(s', tr) := run calls s in
  (created tr + match s with Open => 1 | NoSession => 0 end
   = closed tr + match s' with Open => 1 | NoSession => 0 end)%nat
  /\ fst (init_session (fst (init_session s))) = fst (init_session s)
  /\ snd (init_session (fst (init_session s))) = []
  /\ forall closing,
       close_session closing (fst (fst (close_session (Ret tt) s)))
       = (NoSession, [], Ret tt).
Proof.
  assert (let '(s', tr) := run calls s in
          (created tr + match s with Open => 1 | NoSession => 0 end
           = closed tr + match s' with Open => 1 | NoSession => 0 end)%nat)
    as Hbal.
  { revert s. induction calls as [|c calls IH]; intros s; simpl.
    - by destruct s.
    - destruct (step c s) as [s1 tr1] eqn:Hstep.
      specialize (IH s1). destruct (run calls s1) as [s2 tr2].
      rewrite created_app, closed_app.
      destruct c as [|[[]|e]], s; simpl in Hstep;
        injection Hstep as <- <-; simpl in *; lia. }
  destruct (run calls s) as [s' tr].
  split; [exact Hbal|]. by destruct s.
Qed.

End SessionFacts.

(** ** More on the rate limiter *)
Section LimiterMore.
Import Limiter.
Local Open Scope Q_scope.
(** X16: sources are throttled independently: a step of a call of
    [acquire] for one source changes neither the lock, nor the last
    instant, nor the completed acquisitions of any other source. *)
Theorem X16_sources_are_independent name i late s c :
  0 <= late -> callers s !! i = Some c -> c_name c <> name ->
  _locks (limiter (acquire i late s)) !! name = _locks (limiter s) !! name
  /\ _last_check (limiter (acquire i late s)) !! name
     = _last_check (limiter s) !! name
  /\ instants name (completed (acquire i late s))
     = instants name (completed s).
Proof.
  intros Hlate Hi Hn.
  destruct (frame_acquire name i late c s Hlate Hi Hn)
    as [H1 H2 H3 _ _ _ _].
  done.
Qed.

(** X17: at most one call per source is inside the critical section, and
    the lock of a source is held exactly while such a call sleeps: when no
    call of [acquire] for the source is sleeping, its lock is free. *)
Theorem X17_lock_held_only_while_sleeping
    cfg t0 names evs name calls period :
  Forall valid evs ->
  _rates (configured cfg) !! name = Some (calls, period) -> calls <> 0%Z ->
  let s := run evs (start (configured cfg) t0 names) in
  (_locks (limiter s) !! name = Some true
   <-> exists i wake,
         callers s !! i = Some {| c_name := name; c_pc := Sleeping wake |})
  /\ (_locks (limiter s) !! name = Some true
      \/ _locks (limiter s) !! name = Some false)
  /\ forall i j wi wj,
       callers s !! i = Some {| c_name := name; c_pc := Sleeping wi |} ->
       callers s !! j = Some {| c_name := name; c_pc := Sleeping wj |} ->
       i = j.
Proof.
  intros Hevs Hrate Hcalls s.
  destruct (configured_lookup cfg name) as [Hlock Hlast]; [by eexists|].
  assert (shape name (Float.div period (Float.of_int calls)) s) as Hsh.
  { eapply run_shape; [done|exact Hrate|done|done|].
    apply start_shape; [done|by eexists]. }
  pose proof (sh_lock _ _ _ Hsh) as Hl. unfold lock_inv in Hl.
  destruct (_locks (limiter s) !! name) as [[|]|]; [| |done].
  - destruct Hl as (i0 & wake & Hi0 & Huniq).
    split; [split; [intros _; by exists i0, wake|done]|].
    split; [by left|].
    intros i j wi wj Hi Hj.
    rewrite (Huniq i _ wi Hi eq_refl eq_refl).
    by rewrite (Huniq j _ wj Hj eq_refl eq_refl).
  - split; [split; [done|]|].
    + intros (i & wake & Hi). exfalso. by eapply (Hl i _ wake Hi).
    + split; [by right|].
      intros i j wi wj Hi _. exfalso. by eapply (Hl i _ wi Hi).
Qed.

(** A source that [acquire] never throttles: not configured, or configured
    with zero calls per period. *)
Lemma idle_step name ev s :
  valid ev ->
  (_rates (limiter s) !! name = None
   \/ exists period, _rates (limiter s) !! name = Some (0%Z, period)) ->
  (forall i c, callers s !! i = Some c -> c_name c = name ->
     c_pc c = Called \/ c_pc c = Returned \/ c_pc c = Raised ZeroDivisionError) ->
  instants name (completed s) = [] ->
  (forall i c, callers (step ev s) !! i = Some c -> c_name c = name ->
     c_pc c = Called \/ c_pc c = Returned \/ c_pc c = Raised ZeroDivisionError)
  /\ instants name (completed (step ev s)) = []
  /\ (_rates (limiter s) !! name = None ->
      forall i c, callers (step ev s) !! i = Some c -> c_name c = name ->
                  c_pc c = Raised ZeroDivisionError ->
                  callers s !! i = Some c).
Proof.
  intros Hev Hrate Hpcs Hlog. destruct ev as [dt|i late]; simpl; [by eauto|].
  destruct (callers s !! i) as [c|] eqn:Hi;
    [|by unfold acquire; rewrite Hi; eauto].
  destruct (decide (c_name c = name)) as [Hn|Hn].
  - unfold acquire. rewrite Hi, Hn.
    destruct (Hpcs i c Hi Hn) as [Hpc|[Hpc|Hpc]]; rewrite Hpc; [|by eauto..].
    destruct Hrate as [Hrate|[period Hrate]]; rewrite Hrate; simpl.
    + split; [|split; [done|]].
      * intros j c' Hj Hn'.
        apply list_lookup_insert_Some in Hj as [(-> & <- & _)|[_ Hj]];
          [by right; left|by eapply Hpcs].
      * intros _ j c' Hj Hn' Hp.
        by apply list_lookup_insert_Some in Hj as [(-> & <- & _)|[_ Hj]].
    + split; [|split; [done|]].
      * intros j c' Hj Hn'.
        apply list_lookup_insert_Some in Hj as [(-> & <- & _)|[_ Hj]];
          [by right; right|by eapply Hpcs].
      * intros Hnone. congruence.
  - destruct (frame_acquire name i late c s Hev Hi Hn)
      as [_ _ Hfl _ _ Hback _].
    split; [|split].
    + intros j c' Hj Hn'. eapply Hpcs; [by apply Hback|done].
    + by rewrite Hfl.
    + intros _ j c' Hj Hn' _. by apply Hback.
Qed.

(** X18: a source that is not configured is never throttled, and a source
    configured with zero calls per period makes every [acquire] fail: in
    both cases no acquisition is ever recorded for it and no call ever waits
    or sleeps; for an unconfigured source every call that has run has
    returned, for zero calls it has raised [ZeroDivisionError]. *)
Theorem X18_unthrottled_sources rl t0 names evs name :
  Forall valid evs ->
  let s := run evs (start rl t0 names) in
  (_rates rl !! name = None ->
   instants name (completed s) = []
   /\ forall i c, callers s !! i = Some c -> c_name c = name ->
                  c_pc c = Called \/ c_pc c = Returned)
  /\ (forall period, _rates rl !! name = Some (0%Z, period) ->
      instants name (completed s) = []
      /\ forall i c, callers s !! i = Some c -> c_name c = name ->
                     c_pc c = Called \/ c_pc c = Raised ZeroDivisionError).
Proof.
  intros Hevs s.
  assert (forall evs s0,
            Forall valid evs ->
            (forall i c, callers s0 !! i = Some c -> c_name c = name ->
                         c_pc c = Called) ->
            instants name (completed s0) = [] ->
            (_rates (limiter s0) !! name = None ->
             instants name (completed (run evs s0)) = []
             /\ forall i c, callers (run evs s0) !! i = Some c ->
                            c_name c = name ->
                            c_pc c = Called \/ c_pc c = Returned)
            /\ (forall period,
                  _rates (limiter s0) !! name = Some (0%Z, period) ->
                  instants name (completed (run evs s0)) = []
                  /\ forall i c, callers (run evs s0) !! i = Some c ->
                                 c_name c = name ->
                                 c_pc c = Called
                                 \/ c_pc c = Raised ZeroDivisionError)) as H.
  { clear. intros evs s0 Hevs Hinit Hlog. split.
    - intros Hrate.
      assert (instants name (completed (run evs s0)) = []
              /\ (forall i c, callers (run evs s0) !! i = Some c ->
                              c_name c = name ->
                              c_pc c = Called \/ c_pc c = Returned)
              /\ _rates (limiter (run evs s0)) !! name = None) as (? & ? & _);
        [|done].
      assert (forall i c, callers s0 !! i = Some c -> c_name c = name ->
                          c_pc c = Called \/ c_pc c = Returned) as Hpcs
        by (intros; left; eauto).
      clear Hinit. revert s0 Hevs Hpcs Hlog Hrate.
      induction evs as [|ev evs IH]; intros s0 Hevs Hpcs Hlog Hrate; [done|].
      apply Forall_cons in Hevs as [Hev Hevs]. simpl.
      destruct (idle_step name ev s0 Hev (or_introl Hrate)) as (H1 & H2 & H3);
        [intros i c Hi Hn; destruct (Hpcs i c Hi Hn); eauto|done|].
      apply IH; [done| |done|by rewrite step_rates].
      intros i c Hi Hn. destruct (H1 i c Hi Hn) as [?|[?|Hz]]; [eauto..|].
      specialize (H3 Hrate i c Hi Hn Hz).
      destruct (Hpcs i c H3 Hn); congruence.
    - intros period Hrate.
      assert (instants name (completed (run evs s0)) = []
              /\ (forall i c, callers (run evs s0) !! i = Some c ->
                              c_name c = name ->
                              c_pc c = Called
                              \/ c_pc c = Raised ZeroDivisionError)) as (? & ?);
        [|done].
      assert (forall i c, callers s0 !! i = Some c -> c_name c = name ->
                          c_pc c = Called \/ c_pc c = Raised ZeroDivisionError)
        as Hpcs by (intros; left; eauto).
      clear Hinit. revert s0 Hevs Hpcs Hlog Hrate.
      induction evs as [|ev evs IH]; intros s0 Hevs Hpcs Hlog Hrate; [done|].
      apply Forall_cons in Hevs as [Hev Hevs]. simpl.
      assert (forall i c, callers (step ev s0) !! i = Some c ->
                c_name c = name ->
                c_pc c = Called \/ c_pc c = Raised ZeroDivisionError) as Hpcs'.
      { intros i c Hi Hn. destruct ev as [dt|j late]; simpl in *;
          [by eapply Hpcs|].
        destruct (callers s0 !! j) as [cj|] eqn:Hj;
          [|unfold acquire in Hi; rewrite Hj in Hi; by eapply Hpcs].
        destruct (decide (c_name cj = name)) as [Hnj|Hnj].
        - unfold acquire in Hi. rewrite Hj, Hnj in Hi.
          destruct (Hpcs j cj Hj Hnj) as [Hpc|Hpc]; rewrite Hpc in Hi;
            [|by eapply Hpcs].
          rewrite Hrate in Hi. simpl in Hi.
          apply list_lookup_insert_Some in Hi as [(-> & <- & _)|[_ Hi]];
            [by right|by eapply Hpcs].
        - destruct (frame_acquire name j late cj s0 Hev Hj Hnj)
            as [_ _ _ _ _ Hback _].
          eapply Hpcs; [by apply Hback|done]. }
      destruct (idle_step name ev s0 Hev
                  (or_intror (ex_intro _ period Hrate))) as (_ & H2 & _);
        [intros i c Hi Hn; destruct (Hpcs i c Hi Hn); eauto|done|].
      apply IH; [done|done|done|by rewrite step_rates]. }
  apply (H evs (start rl t0 names) Hevs); [|done].
  intros i c Hi _. simpl in Hi. rewrite list_lookup_fmap in Hi.
  destruct (names !! i); by simplify_eq/=.
Qed.

End LimiterMore.

(** ** Concrete runs *)
Section MoreExamples.
Import Item Pool Controller Orchestra Ledger Examples Scenarios.

Lemma X3_completed_run_drains_queue_witness :
  queue (run (process_artwork env_ok 3) two_workers
           (make_pool (manager 2 (Some 1)) 2 ["a"; "b"])) = []
  /\ dequeued (process_artwork env_ok 3) two_workers
       (make_pool (manager 2 (Some 1)) 2 ["a"; "b"]) = ["a"].
Proof.
  apply (X3_completed_run_drains_queue (process_artwork env_ok 3)
           (manager 2 (Some 1)) 2 ["a"; "b"] two_workers);
    [ intros artwork_id e H; vm_compute in H; discriminate
    | repeat constructor; discriminate
    | reflexivity | lia | reflexivity ].
Defined.

(** Worker 0 has "a" in flight and worker 1 is suspended at the dequeue
    when the shutdown comes: afterwards "a" counts as processed only, and
    worker 1 is handed "b", which counts as successful. *)
Lemma X5_counters_bounded_after_shutdown_witness :
  let s1 := run (process_artwork env_ok 3)
              [Run 0%nat; Run 0%nat; Run 1%nat; Shutdown]
              (make_pool (manager 2 None) 2 ["a"; "b"]) in
  let s2 := run (process_artwork env_ok 3)
              [Run 0%nat; Run 1%nat; Run 1%nat] s1 in
  successful (stats s1) <= successful (stats s2)
  /\ failed (stats s1) <= failed (stats s2)
  /\ successful (stats s2) + failed (stats s2)
     <= successful (stats s1) + failed (stats s1)
        + Z.of_nat (owed (workers s1))
  /\ total_processed (stats s1) <= total_processed (stats s2)
     <= total_processed (stats s1) + Z.of_nat (busy (workers s1))
        + Z.of_nat (pending (workers s1))
  /\ (length (ids_in (queue s1))
      <= length (ids_in (queue s2)) + pending (workers s1))%nat.
Proof.
  apply (X5_counters_bounded_after_shutdown (process_artwork env_ok 3)
           (manager 2 None) 2 ["a"; "b"]
           [Run 0%nat; Run 0%nat; Run 1%nat; Shutdown]
           [Run 0%nat; Run 1%nat; Run 1%nat]).
  reflexivity.
Defined.

Lemma X6_workers_return_after_shutdown_witness :
  all_exited
    (run (process_artwork env_ok 3)
       [Run 0%nat; Run 1%nat; Run 1%nat; Run 0%nat]
       (run (process_artwork env_ok 3)
          [Run 0%nat; Run 0%nat; Run 1%nat; Shutdown]
          (make_pool (manager 2 None) 2 ["a"; "b"]))) = true.
Proof.
  apply (X6_workers_return_after_shutdown (process_artwork env_ok 3)
           (manager 2 None) 2 ["a"; "b"]
           [Run 0%nat; Run 0%nat; Run 1%nat; Shutdown]
           [Run 0%nat; Run 1%nat; Run 1%nat; Run 0%nat]); [reflexivity|].
  intros i Hi. vm_compute in Hi.
  destruct i as [|[|i]]; [vm_compute; lia|vm_compute; lia|lia].
Defined.

Lemma X7_progress_log_never_raises_witness :
  let s := run (process_artwork env_ok 3) [Run 0%nat; Run 0%nat]
             (make_pool (manager 1 None) 1 ["a"]) in
  0 < total_artworks (stats s)
  /\ log_progress
       (fst (resume_task (shutdown_event s) (stats s) (Ret (Some true))))
     = Ret tt.
Proof.
  apply (X7_progress_log_never_raises (process_artwork env_ok 3)
           (manager 1 None) 1 ["a"] [Run 0%nat; Run 0%nat] 0%nat
           (at_pc (Processing "a")) "a" (Ret (Some true)));
    reflexivity.
Defined.

Lemma X9_no_attempt_counts_as_success_witness :
  process_artwork env_ok 0 "a" = ([SemAcquire; SemRelease], Ret None).
Proof.
  destruct (X9_no_attempt_counts_as_success env_ok 0 "a") as [H _];
    [lia | reflexivity |].
  exact H.
Defined.

Lemma X10_cancellation_is_not_retried_witness :
  process_artwork env_cancelled 3 "a"
  = ([SemAcquire; RateAcquire; SemRelease], Raise CancelledError).
Proof.
  destruct (X10_cancellation_is_not_retried env_cancelled 3 "a" 0)
    as [H _]; [lia | reflexivity | intros j Hj; lia |].
  destruct (H CancelledError) as [Hp _]; [reflexivity | reflexivity |].
  exact Hp.
Defined.

Lemma X11_empty_discovery_raises_witness :
  exists o,
    crawl_museum (process_artwork env_ok 3) (manager 1 None) empty_crawler
      [Run 0%nat; Run 0%nat] = Some o
    /\ o_result o = Raise ZeroDivisionError.
Proof.
  eexists. split; [vm_compute; reflexivity|].
  edestruct (X11_empty_discovery_raises (process_artwork env_ok 3)
               (manager 1 None) empty_crawler [Run 0%nat; Run 0%nat] [])
    as [H _];
    [simpl; lia | reflexivity | reflexivity | vm_compute; reflexivity |].
  exact H.
Defined.

Lemma X13_workers_of_sources_started_together_witness :
  snd (life_run (Enter <$> ["MetCrawler"; "LouvreCrawler"])
         (manager 50 None, ∅)) !! "LouvreCrawler" = Some 25.
Proof.
  destruct (X13_workers_of_sources_started_together (manager 50 None)
              ["MetCrawler"; "LouvreCrawler"] 1%nat "LouvreCrawler")
    as [H _];
    [ reflexivity | simpl; lia
    | apply NoDup_cons; split;
        [intros H; apply list_elem_of_singleton in H; discriminate
        |apply NoDup_singleton]
    | reflexivity | ].
  exact H.
Defined.

Lemma X14_run_crawlers_returns_normally_witness :
  exists rep,
    run_crawlers (process_artwork env_ok 3) (manager 2 None)
      [small_source; small_source] [1%nat; 0%nat] = Some rep
    /\ r_result rep = Ret tt /\ r_finished rep = [1%nat; 0%nat].
Proof.
  destruct (X14_run_crawlers_returns_normally (process_artwork env_ok 3)
              (manager 2 None) [small_source; small_source]) as [H _].
  apply (H [1%nat; 0%nat]).
  - apply NoDup_cons. split; [|apply NoDup_singleton].
    intros Hin. apply list_elem_of_singleton in Hin. discriminate.
  - intros j. rewrite elem_of_cons, list_elem_of_singleton. simpl. lia.
  - intros j Hj.
    apply elem_of_cons in Hj as [->|Hj];
      [|apply list_elem_of_singleton in Hj as ->];
      (eexists; split; [vm_compute; reflexivity|reflexivity]).
Defined.

End MoreExamples.

Section LimiterMoreExamples.
Import Limiter Examples Scenarios.
Local Open Scope Q_scope.

(** A call for the Met leaves the Louvre's lock and last instant as they
    are. *)
Lemma X16_sources_are_independent_witness :
  let s := start two_sources 100 ["MetCrawler"; "LouvreCrawler"] in
  _locks (limiter (acquire 0 0 s)) !! "LouvreCrawler" = Some false
  /\ _last_check (limiter (acquire 0 0 s)) !! "LouvreCrawler" = Some 0.
Proof.
  destruct (X16_sources_are_independent "LouvreCrawler" 0 0
              (start two_sources 100 ["MetCrawler"; "LouvreCrawler"])
              {| c_name := "MetCrawler"; c_pc := Called |})
    as (H1 & H2 & _);
    [ vm_compute; discriminate | reflexivity | discriminate | ].
  split; [rewrite H1|rewrite H2]; reflexivity.
Defined.

(** Two calls for the Met one after the other: the second sleeps with the
    lock held. *)
Lemma X17_lock_held_only_while_sleeping_witness :
  let s := run [Resume 0 0; Resume 1 0]
             (start two_sources 100 ["MetCrawler"; "MetCrawler"]) in
  _locks (limiter s) !! "MetCrawler" = Some true.
Proof.
  destruct (X17_lock_held_only_while_sleeping
              [("MetCrawler", 2%Z, 1); ("LouvreCrawler", 2%Z, 1)] 100
              ["MetCrawler"; "MetCrawler"] [Resume 0 0; Resume 1 0]
              "MetCrawler" 2%Z 1)
    as (H & _);
    [ repeat (constructor; [vm_compute; discriminate|]); constructor
    | reflexivity | discriminate | ].
  apply H. eexists 1%nat, _. vm_compute. reflexivity.
Defined.

Lemma X18_unthrottled_sources_witness :
  let s := run [Resume 0 0; Resume 1 0]
             (start two_sources 100 ["Unknown"; "Unknown"]) in
  instants "Unknown" (completed s) = []
  /\ callers s = [ {| c_name := "Unknown"; c_pc := Returned |};
                   {| c_name := "Unknown"; c_pc := Returned |} ].
Proof.
  destruct (X18_unthrottled_sources two_sources 100 ["Unknown"; "Unknown"]
              [Resume 0 0; Resume 1 0] "Unknown")
    as [H _];
    [ repeat (constructor; [vm_compute; discriminate|]); constructor | ].
  destruct (H eq_refl) as [Hlog _].
  split; [exact Hlog|reflexivity].
Defined.

End LimiterMoreExamples.

(** ** Louvre identifiers *)
Section LouvreFacts.
Import Louvre.
Local Open Scope string_scope.

Lemma string_app_cons (x : Ascii.ascii) (a b : string) :
  String x a ++ b = String x (a ++ b).
Proof. reflexivity. Qed.

Lemma string_app_assoc (a b c : string) : (a ++ b) ++ c = a ++ (b ++ c).
Proof.
  induction a as [|x a IH]; [done|].
  rewrite !string_app_cons. by f_equal.
Qed.

Lemma string_app_nil_r (a : string) : a ++ "" = a.
Proof.
  induction a as [|x a IH]; [done|].
  rewrite string_app_cons. by f_equal.
Qed.

(** A string without the character [d]. *)
Lemma no_char_cons (d c : Ascii.ascii) (s : string) :
  Str.contains (String d "") (String c s) = false ->
  c <> d /\ Str.contains (String d "") s = false.
Proof.
  simpl. destruct (Ascii.ascii_dec d c) as [->|Hne].
  - destruct s; discriminate.
  - intros H. split; [congruence|]. exact H.
Qed.

Lemma no_char_app (d : Ascii.ascii) (s t : string) :
  Str.contains (String d "") s = false ->
  Str.contains (String d "") t = false ->
  Str.contains (String d "") (s ++ t) = false.
Proof.
  intros Hs Ht. induction s as [|c s IH].
  - exact Ht.
  - apply no_char_cons in Hs as [Hc Hs].
    rewrite string_app_cons.
    simpl. destruct (Ascii.ascii_dec d c) as [->|_]; [done|].
    simpl. exact (IH Hs).
Qed.

Lemma split_last_plain (s piece : string) :
  Str.contains "/" s = false ->
  Str.split_last_from ark 0 piece s = piece ++ s.
Proof.
  revert piece. induction s as [|c s IH]; intros piece Hs.
  - simpl. by rewrite string_app_nil_r.
  - apply no_char_cons in Hs as [Hc Hs].
    cbn [Str.split_last_from].
    replace (String.prefix ark (String c s)) with false.
    + rewrite (IH _ Hs), string_app_assoc. done.
    + unfold ark. cbn [String.prefix].
      destruct (Ascii.ascii_dec _ c) as [<-|_]; done.
Qed.

Lemma replace_plain (s tail : string) :
  Str.contains "." s = false ->
  Str.replace_from ".json" "" 0 (s ++ tail)
  = s ++ Str.replace_from ".json" "" 0 tail.
Proof.
  induction s as [|c s IH]; intros Hs; [done|].
  apply no_char_cons in Hs as [Hc Hs].
  rewrite !string_app_cons.
  cbn [Str.replace_from].
  replace (String.prefix ".json" (String c (s ++ tail))) with false.
  - by rewrite (IH Hs).
  - cbn [String.prefix].
    destruct (Ascii.ascii_dec _ c) as [<-|_]; done.
Qed.

Lemma split_last_url (rest : string) :
  Str.split_last ark ("https://collections.louvre.fr/ark:/53355/" ++ rest)
  = Str.split_last_from ark 0 "" rest.
Proof. destruct rest; reflexivity. Qed.

Lemma contains_url (rest : string) :
  Str.contains ark ("https://collections.louvre.fr/ark:/53355/" ++ rest) = true.
Proof. destruct rest; reflexivity. Qed.

(** X20: discovery and fetch agree on the address of an artwork.  For an
    identifier without a slash or a dot, the address that [get_artwork_data]
    requests is recognised by [get_artwork_ids] as the address of an
    artwork, and the identifier extracted from it, with or without the
    [.json] suffix, is the identifier itself. *)
Theorem X20_louvre_identifier_round_trip (artwork_id : string) :
  Str.contains "/" artwork_id = false ->
  Str.contains "." artwork_id = false ->
  Str.contains ark (artwork_url artwork_id) = true
  /\ artwork_id_of (artwork_url artwork_id) = artwork_id
  /\ artwork_id_of ("https://collections.louvre.fr/ark:/53355/" ++ artwork_id)
     = artwork_id.
Proof.
  intros Hslash Hdot. split; [apply contains_url|].
  unfold artwork_id_of, artwork_url. rewrite !split_last_url. split.
  - rewrite split_last_plain by (apply no_char_app; [done|reflexivity]).
    change ("" ++ ?x) with x. unfold Str.replace.
    rewrite replace_plain by done.
    change (Str.replace_from ".json" "" 0 ".json") with "".
    apply string_app_nil_r.
  - rewrite split_last_plain by done.
    change ("" ++ artwork_id) with artwork_id. unfold Str.replace.
    rewrite <- (string_app_nil_r artwork_id) at 1.
    rewrite replace_plain by done.
    change (Str.replace_from ".json" "" 0 "") with "".
    apply string_app_nil_r.
Qed.

End LouvreFacts.

(** ** Louvre discovery *)
Section DiscoveryFacts.
Import Louvre.

Variable fetch : nat -> option string -> res (list (option string)).

(** The scan of one sitemap appends to what was found before. *)
Lemma scan_acc locs : forall acc,
  scan locs acc = (acc ++ fst (scan locs []), snd (scan locs [])).
Proof.
  induction locs as [|[text|] locs IH]; intros acc; simpl.
  - by rewrite app_nil_r.
  - destruct (Str.contains ark text).
    + rewrite (IH (acc ++ _)), (IH [_]). simpl. by rewrite <- app_assoc.
    + apply IH.
  - by rewrite app_nil_r.
Qed.

Lemma scan_raises locs : forall acc e,
  snd (scan locs acc) = Raise e -> is_Exception e = true.
Proof.
  induction locs as [|[text|] locs IH]; intros acc e; simpl.
  - done.
  - destruct (Str.contains ark text); apply IH.
  - by intros [= <-].
Qed.

Lemma errors_cons ev tr :
  errors (ev :: tr)
  = ((match ev with LogError _ => 1 | _ => 0 end) + errors tr)%nat.
Proof. reflexivity. Qed.

Lemma sitemaps_tolerant urls : forall k acc,
  (forall j u e, fetch j u = Raise e -> is_Exception e = true) ->
  exists tr,
    sitemaps fetch k urls acc
    = (tr, Ret (acc ++ concat (imap (fun j u => found fetch (k + j) u) urls)))
    /\ errors tr
       = sum_list (imap (fun j u => if failed fetch (k + j) u then 1 else 0)%nat
                        urls).
Proof.
  induction urls as [|u urls IH]; intros k acc Hexc.
  { exists []. simpl. by rewrite app_nil_r. }
  assert (forall acc', exists tr,
            sitemaps fetch (S k) urls acc'
            = (tr, Ret (acc' ++ concat (imap ((fun j u => found fetch (k + j) u) ∘ S) urls)))
            /\ errors tr
               = sum_list (imap ((fun j u => if failed fetch (k + j) u
                                             then 1 else 0)%nat ∘ S) urls))
    as Hrest.
  { intros acc'. destruct (IH (S k) acc' Hexc) as (tr & Heq & Herr).
    exists tr. rewrite Heq, Herr. split.
    - do 4 f_equal. apply imap_ext. intros j v _. simpl.
      by replace (k + S j)%nat with (S (k + j)) by lia.
    - f_equal. apply imap_ext. intros j v _. simpl.
      by replace (k + S j)%nat with (S (k + j)) by lia. }
  cbn [sitemaps imap concat sum_list]. unfold found at 1, failed at 1.
  rewrite Nat.add_0_r.
  destruct (fetch k u) as [locs|e] eqn:Hf.
  - rewrite (scan_acc locs acc).
    destruct (snd (scan locs [])) as [[]|e] eqn:Hs.
    + destruct (Hrest (acc ++ fst (scan locs []))) as (tr & Heq & Herr).
      rewrite Heq. exists (Processing u :: tr). split.
      * by rewrite <- app_assoc.
      * rewrite errors_cons, Herr. done.
    + rewrite (scan_raises locs [] e Hs).
      destruct (Hrest (acc ++ fst (scan locs []))) as (tr & Heq & Herr).
      rewrite Heq. exists (Processing u :: LogError u :: tr). split.
      * by rewrite <- app_assoc.
      * rewrite !errors_cons, Herr. done.
  - rewrite (Hexc _ _ _ Hf).
    destruct (Hrest acc) as (tr & Heq & Herr).
    rewrite Heq. exists (Processing u :: LogError u :: tr). split.
    + done.
    + rewrite !errors_cons, Herr. done.
Qed.

(** X21: once the sitemap index has been read, Louvre discovery survives
    every ordinary error.  A sitemap that cannot be downloaded or parsed, or
    whose scan stops at an element without text, is logged and skipped; the
    identifiers found before it, and those found in it before the error,
    are kept; the result is the concatenation, in index order, of what each
    sitemap contributed, and one error is logged per failed sitemap. *)
Theorem X21_louvre_discovery_skips_failed_sitemaps urls :
  fetch 0 (Some SITEMAP_URL) = Ret urls ->
  (forall j u e, fetch j u = Raise e -> is_Exception e = true) ->
  exists tr,
    get_artwork_ids fetch
    = (tr, Ret (concat (imap (fun j u => found fetch (S j) u) urls)))
    /\ errors tr
       = sum_list (imap (fun j u => if failed fetch (S j) u then 1 else 0)%nat
                        urls).
Proof.
  intros Hindex Hexc. unfold get_artwork_ids. rewrite Hindex.
  destruct (sitemaps_tolerant urls 1 [] Hexc) as (tr & Heq & Herr).
  exists tr. split; [exact Heq|exact Herr].
Qed.

Lemma sitemaps_escape urls : forall k acc j u e,
  urls !! j = Some u ->
  fetch (k + j) u = Raise e -> is_Exception e = false ->
  (forall i v e', (i < j)%nat -> urls !! i = Some v ->
                  fetch (k + i) v = Raise e' -> is_Exception e' = true) ->
  snd (sitemaps fetch k urls acc) = Raise e.
Proof.
  induction urls as [|u0 urls IH]; intros k acc j u e Hj Hf He Hbefore;
    [done|].
  destruct j as [|j].
  - injection Hj as ->. rewrite Nat.add_0_r in Hf.
    cbn [sitemaps]. by rewrite Hf, He.
  - assert (forall acc', snd (sitemaps fetch (S k) urls acc') = Raise e)
      as Hrest.
    { intros acc'. apply (IH (S k) acc' j u e); [done| |done|].
      - by replace (S k + j)%nat with (k + S j)%nat by lia.
      - intros i v e' Hi Hv Hfi. apply (Hbefore (S i) v e'); [lia|done|].
        by replace (k + S i)%nat with (S k + i)%nat by lia. }
    cbn [sitemaps].
    destruct (fetch k u0) as [locs|e0] eqn:Hf0.
    + destruct (scan locs acc) as [ids' [[]|e1]] eqn:Hs.
      * specialize (Hrest ids').
        by destruct (sitemaps fetch (S k) urls ids').
      * assert (is_Exception e1 = true) as ->.
        { apply (scan_raises locs acc). by rewrite Hs. }
        specialize (Hrest ids').
        by destruct (sitemaps fetch (S k) urls ids').
    + assert (is_Exception e0 = true) as ->.
      { apply (Hbefore 0%nat u0 e0); [lia|done|].
        by rewrite Nat.add_0_r. }
      specialize (Hrest acc).
      by destruct (sitemaps fetch (S k) urls acc).
Qed.

(** X22: a cancellation is not one of the errors that discovery survives.
    If the download of a sitemap is cancelled, [get_artwork_ids] raises that
    [CancelledError] itself, and the identifiers found in the earlier
    sitemaps are not returned. *)
Theorem X22_louvre_discovery_cancellation_propagates urls j u e :
  fetch 0 (Some SITEMAP_URL) = Ret urls ->
  urls !! j = Some u ->
  fetch (S j) u = Raise e -> is_Exception e = false ->
  (forall i v e', (i < j)%nat -> urls !! i = Some v ->
                  fetch (S i) v = Raise e' -> is_Exception e' = true) ->
  snd (get_artwork_ids fetch) = Raise e.
Proof.
  intros Hindex Hj Hf He Hbefore. unfold get_artwork_ids. rewrite Hindex.
  by apply (sitemaps_escape urls 1 [] j u e).
Qed.

End DiscoveryFacts.

(** ** Requests under the retry decorator *)
Section BackoffFacts.
Import Http.

Context {A : Type}.
Variable target : nat -> list event * result A.
Variable sleep : nat -> res unit.

(** Try [k] ends in a client error and the sleep after it returns. *)
Local Abbreviation retried k :=
  ((exists msg, snd (target k) = Err (ClientError msg)) /\ sleep k = Ret tt).

(** The trace of the tries [tries], ..., [tries + n - 1] when each of them
    is retried. *)
Local Abbreviation retried_trace tries n :=
  (flat_map (fun k => fst (target k) ++ [Wait]) (seq tries n)).

Lemma retry_step remaining tries :
  retried tries ->
  retry target sleep (S remaining) tries
  = (fst (target tries) ++ Wait :: fst (retry target sleep remaining (S tries)),
     snd (retry target sleep remaining (S tries))).
Proof.
  intros [[msg Hmsg] Hsleep]. cbn [retry].
  destruct (target tries) as [tr r]; simpl in *. subst r. rewrite Hsleep.
  by destruct (retry target sleep remaining (S tries)).
Qed.

Lemma retry_conclusive remaining tries :
  (forall msg, snd (target tries) <> Err (ClientError msg)) ->
  retry target sleep remaining tries = target tries.
Proof.
  intros Hne. destruct remaining; cbn [retry];
    destruct (target tries) as [tr [a|[msg|e]]]; simpl in *;
    try done; by destruct (Hne msg).
Qed.

Lemma retry_exhausted tries :
  retry target sleep 0 tries = target tries.
Proof.
  cbn [retry]. by destruct (target tries) as [tr [a|[msg|e]]].
Qed.

Lemma retry_prefix n : forall remaining tries,
  (forall k, (tries <= k < tries + n)%nat -> retried k) ->
  retry target sleep (n + remaining) tries
  = (retried_trace tries n ++ fst (retry target sleep remaining (tries + n)),
     snd (retry target sleep remaining (tries + n))).
Proof.
  induction n as [|n IH]; intros remaining tries Hall.
  - simpl. rewrite Nat.add_0_r. by destruct (retry target sleep remaining tries).
  - change (S n + remaining)%nat with (S (n + remaining)).
    rewrite retry_step by (apply Hall; lia).
    rewrite (IH remaining (S tries)) by (intros k Hk; apply Hall; lia).
    replace (S tries + n)%nat with (tries + S n)%nat by lia.
    cbn [seq flat_map fst snd]. by rewrite <- !app_assoc.
Qed.

Lemma on_exception_decides (n : nat) :
  (n < max_tries)%nat ->
  (forall k, (k < n)%nat -> retried k) ->
  (n = (max_tries - 1)%nat
   \/ forall msg, snd (target n) <> Err (ClientError msg)) ->
  on_exception target sleep
  = (retried_trace 0 n ++ fst (target n), snd (target n)).
Proof.
  intros Hn Hall Hlast. unfold on_exception.
  replace (max_tries - 1)%nat with (n + (max_tries - 1 - n))%nat by lia.
  rewrite retry_prefix by (intros k Hk; apply Hall; lia).
  cbn [Nat.add].
  destruct Hlast as [->|Hne].
  - rewrite Nat.sub_diag, retry_exhausted. by destruct (target _).
  - rewrite retry_conclusive by done. by destruct (target n).
Qed.

(** X23: a request under [backoff.on_exception] is decided by its first
    try that does not end in an [aiohttp.ClientError], or by the fifth try
    if the first four end in one: the call returns or raises what that try
    returns or raises, nothing is requested after it, and every earlier
    try is followed by one sleep. *)
Theorem X23_first_conclusive_try_decides (n : nat) :
  (n < max_tries)%nat ->
  (forall k, (k < n)%nat -> retried k) ->
  (n = (max_tries - 1)%nat
   \/ forall msg, snd (target n) <> Err (ClientError msg)) ->
  on_exception target sleep
  = (retried_trace 0 n ++ fst (target n), snd (target n)).
Proof. apply on_exception_decides. Qed.

Lemma gets_app tr1 tr2 : gets (tr1 ++ tr2) = (gets tr1 + gets tr2)%nat.
Proof. apply sum_list_with_app. Qed.
Lemma waits_app tr1 tr2 : waits (tr1 ++ tr2) = (waits tr1 + waits tr2)%nat.
Proof. apply sum_list_with_app. Qed.

Lemma retried_trace_counts n : forall tries,
  (forall k, gets (fst (target k)) = 1%nat /\ waits (fst (target k)) = 0%nat) ->
  gets (retried_trace tries n) = n /\ waits (retried_trace tries n) = n.
Proof.
  induction n as [|n IH]; intros tries Hone; [done|].
  cbn [seq flat_map]. destruct (IH (S tries) Hone) as [Hg Hw].
  destruct (Hone tries) as [Hg1 Hw1].
  rewrite !gets_app, !waits_app, Hg, Hw, Hg1, Hw1.
  change (gets [Wait]) with 0%nat. change (waits [Wait]) with 1%nat. lia.
Qed.

(** Each try sends one request: at most [remaining + 1] requests in all,
    with a sleep between two of them. *)
Lemma retry_budget remaining : forall tries,
  (forall k, gets (fst (target k)) = 1%nat /\ waits (fst (target k)) = 0%nat) ->
  (1 <= gets (fst (retry target sleep remaining tries)) <= remaining + 1)%nat
  /\ (waits (fst (retry target sleep remaining tries)) <= remaining)%nat.
Proof.
  induction remaining as [|remaining IH]; intros tries Hone.
  - rewrite retry_exhausted. destruct (Hone tries) as [-> ->]. lia.
  - cbn [retry]. destruct (Hone tries) as [Hg Hw].
    destruct (target tries) as [tr [a|[msg|e]]]; simpl in *; try lia.
    destruct (sleep tries).
    + destruct (IH (S tries) Hone) as [Hg' Hw'].
      destruct (retry target sleep remaining (S tries)) as [tr' r'].
      simpl in *. change (Wait :: tr') with ([Wait] ++ tr').
      rewrite !gets_app, !waits_app, Hg, Hw.
      change (gets [Wait]) with 0%nat. change (waits [Wait]) with 1%nat. lia.
    + simpl. rewrite !gets_app, !waits_app, Hg, Hw.
      change (gets [Wait]) with 0%nat. change (waits [Wait]) with 1%nat. lia.
Qed.

End BackoffFacts.

(** ** The fetching methods of the adapters *)
Section AdapterFacts.
Import Http.

Context {J : Type}.
Variable sleep : nat -> res unit.
Variable object_ids : J -> res (list string).
Variable loads : string -> res (option J).

Lemma met_request_counts url (x : exchange (option J)) :
  gets (fst (Met.request url x)) = 1%nat
  /\ waits (fst (Met.request url x)) = 0%nat.
Proof.
  unfold Met.request. destruct x as [e|status body]; [done|].
  destruct (status =? 404); [done|].
  by destruct (raise_for_status status).
Qed.

Lemma louvre_request_counts url (x : exchange string) :
  gets (fst (Louvre.request url x)) = 1%nat
  /\ waits (fst (Louvre.request url x)) = 0%nat.
Proof.
  unfold Louvre.request. destruct x as [e|status body]; [done|].
  by destruct (raise_for_status status).
Qed.

Lemma reraise_counts {B} tr e :
  gets (fst (@reraise B tr e)) = gets tr
  /\ waits (fst (@reraise B tr e)) = waits tr.
Proof.
  unfold reraise. destruct (is_Exception e); [|done]. simpl.
  rewrite gets_app, waits_app.
  change (gets [LogFetchError]) with 0%nat.
  change (waits [LogFetchError]) with 0%nat. lia.
Qed.

(** X24: whatever the server does, one call of a fetching method of an
    adapter sends at least one and at most five requests and sleeps at most
    four times between them. *)
Theorem X24_fetch_sends_at_most_five_requests
    (artwork_id : string) (met_answers : nat -> exchange (option J))
    (louvre_answers : nat -> exchange string) :
  let within tr :=
    (1 <= gets tr <= 5)%nat /\ (waits tr <= 4)%nat in
  within (fst (Met.get_artwork_data sleep artwork_id met_answers))
  /\ within (fst (Met.get_artwork_ids sleep object_ids met_answers))
  /\ within (fst (Louvre.get_artwork_data sleep loads artwork_id
                    louvre_answers)).
Proof.
  intros within. subst within. cbv beta.
  assert (forall url,
            (1 <= gets (fst (Met._make_request sleep url met_answers)) <= 5)%nat
            /\ (waits (fst (Met._make_request sleep url met_answers)) <= 4)%nat)
    as Hmet.
  { intros url.
    apply (retry_budget (fun tries => Met.request url (met_answers tries))
             sleep 4 0).
    intros k. apply met_request_counts. }
  assert (forall url,
            (1 <= gets (fst (Louvre._make_request sleep url louvre_answers))
             <= 5)%nat
            /\ (waits (fst (Louvre._make_request sleep url louvre_answers))
                <= 4)%nat)
    as Hlouvre.
  { intros url.
    apply (retry_budget (fun tries => Louvre.request url (louvre_answers tries))
             sleep 4 0).
    intros k. apply louvre_request_counts. }
  split; [|split].
  - unfold Met.get_artwork_data.
    specialize (Hmet (Met.BASE_URL +:+ "objects/" +:+ artwork_id)).
    destruct (Met._make_request _ _ _) as [tr [[data|]|x]]; cbn [fst snd] in *.
    + done.
    + rewrite gets_app, waits_app.
      change (gets [LogNoData]) with 0%nat.
      change (waits [LogNoData]) with 0%nat. lia.
    + destruct (@reraise_counts (option J) tr (to_exc x)) as [-> ->]. done.
  - unfold Met.get_artwork_ids.
    specialize (Hmet (Met.BASE_URL +:+ "objects")).
    destruct (Met._make_request _ _ _) as [tr [[response|]|x]]; cbn [fst snd] in *.
    + destruct (object_ids response) as [ids|e]; cbn [fst snd]; [done|].
      destruct (@reraise_counts (list string) tr e) as [-> ->]. done.
    + destruct (@reraise_counts (list string) tr (OtherError "AttributeError"))
        as [-> ->]. done.
    + destruct (@reraise_counts (list string) tr (to_exc x)) as [-> ->]. done.
  - unfold Louvre.get_artwork_data.
    specialize (Hlouvre (Louvre.artwork_url artwork_id)).
    destruct (Louvre._make_request _ _ _) as [tr [json_data|x]]; cbn [fst snd] in *.
    + destruct (loads json_data) as [data|e]; cbn [fst snd]; [done|].
      destruct (@reraise_counts (option J) tr e) as [-> ->]. done.
    + destruct (@reraise_counts (option J) tr (to_exc x)) as [-> ->]. done.
Qed.

End AdapterFacts.

(** ** An artwork that the museum does not have *)
Section NotFound.
Import Http Item Tally.

Context {J Data : Type}.
Variable sleep : nat -> res unit.
Variable object_ids : J -> res (list string).
Variable loads : string -> res (option J).
Variable E : env J Data.
Variable max_retries : Z.
Variable artwork_id : string.

Local Abbreviation process := (process_artwork E max_retries artwork_id).

Lemma met_request_not_found url (body : result (option J)) :
  Met.request url (Response 404 body) = ([Get url; LogNotFound], Ok None).
Proof. reflexivity. Qed.

Lemma louvre_request_refused url status (body : result string) :
  400 <= status ->
  Louvre.request url (Response status body)
  = ([Get url], Err (ClientError "ClientResponseError")).
Proof.
  intros Hs. unfold Louvre.request, raise_for_status.
  by rewrite (proj2 (Z.leb_le _ _) Hs).
Qed.

(** An attempt whose fetch returns [None] returns [False]. *)
Lemma body_skips a :
  rate_acquire E a = Ret tt -> get_artwork_data E artwork_id a = Ret None ->
  try_body E artwork_id a = ([RateAcquire; Fetch artwork_id], Ret false).
Proof.
  intros Hr Hg. unfold try_body, bind, emit, ret. by rewrite Hr, Hg.
Qed.

(** An attempt whose fetch raises raises. *)
Lemma body_fetch_raises a e :
  rate_acquire E a = Ret tt -> get_artwork_data E artwork_id a = Raise e ->
  try_body E artwork_id a = ([RateAcquire; Fetch artwork_id], Raise e).
Proof.
  intros Hr Hg. unfold try_body, bind, emit, ret. by rewrite Hr, Hg.
Qed.

Lemma retries_fetches (k : nat) : forall a,
  (forall j, a <= j < a + Z.of_nat k ->
     fetches (fst (try_body E artwork_id j)) = 1%nat) ->
  fetches (retries E artwork_id a (Z.of_nat k)) = k.
Proof.
  induction k as [|k IH]; intros a Hone.
  - by rewrite retries_nil.
  - rewrite retries_cons by lia.
    replace (Z.pred (Z.of_nat (S k))) with (Z.of_nat k) by lia.
    rewrite !fetches_app, (Hone a) by lia.
    rewrite IH by (intros j Hj; apply Hone; lia).
    change (fetches [Sleep (2 ^ a)]) with 0%nat. lia.
Qed.

(** X25: the Met adapter treats status 404 as an answer, not as an error.
    When the deciding try of the request for an artwork is answered 404,
    [get_artwork_data] returns [None] without a further request; the
    processing call that fetched it returns [False] after that one fetch,
    transforms and persists nothing, and the worker counts the artwork as
    successful: [successful] and [total_processed] grow by one and [failed]
    is unchanged. *)
Theorem X25_met_not_found_is_skipped
    (answers : nat -> exchange (option J)) (n : nat) :
  let url := Met.BASE_URL +:+ "objects/" +:+ artwork_id in
  (n < max_tries)%nat ->
  (forall k, (k < n)%nat ->
     (exists msg, snd (Met.request url (answers k)) = Err (ClientError msg))
     /\ sleep k = Ret tt) ->
  (exists body, answers n = Response 404 body) ->
  0 < max_retries -> sem_enter E = Ret tt -> rate_acquire E 0 = Ret tt ->
  get_artwork_data E artwork_id 0
  = snd (Met.get_artwork_data sleep artwork_id answers) ->
  snd (Met.get_artwork_data sleep artwork_id answers) = Ret None
  /\ gets (fst (Met.get_artwork_data sleep artwork_id answers)) = S n
  /\ process
     = ([SemAcquire; RateAcquire; Fetch artwork_id; SemRelease],
        Ret (Some false))
  /\ forall flag st,
       let st' := fst (Pool.resume_task flag st (snd process)) in
       Pool.successful st' = Pool.successful st + 1
       /\ Pool.failed st' = Pool.failed st
       /\ Pool.total_processed st' = Pool.total_processed st + 1.
Proof.
  intros url Hn Hretried [body H404] Hmr Hsem Hrate Hfetch.
  assert (Met.get_artwork_data sleep artwork_id answers
          = ((flat_map (fun k => fst (Met.request url (answers k)) ++ [Wait])
                (seq 0 n) ++ [Get url; LogNotFound]) ++ [LogNoData],
             Ret None)) as Hdata.
  { unfold Met.get_artwork_data, Met._make_request. fold url.
    rewrite (on_exception_decides
               (fun tries => Met.request url (answers tries)) sleep n Hn
               Hretried).
    - by rewrite H404, met_request_not_found.
    - right. intros msg. by rewrite H404, met_request_not_found. }
  assert (process
          = ([SemAcquire; RateAcquire; Fetch artwork_id; SemRelease],
             Ret (Some false))) as Hp.
  { rewrite (process_prefix E max_retries artwork_id 0) by (done || lia).
    rewrite Hdata in Hfetch. cbn [snd] in Hfetch.
    rewrite (loop_returns _ _ _ _ _ false)
      by (by rewrite (body_skips 0 Hrate Hfetch)).
    rewrite retries_nil, (body_skips 0 Hrate Hfetch). done. }
  split; [by rewrite Hdata|]. split.
  - rewrite Hdata. cbn [fst]. rewrite !gets_app.
    destruct (retried_trace_counts
                (fun tries => Met.request url (answers tries)) n 0) as [-> _].
    { intros k. apply met_request_counts. }
    change (gets [Get url; LogNotFound]) with 1%nat.
    change (gets [LogNoData]) with 0%nat. lia.
  - split; [done|]. intros flag st st'. subst st'. rewrite Hp. cbn [snd].
    by rewrite worker_counts_return.
Qed.

(** X26: the Met adapter has no such answer for the list of objects.  When
    the deciding try of the request for the list is answered 404, discovery
    raises [AttributeError]; [crawl_museum] logs the error, starts no
    worker, closes the session and raises. *)
Theorem X26_met_listing_not_found_fails_crawl
    (answers : nat -> exchange (option J)) (n : nat)
    (process' : string -> Item.M (option bool))
    (m : Controller.Manager) (c : Controller.Crawler) (evs : list Pool.sched) :
  let url := Met.BASE_URL +:+ "objects" in
  (n < max_tries)%nat ->
  (forall k, (k < n)%nat ->
     (exists msg, snd (Met.request url (answers k)) = Err (ClientError msg))
     /\ sleep k = Ret tt) ->
  (exists body, answers n = Response 404 body) ->
  0 <= Controller.active_museums m ->
  Controller.init_session c = Ret tt ->
  Controller.get_artwork_ids c
  = snd (Met.get_artwork_ids sleep object_ids answers) ->
  snd (Met.get_artwork_ids sleep object_ids answers)
  = Raise (OtherError "AttributeError")
  /\ gets (fst (Met.get_artwork_ids sleep object_ids answers)) = S n
  /\ exists o,
       Controller.crawl_museum process' m c evs = Some o
       /\ Controller.o_trace o
          = [Controller.ConfigureRate; Controller.InitSession;
             Controller.Discover; Controller.LogCrawlError;
             Controller.CloseSession]
       /\ Controller.o_result o = Raise (OtherError "AttributeError")
       /\ Controller.o_pool o = None.
Proof.
  intros url Hn Hretried [body H404] Hactive Hinit Hids.
  assert (Met.get_artwork_ids sleep object_ids answers
          = ((flat_map (fun k => fst (Met.request url (answers k)) ++ [Wait])
                (seq 0 n) ++ [Get url; LogNotFound]) ++ [LogFetchError],
             Raise (OtherError "AttributeError"))) as Hlist.
  { unfold Met.get_artwork_ids, Met._make_request. fold url.
    rewrite (on_exception_decides
               (fun tries => Met.request url (answers tries)) sleep n Hn
               Hretried).
    - by rewrite H404, met_request_not_found.
    - right. intros msg. by rewrite H404, met_request_not_found. }
  split; [by rewrite Hlist|]. split.
  - rewrite Hlist. cbn [fst]. rewrite !gets_app.
    destruct (retried_trace_counts
                (fun tries => Met.request url (answers tries)) n 0) as [-> _].
    { intros k. apply met_request_counts. }
    change (gets [Get url; LogNotFound]) with 1%nat.
    change (gets [LogFetchError]) with 0%nat. lia.
  - rewrite Hlist in Hids. cbn [snd] in Hids.
    destruct (crawl_museum_discovery_fails process' m c evs
                (OtherError "AttributeError") Hactive Hinit Hids eq_refl)
      as (o & Ho & Htr & Hres & Hpool & _).
    by exists o.
Qed.

(** X27: the Louvre adapter has no such answer at all: a response with a
    status of 400 or more, 404 included, is a client error.  When every
    response for an artwork has such a status, each fetch sends five
    requests and raises; the processing call makes [max_retries] fetches,
    raises the error of the last one, and the worker counts the artwork as
    failed: [failed] and [total_processed] grow by one and [successful] is
    unchanged. *)
Theorem X27_louvre_not_found_is_retried
    (answers : Z -> nat -> exchange string) :
  0 < max_retries -> sem_enter E = Ret tt ->
  (forall k, sleep k = Ret tt) ->
  (forall a, 0 <= a < max_retries ->
     rate_acquire E a = Ret tt /\ backoff_sleep E a = Ret tt
     /\ get_artwork_data E artwork_id a
        = snd (Louvre.get_artwork_data sleep loads artwork_id (answers a))
     /\ forall k, (k < max_tries)%nat ->
          exists status body,
            answers a k = Response status body /\ 400 <= status) ->
  (forall a, 0 <= a < max_retries ->
     snd (Louvre.get_artwork_data sleep loads artwork_id (answers a))
     = Raise (OtherError "ClientResponseError")
     /\ gets (fst (Louvre.get_artwork_data sleep loads artwork_id (answers a)))
        = 5%nat)
  /\ snd process = Raise (OtherError "ClientResponseError")
  /\ fetches (fst process) = Z.to_nat max_retries
  /\ forall flag st,
       let st' := fst (Pool.resume_task flag st (snd process)) in
       Pool.failed st' = Pool.failed st + 1
       /\ Pool.successful st' = Pool.successful st
       /\ Pool.total_processed st' = Pool.total_processed st + 1.
Proof.
  intros Hmr Hsem Hsleep Hall.
  set (url := Louvre.artwork_url artwork_id).
  assert (forall a, 0 <= a < max_retries ->
            Louvre.get_artwork_data sleep loads artwork_id (answers a)
            = ((flat_map (fun k => fst (Louvre.request url (answers a k))
                                   ++ [Wait]) (seq 0 4)
                  ++ [Get url]) ++ [LogFetchError],
               Raise (OtherError "ClientResponseError"))) as Hdata.
  { intros a Ha. destruct (Hall a Ha) as (_ & _ & _ & Hrefused).
    assert (forall k, (k < max_tries)%nat ->
              Louvre.request url (answers a k)
              = ([Get url], Err (ClientError "ClientResponseError"))) as Hreq.
    { intros k Hk. destruct (Hrefused k Hk) as (status & body & -> & Hs).
      by apply louvre_request_refused. }
    unfold Louvre.get_artwork_data, Louvre._make_request. fold url.
    rewrite (on_exception_decides
               (fun tries => Louvre.request url (answers a tries)) sleep 4).
    - rewrite (Hreq 4%nat) by (unfold max_tries; lia). done.
    - unfold max_tries; lia.
    - intros k Hk. split; [|apply Hsleep].
      exists "ClientResponseError".
      rewrite (Hreq k) by (unfold max_tries; lia). done.
    - by left. }
  assert (forall a, 0 <= a < max_retries ->
            try_body E artwork_id a
            = ([RateAcquire; Fetch artwork_id],
               Raise (OtherError "ClientResponseError"))) as Hbody.
  { intros a Ha. destruct (Hall a Ha) as (Hrate & _ & Hfetch & _).
    apply body_fetch_raises; [done|]. by rewrite Hfetch, (Hdata a Ha). }
  assert (process
          = (SemAcquire ::
               (retries E artwork_id 0 (max_retries - 1)
                  ++ [RateAcquire; Fetch artwork_id]) ++ [SemRelease],
             Raise (OtherError "ClientResponseError"))) as Hp.
  { rewrite (process_prefix E max_retries artwork_id (max_retries - 1));
      [|lia|done|].
    - rewrite (loop_last_raises _ _ _ _ _ (OtherError "ClientResponseError"))
        by (rewrite ?Hbody by lia; done).
      rewrite Hbody by lia. done.
    - intros j Hj. split.
      + exists (OtherError "ClientResponseError").
        rewrite Hbody by lia. done.
      + by destruct (Hall j) as (_ & ? & _); [lia|]. }
  split; [|split; [|split]].
  - intros a Ha. rewrite (Hdata a Ha). split; [done|].
    cbn [fst]. rewrite !gets_app.
    destruct (retried_trace_counts
                (fun tries => Louvre.request url (answers a tries)) 4 0)
      as [-> _].
    { intros k. apply louvre_request_counts. }
    done.
  - by rewrite Hp.
  - rewrite Hp. cbn [fst].
    change (SemAcquire :: ?l) with ([SemAcquire] ++ l).
    rewrite !fetches_app.
    replace (max_retries - 1) with (Z.of_nat (Z.to_nat (max_retries - 1)))
      by lia.
    rewrite retries_fetches.
    + change (fetches [SemAcquire]) with 0%nat.
      change (fetches [RateAcquire; Fetch artwork_id]) with 1%nat.
      change (fetches [SemRelease]) with 0%nat. lia.
    + intros j Hj. rewrite Hbody by lia. done.
  - intros flag st st'. subst st'. rewrite Hp. cbn [snd].
    by rewrite worker_counts_exception.
Qed.

End NotFound.

(** ** No call of [acquire] is stuck *)
Section QueueFacts.
Import Limiter.
Local Open Scope Q_scope.

Variable name : string.
Variable mi : Q.

Lemma frame_queued s s' : frame name s s' -> queued name s -> queued name s'.
Proof.
  intros [Hlk Hla Hlog Hq Hclk Hback Hforth] [Hnd Hw]. constructor.
  - by rewrite Hq.
  - intros j. rewrite Hq, Hw. split; intros [m Hj]; exists m.
    + by apply Hforth.
    + by apply Hback.
Qed.

(** What [enter] does to the calls and to the queues. *)
Lemma enter_callers i m late s :
  exists p, (forall m', p <> WaitLock m')
    /\ callers (enter i name m late s)
       = <[i := {| c_name := name; c_pc := p |}]> (callers s)
    /\ waiters (enter i name m late s) = waiters s.
Proof.
  unfold enter. destruct (_last_check (limiter s) !! name) as [last|].
  - destruct (Qle_bool m _); eexists; (split; [|split; reflexivity]); done.
  - eexists; (split; [|split; reflexivity]); done.
Qed.

Lemma queued_keep s s' i c p :
  queued name s -> callers s !! i = Some c -> c_name c = name ->
  (forall m, c_pc c <> WaitLock m) -> (forall m, p <> WaitLock m) ->
  callers s' = <[i := {| c_name := name; c_pc := p |}]> (callers s) ->
  queue_of name s' = queue_of name s ->
  queued name s'.
Proof.
  intros [Hnd Hw] Hi Hn Hc Hp Hcs Hq. constructor; rewrite Hq; [done|].
  intros j. rewrite Hw, Hcs. destruct (decide (j = i)) as [->|Hne].
  - split; intros [m Hj].
    + rewrite Hi in Hj. injection Hj as ->. by destruct (Hc m).
    + apply list_lookup_insert_Some in Hj as [(_ & [= ->] & _)|[? _]];
        [by destruct (Hp m)|done].
  - by rewrite list_lookup_insert_ne.
Qed.

Lemma queued_push s s' i c m :
  queued name s -> callers s !! i = Some c -> c_name c = name ->
  (forall m', c_pc c <> WaitLock m') ->
  callers s' = <[i := {| c_name := name; c_pc := WaitLock m |}]> (callers s) ->
  queue_of name s' = queue_of name s ++ [i] ->
  queued name s'.
Proof.
  intros [Hnd Hw] Hi Hn Hc Hcs Hq.
  assert (i ∉ queue_of name s) as Hnotin.
  { intros Hin. apply Hw in Hin as [m' Hj]. rewrite Hi in Hj.
    injection Hj as ->. by destruct (Hc m'). }
  assert (i < length (callers s))%nat as Hlen by (by eapply lookup_lt_Some).
  constructor; rewrite Hq.
  - apply NoDup_app. split; [done|]. split; [|apply NoDup_singleton].
    intros x Hx Hx'. apply list_elem_of_singleton in Hx' as ->. done.
  - intros j. rewrite elem_of_app, list_elem_of_singleton, Hw, Hcs.
    destruct (decide (j = i)) as [->|Hne].
    + split; [|by right]. intros _. exists m. by rewrite list_lookup_insert_eq.
    + rewrite list_lookup_insert_ne by done. split; [|by left].
      by intros [?|?].
Qed.

Lemma queued_pop s s' i rest p :
  queued name s -> queue_of name s = i :: rest ->
  (forall m, p <> WaitLock m) ->
  callers s' = <[i := {| c_name := name; c_pc := p |}]> (callers s) ->
  queue_of name s' = rest ->
  queued name s'.
Proof.
  intros [Hnd Hw] Hqs Hp Hcs Hq. rewrite Hqs in Hnd.
  apply NoDup_cons in Hnd as [Hnotin Hnd].
  constructor; rewrite Hq; [done|].
  intros j. rewrite Hcs. destruct (decide (j = i)) as [->|Hne].
  - split; [done|]. intros [m Hj].
    apply list_lookup_insert_Some in Hj as [(_ & [= ->] & _)|[? _]];
      [by destruct (Hp m)|done].
  - rewrite list_lookup_insert_ne by done. rewrite <- Hw, Hqs.
    rewrite elem_of_cons. split; [by right|]. by intros [?|?].
Qed.

Lemma acquire_same_queued i late s c :
  queued name s -> callers s !! i = Some c -> c_name c = name ->
  queued name (acquire i late s).
Proof.
  intros Hqu Hi Hn. unfold acquire. rewrite Hi, Hn.
  destruct (c_pc c) as [|m|wake| |e] eqn:Hpc; [| | |done|done].
  - assert (forall m', c_pc c <> WaitLock m') as Hc by (intros m'; by rewrite Hpc).
    assert (forall p, (forall m', p <> WaitLock m') ->
                      queued name (set_caller i p name s)) as Hset
      by (intros p Hp; by eapply queued_keep).
    destruct (_rates (limiter s) !! name) as [[calls period]|];
      [|by apply Hset].
    destruct (calls =? 0)%Z; [by apply Hset|].
    destruct (Float.overflows _); [by apply Hset|].
    unfold lock_then_enter.
    destruct (_locks (limiter s) !! name) as [locked|]; [|by apply Hset].
    destruct (negb locked && _).
    + destruct (enter_callers i (Float.div period (Float.of_int calls)) late s)
        as (p & Hp & Hcs & Hws).
      eapply queued_keep; [done..|]. unfold queue_of. by rewrite Hws.
    + eapply queued_push; [done..|]. by rewrite queue_of_insert, decide_True.
  - unfold wake_then_enter.
    destruct (_locks (limiter s) !! name) as [[|]|]; try done.
    destruct (queue_of name s) as [|j rest] eqn:Hq; [done|].
    case_bool_decide as Hj; [subst j|done].
    match goal with |- queued _ (enter _ _ _ _ ?s1) =>
      destruct (enter_callers i m late s1) as (p & Hp & Hcs & Hws) end.
    eapply queued_pop; [done..|].
    unfold queue_of at 1. rewrite Hws. simpl. by rewrite lookup_insert_eq.
  - destruct (Qle_bool wake (clock s)); [|done].
    eapply queued_keep; [done..| | |reflexivity|reflexivity]; [|done].
    intros m. by rewrite Hpc.
Qed.

Lemma step_queued ev s :
  valid ev -> queued name s -> queued name (step ev s).
Proof.
  intros Hev Hqu. destruct ev as [dt|i late]; simpl in *.
  - destruct Hqu as [Hnd Hw]. by constructor.
  - destruct (callers s !! i) as [c|] eqn:Hi;
      [|by unfold acquire; rewrite Hi].
    destruct (decide (c_name c = name)) as [Hn|Hn].
    + by eapply acquire_same_queued.
    + eapply frame_queued; [|exact Hqu]. by eapply frame_acquire.
Qed.

Lemma run_queued evs : forall s,
  Forall valid evs -> queued name s -> queued name (run evs s).
Proof.
  induction evs as [|ev evs IH]; intros s Hevs Hqu; [done|].
  apply Forall_cons in Hevs as [Hev Hevs]. simpl.
  apply IH; [done|by apply step_queued].
Qed.

Lemma start_queued rl t0 names : queued name (start rl t0 names).
Proof.
  constructor; unfold queue_of; simpl; rewrite lookup_empty; simpl.
  - apply NoDup_nil_2.
  - intros j. split; [by intros ?%elem_of_nil|]. intros [m Hj].
    rewrite list_lookup_fmap in Hj. destruct (names !! j); simplify_eq/=.
Qed.

End QueueFacts.

Section LimiterProgress.
Import Limiter.
Local Open Scope Q_scope.

Variable name : string.
Variable calls : Z.
Variable period : Q.
Hypothesis calls_nonzero : calls <> 0%Z.
Hypothesis calls_finite : Float.overflows (Float.of_int calls) = false.

Local Abbreviation mi := (Float.div period (Float.of_int calls)).
Local Abbreviation good := (good name calls period).

Lemma good_run evs s : Forall valid evs -> good s -> good (run evs s).
Proof.
  intros Hevs (Hsh & Hqu & Hrate). split; [|split].
  - by eapply run_shape.
  - by apply run_queued.
  - by rewrite run_rates.
Qed.


Lemma until_valid wake s : valid (Tick (until wake s)).
Proof.
  simpl. unfold until. destruct (Qle_bool wake (clock s)) eqn:H; [apply Qle_refl|].
  assert (~ wake <= clock s) as Hn
    by (intros Hle; apply Qle_bool_iff in Hle; congruence).
  apply Qnot_le_lt in Hn. lra.
Qed.

(** A sleeping call completes once its wake-up time has come, and frees
    the lock. *)
Lemma sleeper_completes i wake s :
  callers s !! i = Some {| c_name := name; c_pc := Sleeping wake |} ->
  let s' := run [Tick (until wake s); Resume i 0] s in
  callers s' !! i = Some {| c_name := name; c_pc := Returned |}
  /\ _locks (limiter s') !! name = Some false
  /\ queue_of name s' = queue_of name s.
Proof.
  intros Hi s'. subst s'. cbn [run foldl step].
  set (s1 := {| limiter := limiter s; clock := clock s + until wake s;
                callers := callers s; completed := completed s;
                waiters := waiters s |}).
  assert (Qle_bool wake (clock s1) = true) as Hwake.
  { apply Qle_bool_iff. simpl. unfold until.
    destruct (Qle_bool wake (clock s)) eqn:H.
    - apply Qle_bool_iff in H. lra.
    - lra. }
  unfold acquire. change (callers s1) with (callers s). rewrite Hi.
  cbn [c_name c_pc]. rewrite Hwake.
  assert (i < length (callers s))%nat as Hlen by (by eapply lookup_lt_Some).
  unfold finish. cbn [callers limiter _locks].
  split; [by rewrite list_lookup_insert_eq|].
  split; [by rewrite lookup_insert_eq|done].
Qed.

(** The lock can be freed without touching the queue. *)
Lemma free_lock s :
  good s ->
  exists evs,
    Forall valid evs /\ (length evs <= 2)%nat
    /\ _locks (limiter (run evs s)) !! name = Some false
    /\ queue_of name (run evs s) = queue_of name s.
Proof.
  intros (Hsh & Hqu & Hrate).
  pose proof (sh_lock _ _ _ Hsh) as Hl. unfold lock_inv in Hl.
  destruct (_locks (limiter s) !! name) as [[|]|] eqn:Hlock; [| |done].
  - destruct Hl as (i0 & wake & Hi0 & _).
    destruct (sleeper_completes i0 wake s Hi0) as (_ & Hfree & Hq).
    exists [Tick (until wake s); Resume i0 0].
    split; [repeat constructor; [apply until_valid|apply Qle_refl]|].
    split; [simpl; lia|done].
  - exists []. split; [constructor|]. split; [simpl; lia|done].
Qed.

(** With the lock free, the first call of the queue takes it, and returns
    or goes to sleep. *)
Lemma head_enters h rest s :
  good s -> _locks (limiter s) !! name = Some false ->
  queue_of name s = h :: rest ->
  let s' := step (Resume h 0) s in
  queue_of name s' = rest
  /\ (callers s' !! h = Some {| c_name := name; c_pc := Returned |}
      \/ exists wake,
           callers s' !! h = Some {| c_name := name; c_pc := Sleeping wake |}).
Proof.
  intros (Hsh & Hqu & Hrate) Hlock Hq s'. subst s'.
  assert (h ∈ queue_of name s) as Hin by (rewrite Hq; apply list_elem_of_here).
  apply (qu_wait _ _ Hqu) in Hin as [m Hh].
  assert (h < length (callers s))%nat as Hlen by (by eapply lookup_lt_Some).
  destruct (sh_last _ _ _ Hsh) as [last Hlast].
  cbn [step]. unfold acquire. rewrite Hh. cbn [c_name c_pc].
  unfold wake_then_enter. rewrite Hlock, Hq.
  rewrite bool_decide_eq_true_2 by done.
  unfold enter. cbn [limiter _last_check]. rewrite Hlast.
  destruct (Qle_bool m _).
  - split; [unfold queue_of; simpl; by rewrite lookup_insert_eq|].
    left. simpl. by rewrite list_lookup_insert_eq.
  - split; [unfold queue_of; simpl; by rewrite lookup_insert_eq|].
    right. eexists. simpl. by rewrite list_lookup_insert_eq.
Qed.

(** A call that has taken the lock returns after at most two more events. *)
Lemma entered_completes i s :
  (callers s !! i = Some {| c_name := name; c_pc := Returned |}
   \/ exists wake,
        callers s !! i = Some {| c_name := name; c_pc := Sleeping wake |}) ->
  exists evs,
    Forall valid evs /\ (length evs <= 2)%nat
    /\ callers (run evs s) !! i = Some {| c_name := name; c_pc := Returned |}.
Proof.
  intros [Hret|[wake Hsl]].
  - exists []. split; [constructor|]. split; [simpl; lia|done].
  - exists [Tick (until wake s); Resume i 0].
    split; [repeat constructor; [apply until_valid|apply Qle_refl]|].
    split; [simpl; lia|].
    by destruct (sleeper_completes i wake s Hsl) as [? _].
Qed.

(** A queued call returns once the calls queued before it have gone
    through: three events for each of them, and five for the call. *)
Lemma waiter_completes i post : forall pre s,
  good s -> queue_of name s = pre ++ i :: post ->
  exists evs,
    Forall valid evs /\ (length evs <= 3 * length pre + 5)%nat
    /\ callers (run evs s) !! i = Some {| c_name := name; c_pc := Returned |}.
Proof.
  induction pre as [|h pre IH]; intros s Hgood Hq.
  - destruct (free_lock s Hgood) as (evs0 & Hv0 & Hlen0 & Hfree & Hq0).
    pose proof (good_run evs0 s Hv0 Hgood) as Hgood0.
    rewrite Hq in Hq0. simpl in Hq0.
    destruct (head_enters i post _ Hgood0 Hfree Hq0) as [_ Hent].
    destruct (entered_completes i _ Hent) as (evs2 & Hv2 & Hlen2 & Hfin).
    exists (evs0 ++ Resume i 0 :: evs2).
    split; [apply Forall_app; split; [done|]; constructor;
            [apply Qle_refl|done]|].
    split; [rewrite length_app; simpl; lia|].
    unfold run in *. rewrite foldl_app. simpl. done.
  - destruct (free_lock s Hgood) as (evs0 & Hv0 & Hlen0 & Hfree & Hq0).
    pose proof (good_run evs0 s Hv0 Hgood) as Hgood0.
    rewrite Hq in Hq0. simpl in Hq0.
    destruct (head_enters h (pre ++ i :: post) _ Hgood0 Hfree Hq0) as [Hq1 _].
    assert (Forall valid [Resume h 0]) as Hv1
      by (repeat constructor; apply Qle_refl).
    pose proof (good_run [Resume h 0] _ Hv1 Hgood0) as Hgood1.
    destruct (IH _ Hgood1 Hq1) as (evs2 & Hv2 & Hlen2 & Hfin).
    exists (evs0 ++ Resume h 0 :: evs2).
    split; [apply Forall_app; split; [done|]; constructor;
            [apply Qle_refl|done]|].
    split; [rewrite length_app; simpl in *; lia|].
    unfold run in *. rewrite foldl_app. simpl. done.
Qed.

(** Any call for the source that has not raised can be brought to
    completion. *)
Lemma call_completes i c s :
  good s -> callers s !! i = Some c -> c_name c = name ->
  (forall e, c_pc c <> Raised e) ->
  exists evs,
    Forall valid evs
    /\ (length evs <= 3 * length (queue_of name s) + 6)%nat
    /\ callers (run evs s) !! i = Some {| c_name := name; c_pc := Returned |}.
Proof.
  intros Hgood Hi Hn Hnr. pose proof Hgood as (Hsh & Hqu & Hrate).
  destruct c as [n pc]. simpl in Hn. subst n. simpl in Hnr.
  assert (i < length (callers s))%nat as Hlen by (by eapply lookup_lt_Some).
  destruct pc as [|m|wake| |e].
  - (* the call has not started *)
    assert (Forall valid [Resume i 0]) as Hv1
      by (repeat constructor; apply Qle_refl).
    pose proof (good_run [Resume i 0] _ Hv1 Hgood) as Hgood1.
    cbn [run foldl] in Hgood1.
    destruct (sh_last _ _ _ Hsh) as [last Hlast].
    pose proof (sh_lock _ _ _ Hsh) as Hl. unfold lock_inv in Hl.
    assert ((callers (step (Resume i 0) s) !! i
               = Some {| c_name := name; c_pc := Returned |}
             \/ exists wake,
                  callers (step (Resume i 0) s) !! i
                  = Some {| c_name := name; c_pc := Sleeping wake |})
            \/ queue_of name (step (Resume i 0) s) = queue_of name s ++ [i])
      as [Hent|Hq].
    { cbn [step]. unfold acquire. rewrite Hi. cbn [c_name c_pc].
      rewrite Hrate, (proj2 (Z.eqb_neq calls 0) calls_nonzero), calls_finite.
      unfold lock_then_enter.
      destruct (_locks (limiter s) !! name) as [locked|]; [|done].
      destruct (negb locked && _).
      - left. unfold enter. rewrite Hlast. destruct (Qle_bool mi _).
        + left. simpl. by rewrite list_lookup_insert_eq.
        + right. eexists. simpl. by rewrite list_lookup_insert_eq.
      - right. by rewrite queue_of_insert, decide_True. }
    + destruct (entered_completes i _ Hent) as (evs2 & Hv2 & Hlen2 & Hfin).
      exists (Resume i 0 :: evs2).
      split; [constructor; [apply Qle_refl|done]|].
      split; [simpl; lia|done].
    + destruct (waiter_completes i [] _ _ Hgood1 Hq)
        as (evs2 & Hv2 & Hlen2 & Hfin).
      exists (Resume i 0 :: evs2).
      split; [constructor; [apply Qle_refl|done]|].
      split; [simpl; lia|done].
  - (* the call is queued *)
    assert (i ∈ queue_of name s) as Hin by (apply (qu_wait _ _ Hqu); eauto).
    apply list_elem_of_split in Hin as (pre & post & Hq).
    destruct (waiter_completes i post pre s Hgood Hq)
      as (evs & Hv & Hlen' & Hfin).
    exists evs. split; [done|]. split; [|done].
    rewrite Hq, length_app. simpl. lia.
  - destruct (entered_completes i s) as (evs & Hv & Hlen' & Hfin);
      [right; eauto|].
    exists evs. split; [done|]. split; [lia|done].
  - exists []. split; [constructor|]. split; [simpl; lia|done].
  - by destruct (Hnr e).
Qed.

(** A step of [acquire] for the source never raises. *)
Lemma acquire_never_raises j late s cj :
  good s -> callers s !! j = Some cj -> c_name cj = name ->
  (forall i c, callers s !! i = Some c -> c_name c = name ->
               forall e, c_pc c <> Raised e) ->
  forall i c, callers (acquire j late s) !! i = Some c -> c_name c = name ->
              forall e, c_pc c <> Raised e.
Proof.
  intros (Hsh & Hqu & Hrate) Hj Hn Hold.
  destruct (sh_last _ _ _ Hsh) as [last Hlast].
  pose proof (sh_lock _ _ _ Hsh) as Hl. unfold lock_inv in Hl.
  assert (forall p i c,
            (forall e, p <> Raised e) ->
            <[j := {| c_name := name; c_pc := p |}]> (callers s) !! i = Some c ->
            c_name c = name -> forall e, c_pc c <> Raised e) as Hset.
  { intros p i c Hp Hi Hc e.
    apply list_lookup_insert_Some in Hi as [(_ & <- & _)|[_ Hi]];
      [apply Hp|by eapply Hold]. }
  assert (forall m s1, callers s1 = callers s ->
            _last_check (limiter s1) !! name = Some last ->
            forall i c, callers (enter j name m late s1) !! i = Some c ->
            c_name c = name -> forall e, c_pc c <> Raised e) as Hent.
  { intros m s1 Hcs Hla i c. unfold enter. rewrite Hla.
    destruct (Qle_bool m _); cbn [finish callers]; rewrite Hcs;
      by apply Hset. }
  intros i c. unfold acquire. rewrite Hj, Hn.
  destruct (c_pc cj) as [|m|wake| |e0].
  - rewrite Hrate, (proj2 (Z.eqb_neq calls 0) calls_nonzero), calls_finite.
    unfold lock_then_enter.
    destruct (_locks (limiter s) !! name) as [locked|]; [|done].
    destruct (negb locked && _); [by apply Hent|].
    cbn [callers]. by apply Hset.
  - unfold wake_then_enter.
    destruct (_locks (limiter s) !! name) as [[|]|]; [by apply Hold| |done].
    destruct (queue_of name s) as [|h rest]; [by apply Hold|].
    case_bool_decide; [by apply Hent|by apply Hold].
  - destruct (Qle_bool wake (clock s)); [|by apply Hold].
    cbn [finish callers]. by apply Hset.
  - by apply Hold.
  - by apply Hold.
Qed.

Lemma run_never_raises evs : forall s,
  Forall valid evs -> good s ->
  (forall i c, callers s !! i = Some c -> c_name c = name ->
               forall e, c_pc c <> Raised e) ->
  forall i c, callers (run evs s) !! i = Some c -> c_name c = name ->
              forall e, c_pc c <> Raised e.
Proof.
  induction evs as [|ev evs IH]; intros s Hevs Hgood Hold; [done|].
  apply Forall_cons in Hevs as [Hev Hevs]. simpl.
  assert (Forall valid [ev]) as Hv1 by (by repeat constructor).
  apply IH; [done|exact (good_run [ev] s Hv1 Hgood)|].
  destruct ev as [dt|j late]; [done|]. cbn [step].
  destruct (callers s !! j) as [cj|] eqn:Hj;
    [|by unfold acquire; rewrite Hj].
  destruct (decide (c_name cj = name)) as [Hn|Hn].
  - by eapply acquire_never_raises.
  - intros i c Hi Hc. eapply Hold; [|done].
    by eapply (fr_back _ _ _ (frame_acquire name j late cj s Hev Hj Hn)).
Qed.

End LimiterProgress.

Section LimiterLiveness.
Import Limiter.
Local Open Scope Q_scope.

(** X29: no call of [acquire] is ever stuck.  For a configured source whose
    [calls] is not zero and converts to a float, in any state that a run
    can reach, no call made for the source has raised, and every such call
    can still return: the lock is handed over in the order of arrival, so
    three scheduler events for each call queued on the lock (it takes the
    lock, sleeps if it must, and releases it) and at most six for the call
    itself bring it there. *)
Theorem X29_every_call_can_complete
    cfg t0 names evs name calls period i c :
  Forall valid evs ->
  _rates (configured cfg) !! name = Some (calls, period) -> calls <> 0%Z ->
  Float.overflows (Float.of_int calls) = false ->
  let s := run evs (start (configured cfg) t0 names) in
  callers s !! i = Some c -> c_name c = name ->
  (forall e, c_pc c <> Raised e)
  /\ exists more,
       Forall valid more
       /\ (length more <= 3 * length (queue_of name s) + 6)%nat
       /\ callers (run more s) !! i
          = Some {| c_name := name; c_pc := Returned |}.
Proof.
  intros Hevs Hrate Hcalls Hfin s Hi Hn.
  destruct (configured_lookup cfg name) as [Hlock Hlast]; [by eexists|].
  assert (good name calls period (start (configured cfg) t0 names)) as Hgood0.
  { split; [apply start_shape; [done|by eexists]|].
    split; [apply start_queued|done]. }
  pose proof (good_run name calls period Hcalls evs _ Hevs Hgood0) as Hgood.
  fold s in Hgood.
  assert (forall e, c_pc c <> Raised e) as Hnr.
  { eapply (run_never_raises name calls period Hcalls Hfin evs
              (start (configured cfg) t0 names)); [done..| |done|done].
    intros i' c' Hi' _ e. simpl in Hi'. rewrite list_lookup_fmap in Hi'.
    destruct (names !! i'); by simplify_eq/=. }
  split; [done|].
  by eapply (call_completes name calls period Hcalls Hfin).
Qed.

End LimiterLiveness.

(** ** The rate over any window *)
Section LimiterGuarantees.
Import Limiter.
Local Open Scope Q_scope.


End LimiterGuarantees.

(** ** Concrete servers *)
Section AdapterExamples.
Import Item Tally Http Controller Examples Fixtures.

Lemma X20_louvre_identifier_round_trip_witness :
  Str.contains Louvre.ark (Louvre.artwork_url "cl010062370") = true
  /\ Louvre.artwork_id_of (Louvre.artwork_url "cl010062370") = "cl010062370"
  /\ Louvre.artwork_id_of
       ("https://collections.louvre.fr/ark:/53355/" +:+ "cl010062370")
     = "cl010062370".
Proof.
  apply (X20_louvre_identifier_round_trip "cl010062370"); reflexivity.
Defined.

(** The first sitemap stops at its empty element, the second cannot be
    downloaded: two errors, and the two artworks that were reached. *)
Lemma X21_louvre_discovery_skips_failed_sitemaps_witness :
  exists tr,
    Louvre.get_artwork_ids sitemap_fetch
    = (tr, Ret ["cl010062370"; "cl010066723"])
    /\ Louvre.errors tr = 2%nat.
Proof.
  destruct (X21_louvre_discovery_skips_failed_sitemaps sitemap_fetch
              [Some "https://collections.louvre.fr/sitemap1.xml";
               Some "https://collections.louvre.fr/sitemap2.xml";
               Some "https://collections.louvre.fr/sitemap3.xml"])
    as (tr & H & He).
  - reflexivity.
  - intros j u e. destruct j as [|[|[|j]]]; simpl; intros Heq;
      inversion Heq; reflexivity.
  - exists tr. split; [exact H|exact He].
Defined.

Lemma X22_louvre_discovery_cancellation_propagates_witness :
  snd (Louvre.get_artwork_ids cancelled_fetch) = Raise CancelledError.
Proof.
  apply (X22_louvre_discovery_cancellation_propagates cancelled_fetch
           [Some "https://collections.louvre.fr/sitemap1.xml";
            Some "https://collections.louvre.fr/sitemap2.xml";
            Some "https://collections.louvre.fr/sitemap3.xml"]
           1%nat (Some "https://collections.louvre.fr/sitemap2.xml")
           CancelledError); try reflexivity.
  intros i v e' Hi Hv Hf. destruct i as [|i]; [|lia].
  simpl in Hf. discriminate.
Defined.

Lemma X23_first_conclusive_try_decides_witness :
  on_exception (fun tries => Met.request "u" (flaky_server tries)) sleep_ok
  = ([Get "u"; Wait; Get "u"], Ok (Some tt)).
Proof.
  apply (X23_first_conclusive_try_decides
           (fun tries => Met.request "u" (flaky_server tries)) sleep_ok 1).
  - unfold max_tries. lia.
  - intros k Hk. destruct k as [|k]; [|lia].
    split; [by exists "ServerDisconnectedError"|reflexivity].
  - right. intros msg. discriminate.
Defined.

Lemma X25_met_not_found_is_skipped_witness :
  process_artwork met_env 3 "436535"
  = ([SemAcquire; RateAcquire; Fetch "436535"; SemRelease], Ret (Some false)).
Proof.
  destruct (X25_met_not_found_is_skipped sleep_ok met_env 3 "436535"
              met_not_found 0) as (_ & _ & H & _).
  - unfold max_tries. lia.
  - intros k Hk. lia.
  - by eexists.
  - lia.
  - reflexivity.
  - reflexivity.
  - reflexivity.
  - exact H.
Defined.

Lemma X26_met_listing_not_found_fails_crawl_witness :
  exists o,
    crawl_museum (process_artwork env_ok 3) (manager 2 None) met_crawler []
    = Some o
    /\ o_result o = Raise (OtherError "AttributeError")
    /\ o_pool o = None.
Proof.
  destruct (X26_met_listing_not_found_fails_crawl sleep_ok
              (fun _ : unit => Ret []) met_not_found 0
              (process_artwork env_ok 3) (manager 2 None) met_crawler [])
    as (_ & _ & o & Ho & _ & Hr & Hp).
  - unfold max_tries. lia.
  - intros k Hk. lia.
  - by eexists.
  - simpl. lia.
  - reflexivity.
  - reflexivity.
  - exists o. split; [exact Ho|]. split; [exact Hr|exact Hp].
Defined.

Lemma X27_louvre_not_found_is_retried_witness :
  snd (process_artwork louvre_env 3 "cl010062370")
  = Raise (OtherError "ClientResponseError")
  /\ fetches (fst (process_artwork louvre_env 3 "cl010062370")) = 3%nat.
Proof.
  destruct (X27_louvre_not_found_is_retried sleep_ok
              (fun _ => Ret (Some tt)) louvre_env 3 "cl010062370"
              louvre_not_found) as (_ & Hr & Hf & _).
  - lia.
  - reflexivity.
  - reflexivity.
  - intros a Ha. split; [reflexivity|]. split; [reflexivity|].
    split; [reflexivity|].
    intros k Hk. exists 404, (Ok "Not Found"). split; [reflexivity|lia].
  - split; [exact Hr|exact Hf].
Defined.

End AdapterExamples.

Section LimiterGuaranteesExamples.
Import Limiter Examples Fixtures.
Local Open Scope Q_scope.


(** Of three calls made at the same instant the first has returned, the
    second sleeps with the lock and the third is queued: the third can
    still return. *)
Lemma X29_every_call_can_complete_witness :
  let s := run three_at_once
             (start (configured [("MetCrawler", 2%Z, 1)]) 100
                (replicate 3 "MetCrawler")) in
  queue_of "MetCrawler" s = [2%nat]
  /\ exists more,
       Forall valid more
       /\ (length more <= 3 * length (queue_of "MetCrawler" s) + 6)%nat
       /\ callers (run more s) !! 2%nat
          = Some {| c_name := "MetCrawler"; c_pc := Returned |}.
Proof.
  split; [vm_compute; reflexivity|].
  refine (proj2 (X29_every_call_can_complete [("MetCrawler", 2%Z, 1)] 100
                   (replicate 3 "MetCrawler") three_at_once "MetCrawler"
                   2%Z 1 2%nat _ _ _ _ _ _ _)).
  - repeat (constructor; [vm_compute; discriminate|]). constructor.
  - reflexivity.
  - discriminate.
  - vm_compute; reflexivity.
  - vm_compute; reflexivity.
  - reflexivity.
Defined.

End LimiterGuaranteesExamples.
